(** * Asteroids game (stephen_game.c): shallow embedding and verified properties

    The game is a set of callbacks run to completion by a cooperative
    scheduler.  Every callback is embedded as a function on an explicit
    [state] record holding the C globals ([game], [asteroids], [shots],
    [gRechargingWeapon], [asteroidSpawnProbability]) together with the
    observable effects on the collaborators the file calls into: the task
    list of the scheduler, the registration of the input receiver and the
    trace of terminal/host calls. *)

From Stdlib Require Import ZArith List Bool String Ascii Lia.
Import ListNotations.
Local Open Scope Z_scope.

(** ** Constants ([#define]s of stephen_game.c) *)

Definition MAP_WIDTH : Z := 60.
Definition MAP_HEIGHT : Z := 18.
(** [MAX_COLUMNS] is the unparenthesised text [MAP_WIDTH-2]; both of its
    uses (an array subscript and a call argument) read it as one expression. *)
Definition MAX_COLUMNS : Z := MAP_WIDTH - 2.
Definition FIRE_SPEED : Z := 100.
Definition RECHARGE_RATE : Z := 750.
Definition MAX_SHOTS : Z := 5.
Definition STARTING_DIFFICULTY : Z := 24.

(** ** Machine integers *)

(** [uint8_t]: values are kept reduced modulo 256. *)
Definition u8 (z : Z) : Z := z mod 256.

(** [int] on the MSP430 target named in the file header is 16 bits wide,
    two's complement. *)
Definition INT_MAX : Z := 32767.
Definition int16 (z : Z) : Z := (z + 32768) mod 65536 - 32768.

(** ** Data *)

(** [struct stephen_game_t] *)
Record stephen_game_t := mk_game {
  game_x : Z;            (* uint8_t x *)
  game_y : Z;            (* uint8_t y *)
  game_c : ascii;        (* char c *)
  game_health : Z;       (* uint8_t health *)
  game_shotCooldown : Z; (* uint8_t shotCooldown *)
  game_score : Z;        (* int score *)
  game_shotsFired : Z;   (* int shotsFired *)
  game_id : Z            (* uint8_t id *)
}.

Definition set_x v g := mk_game v (game_y g) (game_c g) (game_health g)
  (game_shotCooldown g) (game_score g) (game_shotsFired g) (game_id g).
Definition set_y v g := mk_game (game_x g) v (game_c g) (game_health g)
  (game_shotCooldown g) (game_score g) (game_shotsFired g) (game_id g).
Definition set_c v g := mk_game (game_x g) (game_y g) v (game_health g)
  (game_shotCooldown g) (game_score g) (game_shotsFired g) (game_id g).
Definition set_health v g := mk_game (game_x g) (game_y g) (game_c g) v
  (game_shotCooldown g) (game_score g) (game_shotsFired g) (game_id g).
Definition set_shotCooldown v g := mk_game (game_x g) (game_y g) (game_c g)
  (game_health g) v (game_score g) (game_shotsFired g) (game_id g).
Definition set_score v g := mk_game (game_x g) (game_y g) (game_c g)
  (game_health g) (game_shotCooldown g) v (game_shotsFired g) (game_id g).
Definition set_shotsFired v g := mk_game (game_x g) (game_y g) (game_c g)
  (game_health g) (game_shotCooldown g) (game_score g) v (game_id g).

(** The fields of the library's [char_object_t] that the game uses; its
    coordinates are 8-bit characters. *)
Record char_object_t := mk_shot {
  shot_x : Z;
  shot_y : Z;
  shot_status : Z
}.

Definition idle_shot : char_object_t := mk_shot 0 0 0.

(** Identities of the callbacks handed to the scheduler. *)
Inductive task_fn :=
| T_GenerateAndShift | T_IncreaseScore | T_UpdateScore | T_UpdateHealth
| T_UpdateShotCooldown | T_UpdateDifficulty | T_ResetScreenColor
| T_MoveRightShot | T_DecreaseCooldown.

Definition task_fn_eqb (a b : task_fn) : bool :=
  match a, b with
  | T_GenerateAndShift, T_GenerateAndShift
  | T_IncreaseScore, T_IncreaseScore
  | T_UpdateScore, T_UpdateScore
  | T_UpdateHealth, T_UpdateHealth
  | T_UpdateShotCooldown, T_UpdateShotCooldown
  | T_UpdateDifficulty, T_UpdateDifficulty
  | T_ResetScreenColor, T_ResetScreenColor
  | T_MoveRightShot, T_MoveRightShot
  | T_DecreaseCooldown, T_DecreaseCooldown => true
  | _, _ => false
  end.

(** A task's argument is the null pointer ([None]) or the address of
    [shots[k]] ([Some k]). *)
Definition arg_eqb (a b : option Z) : bool :=
  match a, b with
  | None, None => true
  | Some i, Some j => i =? j
  | _, _ => false
  end.

Record task := mk_task {
  t_fn : task_fn;
  t_arg : option Z;
  t_delay : Z;
  t_period : Z   (* 0: one-shot *)
}.

Inductive color :=
| ForegroundCyan | ForegroundWhite | ForegroundRed | ForegroundYellow
| ForegroundGreen | BackgroundRed | BackgroundBlack | BackgroundYellow.

(** Calls into the terminal and the host game module, in the order made. *)
Inductive call :=
| C_ClearScreen
| C_DrawRect (x_min y_min x_max y_max : Z)
| C_CharXY (ch : ascii) (px py : Z)
| C_SetColor (col : color)
| C_HideCursor
| C_ShowCursor
| C_Bell
| C_Printf (fmt : string) (args : list Z)
| C_Log (id : Z) (msg : string)
| C_Register (name description : string)
| C_RegisterCallback (id : Z)
| C_RegisterPlayer1Receiver
| C_UnregisterPlayer1Receiver
| C_GameOver.

Record state := mk_state {
  game : stephen_game_t;
  asteroids : list Z;            (* memory image starting at &asteroids[0][0] *)
  shots : list char_object_t;    (* char_object_t shots[MAX_SHOTS] *)
  gRechargingWeapon : Z;
  asteroidSpawnProbability : Z;
  tasks : list task;             (* what the scheduler currently holds *)
  receiver : bool;               (* Receiver registered for player 1 *)
  io : list call;                (* most recent call first *)
  faults : list (Z * Z)          (* subscripts used outside the declared array *)
}.

Definition set_game v s := mk_state v (asteroids s) (shots s)
  (gRechargingWeapon s) (asteroidSpawnProbability s) (tasks s) (receiver s)
  (io s) (faults s).
Definition set_asteroids v s := mk_state (game s) v (shots s)
  (gRechargingWeapon s) (asteroidSpawnProbability s) (tasks s) (receiver s)
  (io s) (faults s).
Definition set_shots v s := mk_state (game s) (asteroids s) v
  (gRechargingWeapon s) (asteroidSpawnProbability s) (tasks s) (receiver s)
  (io s) (faults s).
Definition set_gRechargingWeapon v s := mk_state (game s) (asteroids s)
  (shots s) v (asteroidSpawnProbability s) (tasks s) (receiver s) (io s)
  (faults s).
Definition set_asteroidSpawnProbability v s := mk_state (game s)
  (asteroids s) (shots s) (gRechargingWeapon s) v (tasks s) (receiver s)
  (io s) (faults s).
Definition set_tasks v s := mk_state (game s) (asteroids s) (shots s)
  (gRechargingWeapon s) (asteroidSpawnProbability s) v (receiver s) (io s)
  (faults s).
Definition set_receiver v s := mk_state (game s) (asteroids s) (shots s)
  (gRechargingWeapon s) (asteroidSpawnProbability s) (tasks s) v (io s)
  (faults s).
Definition set_io v s := mk_state (game s) (asteroids s) (shots s)
  (gRechargingWeapon s) (asteroidSpawnProbability s) (tasks s) (receiver s)
  v (faults s).
Definition set_faults v s := mk_state (game s) (asteroids s) (shots s)
  (gRechargingWeapon s) (asteroidSpawnProbability s) (tasks s) (receiver s)
  (io s) v.

Definition upd_game (f : stephen_game_t -> stephen_game_t) (s : state) : state :=
  set_game (f (game s)) s.

(** ** Loops *)

(** The integers [lo, lo+1, ..., hi-1]. *)
Definition range (lo hi : Z) : list Z :=
  map (fun k => lo + Z.of_nat k) (seq 0 (Z.to_nat (hi - lo))).

(** [for (i = lo; i < hi; i++) body] for a body that does not assign [i]. *)
Fixpoint for_ (idx : list Z) (body : Z -> state -> state) (s : state) : state :=
  match idx with
  | [] => s
  | i :: rest => for_ rest body (body i s)
  end.

(** Array store [l[n] = v]; the callers below only use it for cells that
    exist, outside the list nothing is stored. *)
Fixpoint put_nat {A} (l : list A) (n : nat) (v : A) : list A :=
  match l, n with
  | [], _ => []
  | _ :: rest, O => v :: rest
  | b :: rest, S n' => b :: put_nat rest n' v
  end.

(** ** Terminal and host calls (external; only the call is recorded) *)

Definition emit (c : call) (s : state) : state := set_io (c :: io s) s.

Definition Game_ClearScreen := emit C_ClearScreen.
Definition Game_DrawRect (a b c d : Z) := emit (C_DrawRect a b c d).
Definition Game_CharXY (ch : ascii) (px py : Z) := emit (C_CharXY ch px py).
Definition Game_SetColor (col : color) := emit (C_SetColor col).
Definition Game_HideCursor := emit C_HideCursor.
Definition Game_ShowCursor := emit C_ShowCursor.
Definition Game_Bell := emit C_Bell.
Definition Game_Printf (fmt : string) (args : list Z) := emit (C_Printf fmt args).
Definition Game_Log (id : Z) (msg : string) := emit (C_Log id msg).
Definition Game_GameOver := emit C_GameOver.
Definition Game_RegisterPlayer1Receiver (s : state) : state :=
  emit C_RegisterPlayer1Receiver (set_receiver true s).
Definition Game_UnregisterPlayer1Receiver (s : state) : state :=
  emit C_UnregisterPlayer1Receiver (set_receiver false s).

(** Carriage return, as in [Game_CharXY('\r', ...)]. *)
Definition CR : ascii := ascii_of_nat 13.

(** ** Scheduler *)

Definition same_task (fn : task_fn) (arg : option Z) (t : task) : bool :=
  task_fn_eqb fn (t_fn t) && arg_eqb arg (t_arg t).

(** Modelled from the spec: the scheduler of the embedded-software library
    (task.h) is not part of the sources; its contract is
    [schedule(task, arg, initial_delay, period)] with period 0 meaning
    one-shot, [queue(task, arg)] to run on the next tick, and
    [remove(task, arg)] cancelling by identity, a no-op if not scheduled. *)
Definition Task_Schedule (fn : task_fn) (arg : option Z) (delay period : Z)
    (s : state) : state :=
  set_tasks (tasks s ++ [mk_task fn arg delay period]) s.

Definition Task_Queue (fn : task_fn) (arg : option Z) : state -> state :=
  Task_Schedule fn arg 0 0.

Definition Task_Remove (fn : task_fn) (arg : option Z) (s : state) : state :=
  set_tasks (filter (fun t => negb (same_task fn arg t)) (tasks s)) s.

Definition count_task (fn : task_fn) (arg : option Z) (ts : list task) : Z :=
  Z.of_nat (List.length (filter (same_task fn arg) ts)).

(** ** The asteroid grid: [static uint8_t asteroids[MAP_WIDTH-1][MAP_HEIGHT-1]] *)

Definition in_bounds (c r : Z) : bool :=
  (0 <=? c) && (c <? MAP_WIDTH - 1) && (0 <=? r) && (r <? MAP_HEIGHT - 1).

(** Row-major layout: [asteroids[c][r]] lives [c * (MAP_HEIGHT-1) + r] bytes
    after the start of the array. *)
Definition offset (c r : Z) : Z := c * (MAP_HEIGHT - 1) + r.

Definition peek (m : list Z) (o : Z) : Z := nth (Z.to_nat o) m 0.

Definition poke (m : list Z) (o : Z) (v : Z) : list Z := put_nat m (Z.to_nat o) v.

(** Checked access: [None] exactly when a subscript is outside the
    declared bounds. *)
Definition asteroids_get (m : list Z) (c r : Z) : option Z :=
  if in_bounds c r then Some (peek m (offset c r)) else None.

Definition fault (c r : Z) (s : state) : state := set_faults ((c, r) :: faults s) s.

(** The C code indexes without a check.  A read or write whose subscripts
    are out of bounds is recorded in [faults] and then performed on the
    byte the row-major address designates. *)
Definition rd (c r : Z) (s : state) : Z * state :=
  match asteroids_get (asteroids s) c r with
  | Some v => (v, s)
  | None => (peek (asteroids s) (offset c r), fault c r s)
  end.

Definition wr (c r v : Z) (s : state) : state :=
  let s := if in_bounds c r then s else fault c r s in
  set_asteroids (poke (asteroids s) (offset c r) v) s.

(** ** The shot pool *)

Definition shot_at (s : state) (k : Z) : char_object_t :=
  nth (Z.to_nat k) (shots s) idle_shot.

Definition set_shot (k : Z) (o : char_object_t) (s : state) : state :=
  set_shots (put_nat (shots s) (Z.to_nat k) o) s.

Definition set_status (v : Z) (o : char_object_t) : char_object_t :=
  mk_shot (shot_x o) (shot_y o) v.
Definition set_shot_x (v : Z) (o : char_object_t) : char_object_t :=
  mk_shot v (shot_y o) (shot_status o).
Definition set_shot_y (v : Z) (o : char_object_t) : char_object_t :=
  mk_shot (shot_x o) v (shot_status o).

(** ** The game callbacks ([Play] comes last: it calls the display updates) *)

(** Body of the loop of [GameOver], for [shots[i]]. *)
Definition release (i : Z) (s : state) : state :=
  if shot_status (shot_at s i) =? 1 then
    let s := set_shot i (set_status 0 (shot_at s i)) s in
    Task_Remove T_MoveRightShot (Some i) s
  else s.

(** The loop of [GameOver]: [for (i = 0; i < MAX_SHOTS; i++)]. *)
Definition release_all (s : state) : state :=
  for_ (range 0 MAX_SHOTS) release s.

(** [GameOver] *)
Definition GameOver (s : state) : state :=
  let s := Task_Remove T_GenerateAndShift None s in
  let s := Task_Remove T_IncreaseScore None s in
  let s := release_all s in
  let s := Game_SetColor ForegroundRed s in
  let s := Game_CharXY CR 0 (MAP_HEIGHT + 1) s in
  let s := Game_Printf "Game Over! Final score: %d, Total shots fired: %d"
             [game_score (game s); game_shotsFired (game s)] s in
  let s := Game_UnregisterPlayer1Receiver s in
  let s := Game_CharXY CR 0 (MAP_HEIGHT + 5) s in
  let s := Game_ShowCursor s in
  Game_GameOver s.

(** [IncreaseScore] *)
Definition IncreaseScore (s : state) : state :=
  let s := upd_game (fun g => set_score (int16 (game_score g + 1)) g) s in
  Task_Queue T_UpdateScore None s.

(** The block repeated verbatim in [ShiftAsteroidColumns] (twice) and in
    the four move functions after "if collided" / "moved into asteroid",
    at the cell [(cx, cy)]. *)
Definition ship_hit (cx cy : Z) (s : state) : state :=
  let s := wr cx cy 0 s in
  let s := Game_SetColor BackgroundRed s in
  let s := Game_CharXY "*"%char cx cy s in
  let s := Game_SetColor BackgroundBlack s in
  let s := Game_Bell s in
  let s := if 0 <? game_health (game s)
           then upd_game (fun g => set_health (u8 (game_health g - 1)) g) s
           else s in
  let s := Task_Queue T_UpdateHealth None s in
  Task_Schedule T_ResetScreenColor None 250 0 s.

(** Body of the loop of [GenerateAsteroidColumn], for row [i].
    [random_int] is external: [rnd i] gives the values its calls return
    during iteration [i], the first for [randomCheck], the second (requested
    only when the first is 1) for [randomType]; both are stored in [uint8_t]
    variables. *)
Definition generate_row (rnd : Z -> Z * Z) (i : Z) (s : state) : state :=
  let randomCheck := u8 (fst (rnd i)) in
  if randomCheck =? 1 then
    let randomType := u8 (snd (rnd i)) in
    if randomType =? 1 then
      let s := wr MAX_COLUMNS i 1 s in
      Game_CharXY "o"%char MAX_COLUMNS i s
    else
      let s := wr MAX_COLUMNS i 2 s in
      Game_CharXY "O"%char MAX_COLUMNS i s
  else
    let s := wr MAX_COLUMNS i 0 s in
    Game_CharXY " "%char MAX_COLUMNS i s.

(** [GenerateAsteroidColumn]: [for (i = 1; i < MAP_HEIGHT; i++)]. *)
Definition GenerateAsteroidColumn (rnd : Z -> Z * Z) (s : state) : state :=
  for_ (range 1 MAP_HEIGHT) (generate_row rnd) s.

(** The inner scan of [ShiftAsteroidColumns]:
    [for (checkShots = 0; checkShots < MAX_SHOTS; checkShots++)] with
    [break] on the first active shot at [(column, i)]. *)
Definition foundShot (s : state) (column i : Z) : bool :=
  existsb (fun checkShots =>
             negb (shot_status (shot_at s checkShots) =? 0)
             && (shot_x (shot_at s checkShots) =? column)
             && (shot_y (shot_at s checkShots) =? i))
          (range 0 MAX_SHOTS).

Definition ship_at (s : state) (column i : Z) : bool :=
  (game_x (game s) =? column) && (game_y (game s) =? i).

(** One iteration of the inner loop of [ShiftAsteroidColumns]. *)
Definition shift_cell (column i : Z) (s : state) : state :=
  let '(v, s) := rd (column + 1) i s in
  let s := wr column i v s in
  let '(a, s) := rd column i s in
  if (a =? 0) && negb (ship_at s column i) then
    if foundShot s column i then s else Game_CharXY " "%char column i s
  else
    let '(a, s) := rd column i s in
    if a =? 1 then
      if ship_at s column i then ship_hit column i s
      else Game_CharXY "o"%char column i s
    else
      let '(a, s) := rd column i s in
      if a =? 2 then
        if ship_at s column i then ship_hit column i s
        else Game_CharXY "O"%char column i s
      else s.

(** [ShiftAsteroidColumns] *)
Definition ShiftAsteroidColumns (s : state) : state :=
  for_ (range 1 (MAP_WIDTH - 1)) (fun column s =>
    for_ (range 1 MAP_HEIGHT) (fun i s => shift_cell column i s) s) s.

(** [GenerateAndShift] *)
Definition GenerateAndShift (rnd : Z -> Z * Z) (s : state) : state :=
  ShiftAsteroidColumns (GenerateAsteroidColumn rnd s).

(** The scan at the head of [Shoot]:
    [for (i = 0; i < MAX_SHOTS; i++) if (shots[i].status == 0) shot = &shots[i];]
    starting from [shot = 0].  There is no [break]. *)
Definition find_shot (s : state) : option Z :=
  fold_left (fun shot i =>
               if shot_status (shot_at s i) =? 0 then Some i else shot)
            (range 0 MAX_SHOTS) None.

(** [Shoot] *)
Definition Shoot (s : state) : state :=
  if 3 <=? game_shotCooldown (game s) then
    let shot := find_shot s in
    match shot with
    | Some k =>
        let s := upd_game (fun g => set_shotCooldown (u8 (game_shotCooldown g - 3)) g) s in
        let s := set_shot k (set_status 1 (shot_at s k)) s in
        let s := set_shot k (set_shot_y (game_y (game s)) (shot_at s k)) s in
        let s := set_shot k (set_shot_x (u8 (game_x (game s) + 1)) (shot_at s k)) s in
        let s := Game_SetColor ForegroundYellow s in
        let s := Game_CharXY "-"%char (game_x (game s) + 1) (game_y (game s)) s in
        let s := Game_SetColor ForegroundWhite s in
        let s := upd_game (fun g => set_shotsFired (int16 (game_shotsFired g + 1)) g) s in
        let s := Task_Queue T_UpdateShotCooldown None s in
        let s := Task_Schedule T_MoveRightShot (Some k) FIRE_SPEED FIRE_SPEED s in
        if gRechargingWeapon s =? 0 then
          let s := set_gRechargingWeapon 1 s in
          Task_Schedule T_DecreaseCooldown None RECHARGE_RATE RECHARGE_RATE s
        else s
    | None => s
    end
  else s.

(** [MoveRightShot(o)] with [o == &shots[k]]. *)
Definition MoveRightShot (k : Z) (s : state) : state :=
  if shot_x (shot_at s k) <? MAP_WIDTH - 2 then
    let s := Game_CharXY " "%char (shot_x (shot_at s k)) (shot_y (shot_at s k)) s in
    let s := set_shot k (set_shot_x (u8 (shot_x (shot_at s k) + 1)) (shot_at s k)) s in
    let '(a, s) := rd (shot_x (shot_at s k)) (shot_y (shot_at s k)) s in
    if negb (a =? 0) then
      let s := wr (shot_x (shot_at s k)) (shot_y (shot_at s k)) 0 s in
      let s := Game_SetColor BackgroundYellow s in
      let s := Game_CharXY "*"%char (shot_x (shot_at s k)) (shot_y (shot_at s k)) s in
      let s := Game_SetColor BackgroundBlack s in
      let s := Game_Bell s in
      let s := set_shot k (set_status 0 (shot_at s k)) s in
      let s := upd_game (fun g => set_score (int16 (game_score g + 1)) g) s in
      let s := Task_Remove T_MoveRightShot (Some k) s in
      Task_Queue T_UpdateScore None s
    else
      let s := Game_SetColor ForegroundYellow s in
      let s := Game_CharXY "-"%char (shot_x (shot_at s k)) (shot_y (shot_at s k)) s in
      Game_SetColor ForegroundWhite s
  else
    let s := Game_CharXY " "%char (shot_x (shot_at s k)) (shot_y (shot_at s k)) s in
    let s := set_shot k (set_status 0 (shot_at s k)) s in
    Task_Remove T_MoveRightShot (Some k) s.

(** [DecreaseCooldown] *)
Definition DecreaseCooldown (s : state) : state :=
  if game_shotCooldown (game s) <? 6 then
    let s := upd_game (fun g => set_shotCooldown (u8 (game_shotCooldown g + 1)) g) s in
    Task_Queue T_UpdateShotCooldown None s
  else
    let s := set_gRechargingWeapon 0 s in
    Task_Remove T_DecreaseCooldown None s.

(** The line end of the C literals: carriage return, line feed. *)
Definition LF : ascii := ascii_of_nat 10.
Definition CRLF : string := String CR (String LF EmptyString).

(** [Help] *)
Definition Help (s : state) : state :=
  let s := Game_Printf
             (String.append "WASD to move the spaceship"
                (String.append CRLF (String.append "SPACEBAR to FIRE" CRLF))) [] s in
  Game_Printf
    (String.append "Weapon recharges over time. Difficulty increases with score." CRLF)
    [] s.

Definition set_difficulty (k : Z) (s : state) : state :=
  let s := set_asteroidSpawnProbability (STARTING_DIFFICULTY - k) s in
  Task_Queue T_UpdateDifficulty None s.

(** [UpdateScore] of stephen_game.c *)
Definition UpdateScore (s : state) : state :=
  let s := Game_CharXY CR 0 (MAP_HEIGHT + 1) s in
  let s := Game_Printf "Score: %d" [game_score (game s)] s in
  if game_score (game s) =? 25 then set_difficulty 1 s
  else if game_score (game s) =? 35 then set_difficulty 2 s
  else if game_score (game s) =? 45 then set_difficulty 3 s
  else if game_score (game s) =? 70 then set_difficulty 4 s
  else if game_score (game s) =? 90 then set_difficulty 5 s
  else if game_score (game s) =? 100 then set_difficulty 6 s
  else if game_score (game s) =? 110 then set_difficulty 7 s
  else if game_score (game s) =? 120 then set_difficulty 8 s
  else if game_score (game s) =? 130 then set_difficulty 9 s
  else if game_score (game s) =? 150 then set_difficulty 10 s
  else s.

(** [UpdateDifficulty] *)
Definition UpdateDifficulty (s : state) : state :=
  let score := u8 ((STARTING_DIFFICULTY - asteroidSpawnProbability s) + 1) in
  let s := Game_CharXY CR 0 (MAP_HEIGHT + 4) s in
  Game_Printf "Difficulty: %d" [score] s.

(** [UpdateHealth] *)
Definition UpdateHealth (s : state) : state :=
  let s := Game_CharXY CR 0 (MAP_HEIGHT + 2) s in
  let s := Game_Printf "Health: " [] s in
  let s := Game_SetColor ForegroundRed s in
  let s :=
    if 3 <=? game_health (game s) then Game_Printf "<3 <3 <3" [] s
    else if game_health (game s) =? 2 then Game_Printf "<3 <3   " [] s
    else if game_health (game s) =? 1 then Game_Printf "<3      " [] s
    else if game_health (game s) =? 0 then
      let s := Game_Printf ":(      " [] s in
      GameOver s
    else s in
  Game_SetColor ForegroundWhite s.

(** [ResetScreenColor] *)
Definition ResetScreenColor (s : state) : state :=
  let s := Game_SetColor ForegroundCyan s in
  let s := Game_CharXY (game_c (game s)) (game_x (game s)) (game_y (game s)) s in
  Game_SetColor ForegroundWhite s.

Definition charge_bar (col : color) (bar : string) (s : state) : state :=
  let s := Game_SetColor col s in
  let s := Game_Printf bar [] s in
  let s := Game_SetColor ForegroundWhite s in
  Game_Printf "]" [] s.

(** [UpdateShotCooldown] *)
Definition UpdateShotCooldown (s : state) : state :=
  let s := Game_CharXY CR 0 (MAP_HEIGHT + 3) s in
  let s := Game_Printf "Weapon Charge: [" [] s in
  if game_shotCooldown (game s) =? 6 then charge_bar ForegroundGreen "++++++" s
  else if game_shotCooldown (game s) =? 5 then charge_bar ForegroundYellow "+++++ " s
  else if game_shotCooldown (game s) =? 4 then charge_bar ForegroundYellow "++++  " s
  else if game_shotCooldown (game s) =? 3 then charge_bar ForegroundYellow "+++   " s
  else if game_shotCooldown (game s) =? 2 then charge_bar ForegroundRed "++    " s
  else if game_shotCooldown (game s) =? 1 then charge_bar ForegroundRed "+     " s
  else if game_shotCooldown (game s) =? 0 then Game_Printf "      ]" [] s
  else s.

(** The part common to the four move functions once the coordinate has
    been updated: test the destination cell. *)
Definition ship_arrive (s : state) : state :=
  let '(a, s) := rd (game_x (game s)) (game_y (game s)) s in
  if negb (a =? 0) then ship_hit (game_x (game s)) (game_y (game s)) s
  else
    let s := Game_SetColor ForegroundCyan s in
    let s := Game_CharXY (game_c (game s)) (game_x (game s)) (game_y (game s)) s in
    Game_SetColor ForegroundWhite s.

(** [MoveRight] *)
Definition MoveRight (s : state) : state :=
  if game_x (game s) <? MAP_WIDTH - 3 then
    let s := Game_CharXY " "%char (game_x (game s)) (game_y (game s)) s in
    let s := upd_game (fun g => set_x (u8 (game_x g + 1)) g) s in
    ship_arrive s
  else s.

(** [MoveLeft] *)
Definition MoveLeft (s : state) : state :=
  if 1 <? game_x (game s) then
    let s := Game_CharXY " "%char (game_x (game s)) (game_y (game s)) s in
    let s := upd_game (fun g => set_x (u8 (game_x g - 1)) g) s in
    ship_arrive s
  else s.

(** [MoveDown] *)
Definition MoveDown (s : state) : state :=
  if game_y (game s) <? MAP_HEIGHT - 1 then
    let s := Game_CharXY " "%char (game_x (game s)) (game_y (game s)) s in
    let s := upd_game (fun g => set_y (u8 (game_y g + 1)) g) s in
    ship_arrive s
  else s.

(** [MoveUp] *)
Definition MoveUp (s : state) : state :=
  if 1 <? game_y (game s) then
    let s := Game_CharXY " "%char (game_x (game s)) (game_y (game s)) s in
    let s := upd_game (fun g => set_y (u8 (game_y g - 1)) g) s in
    ship_arrive s
  else s.

(** [Receiver] *)
Definition Receiver (c : ascii) (s : state) : state :=
  match c with
  | "a"%char | "A"%char => MoveLeft s
  | "d"%char | "D"%char => MoveRight s
  | "w"%char | "W"%char => MoveUp s
  | "s"%char | "S"%char => MoveDown s
  | " "%char => Shoot s
  | _ => s
  end.

(** [strcasecmp] of strings.h, on ASCII. *)
Definition tolower (c : ascii) : Z :=
  let n := Z.of_nat (nat_of_ascii c) in
  if (65 <=? n) && (n <=? 90) then n + 32 else n.

Fixpoint strcasecmp (a b : string) : Z :=
  match a, b with
  | EmptyString, EmptyString => 0
  | EmptyString, String cb _ => 0 - tolower cb
  | String ca _, EmptyString => tolower ca
  | String ca a', String cb b' =>
      if tolower ca =? tolower cb then strcasecmp a' b'
      else tolower ca - tolower cb
  end.

(** [Callback(argc, argv)].  [argv] lists the strings that the cells
    [argv[0]], [argv[1]], ... point to; [argc] is passed separately, as in
    C.  The test of [argc] has no [return] and no [else], so [argv[0]] is
    read in every case; the result is [None] when that cell does not
    exist. *)
Definition Callback (argc : Z) (argv : list string) (s : state) : option state :=
  let s := if argc =? 0 then Game_Log (game_id (game s)) "too few args" s else s in
  match argv with
  | [] => None
  | argv0 :: _ =>
      if strcasecmp argv0 "reset" =? 0 then
        let s := upd_game (set_score 0) s in
        Some (Game_Log (game_id (game s)) "Scores reset" s)
      else Some (Game_Log (game_id (game s)) "command not supported" s)
  end.

(** [Play] *)
Definition Play (s : state) : state :=
  let s := Game_ClearScreen s in
  let s := Game_DrawRect 0 0 MAP_WIDTH MAP_HEIGHT s in
  let s := for_ (range 0 (MAP_WIDTH - 1)) (fun i s =>
             for_ (range 0 (MAP_HEIGHT - 1)) (fun j s => wr i j 0 s) s) s in
  let s := upd_game (set_x 1) s in
  let s := upd_game (set_y (MAP_HEIGHT / 2)) s in
  let s := upd_game (set_c ">"%char) s in
  let s := upd_game (set_score 0) s in
  let s := upd_game (set_shotsFired 0) s in
  let s := upd_game (set_health 3) s in
  let s := upd_game (set_shotCooldown 6) s in
  let s := Game_SetColor ForegroundCyan s in
  let s := Game_CharXY (game_c (game s)) (game_x (game s)) (game_y (game s)) s in
  let s := Game_SetColor ForegroundWhite s in
  let s := Game_RegisterPlayer1Receiver s in
  let s := Game_HideCursor s in
  let s := UpdateScore s in
  let s := UpdateHealth s in
  let s := UpdateShotCooldown s in
  let s := UpdateDifficulty s in
  let s := Task_Schedule T_GenerateAndShift None 500 1000 s in
  Task_Schedule T_IncreaseScore None 2500 2500 s.

(** [StephenGame_Init]; [id] is what the host's [Game_Register] returns. *)
Definition StephenGame_Init (id : Z) (s : state) : state :=
  let s := emit (C_Register "FLY1" "space pilot") s in
  let s := upd_game (fun g => mk_game (game_x g) (game_y g) (game_c g)
             (game_health g) (game_shotCooldown g) (game_score g)
             (game_shotsFired g) (u8 id)) s in
  emit (C_RegisterCallback (game_id (game s))) s.

(** ** Executions *)

(** The statics as the C start-up code leaves them: everything zero except
    [asteroidSpawnProbability].  [adj] is the content of the memory that
    follows the array [asteroids]; the source does not determine it. *)
Definition boot (adj : list Z) : state :=
  mk_state (mk_game 0 0 zero 0 0 0 0 0)
           (repeat 0 (Z.to_nat ((MAP_WIDTH - 1) * (MAP_HEIGHT - 1))) ++ adj)
           (repeat idle_shot (Z.to_nat MAX_SHOTS))
           0 STARTING_DIFFICULTY [] false [] [].

(** What can happen next: a host command, a received byte, or the scheduler
    running one of the tasks it holds.  [rnd] feeds [random_int] when the
    task is [GenerateAndShift]. *)
Inductive event :=
| EPlay
| EHelp
| ECallback (argc : Z) (argv : list string)
| EKey (c : ascii)
| ETask (fn : task_fn) (arg : option Z) (rnd : Z -> Z * Z).

(** Modelled from the spec: the scheduler runs one held task to completion
    at a time; a one-shot (or queued) task leaves the list when it runs, a
    periodic one stays until removed.  Which held task runs next depends on
    timing, which is not modelled: any held task may be the next one. *)
Fixpoint take_task (fn : task_fn) (arg : option Z) (ts : list task)
    : option (list task) :=
  match ts with
  | [] => None
  | t :: rest =>
      if same_task fn arg t
      then Some (if t_period t =? 0 then rest else t :: rest)
      else option_map (cons t) (take_task fn arg rest)
  end.

Definition run_task (fn : task_fn) (arg : option Z) (rnd : Z -> Z * Z)
    (s : state) : state :=
  match fn with
  | T_GenerateAndShift => GenerateAndShift rnd s
  | T_IncreaseScore => IncreaseScore s
  | T_UpdateScore => UpdateScore s
  | T_UpdateHealth => UpdateHealth s
  | T_UpdateShotCooldown => UpdateShotCooldown s
  | T_UpdateDifficulty => UpdateDifficulty s
  | T_ResetScreenColor => ResetScreenColor s
  | T_MoveRightShot => match arg with Some k => MoveRightShot k s | None => s end
  | T_DecreaseCooldown => DecreaseCooldown s
  end.

(** [None]: the event cannot occur in [s] (receiver not registered, task
    not held) or the callback reads an argument that is not there. *)
Definition step (e : event) (s : state) : option state :=
  match e with
  | EPlay => Some (Play s)
  | EHelp => Some (Help s)
  | ECallback argc argv => Callback argc argv s
  | EKey c => if receiver s then Some (Receiver c s) else None
  | ETask fn arg rnd =>
      match take_task fn arg (tasks s) with
      | Some ts => Some (run_task fn arg rnd (set_tasks ts s))
      | None => None
      end
  end.

Fixpoint run (es : list event) (s : state) : option state :=
  match es with
  | [] => Some s
  | e :: rest => match step e s with Some s' => run rest s' | None => None end
  end.

Inductive reachable : state -> Prop :=
| reach_init : forall id adj, reachable (StephenGame_Init id (boot adj))
| reach_step : forall e s s', reachable s -> step e s = Some s' -> reachable s'.

(** Number of [Game_GameOver] calls made so far. *)
Definition gameovers (s : state) : Z :=
  Z.of_nat (List.length (filter (fun c => match c with C_GameOver => true | _ => false end) (io s))).

(** Draws for [GenerateAsteroidColumn]: an 'o' asteroid in every row, and none. *)
Definition rnd_all : Z -> Z * Z := fun _ => (1, 1).
Definition rnd_none : Z -> Z * Z := fun _ => (2, 2).

Definition tick (fn : task_fn) : event := ETask fn None rnd_none.
Definition keys (c : ascii) (n : nat) : list event := repeat (EKey c) n.

(** ** What the grid and movement code can change *)

(** Tasks started by a collision of the ship. *)
Definition ship_task (t : task) : Prop :=
  t_fn t = T_UpdateHealth \/ t_fn t = T_ResetScreenColor.

(** [frame s0 s]: [s] differs from [s0] at most in the grid, the ship's
    position, the terminal trace (no [Game_GameOver] call), a health that
    did not increase, and collision tasks appended to the scheduler. *)
Record frame (s0 s : state) : Prop := mk_frame {
  fr_shots : shots s = shots s0;
  fr_cd : game_shotCooldown (game s) = game_shotCooldown (game s0);
  fr_score : game_score (game s) = game_score (game s0);
  fr_fired : game_shotsFired (game s) = game_shotsFired (game s0);
  fr_prob : asteroidSpawnProbability s = asteroidSpawnProbability s0;
  fr_rech : gRechargingWeapon s = gRechargingWeapon s0;
  fr_recv : receiver s = receiver s0;
  fr_le : game_health (game s) <= game_health (game s0);
  fr_nonneg : 0 <= game_health (game s0) -> 0 <= game_health (game s);
  fr_go : gameovers s = gameovers s0;
  fr_tasks : exists extra, tasks s = tasks s0 ++ extra /\ Forall ship_task extra
}.

Definition quiet (c : call) : Prop :=
  match c with C_GameOver => False | _ => True end.

(** ** The invariant of the game state *)

(** The pool and the scheduler agree: a slot's status is 0 or 1 and equals
    the number of advance-tasks held for it; every advance-task is
    periodic and points into the pool. *)
Record pool_ok (sh : list char_object_t) (ts : list task) : Prop := mk_pool_ok {
  pool_len : List.length sh = Z.to_nat MAX_SHOTS;
  pool_status : forall k, 0 <= k < MAX_SHOTS ->
    shot_status (nth (Z.to_nat k) sh idle_shot) = 0 \/
    shot_status (nth (Z.to_nat k) sh idle_shot) = 1;
  pool_count : forall k, 0 <= k < MAX_SHOTS ->
    count_task T_MoveRightShot (Some k) ts =
    shot_status (nth (Z.to_nat k) sh idle_shot);
  pool_tasks : forall t, In t ts -> t_fn t = T_MoveRightShot ->
    t_period t <> 0 /\ exists k, t_arg t = Some k /\ 0 <= k < MAX_SHOTS
}.

Record Inv (s : state) : Prop := mk_Inv {
  inv_health : 0 <= game_health (game s) <= 3;
  inv_cd : 0 <= game_shotCooldown (game s) <= 6;
  inv_prob : 14 <= asteroidSpawnProbability s <= 24;
  inv_pool : pool_ok (shots s) (tasks s)
}.

(** [ts'] holds the same advance-tasks as [ts]. *)
Definition same_mrs (ts ts' : list task) : Prop :=
  (forall a, count_task T_MoveRightShot a ts' = count_task T_MoveRightShot a ts)
  /\ (forall t, In t ts' -> t_fn t = T_MoveRightShot -> In t ts).

(** ** Concrete runs used below *)

(** The game after start-up, with 18 zero bytes behind the grid (enough
    for every subscript the code forms). *)
Definition demo_boot : state := StephenGame_Init 1 (boot (repeat 0 18%nat)).

Definition demo_play : state := Play demo_boot.

(** ** Weapon cooldown *)

Definition cooldown (s : state) : Z := game_shotCooldown (game s).

Definition idle_slot (s : state) (k : Z) : Prop :=
  0 <= k < MAX_SHOTS /\ shot_status (shot_at s k) = 0.

(** ** Ship movement *)

Inductive move := MLeft | MRight | MUp | MDown.

Definition do_move (m : move) : state -> state :=
  match m with
  | MLeft => MoveLeft
  | MRight => MoveRight
  | MUp => MoveUp
  | MDown => MoveDown
  end.

Definition do_moves (ms : list move) (s : state) : state :=
  fold_left (fun s m => do_move m s) ms s.

(** The cell a command would take the ship to. *)
Definition target (m : move) (s : state) : Z * Z :=
  match m with
  | MLeft => (game_x (game s) - 1, game_y (game s))
  | MRight => (game_x (game s) + 1, game_y (game s))
  | MUp => (game_x (game s), game_y (game s) - 1)
  | MDown => (game_x (game s), game_y (game s) + 1)
  end.

(** [Play] draws the walls with [Game_DrawRect(0, 0, MAP_WIDTH, MAP_HEIGHT)]:
    they lie on columns 0 and [MAP_WIDTH] and on rows 0 and [MAP_HEIGHT].
    A cell is interior when it is strictly between them. *)
Definition interior_cell (p : Z * Z) : Prop :=
  0 < fst p < MAP_WIDTH /\ 0 < snd p < MAP_HEIGHT.

Definition ship (s : state) : Z * Z := (game_x (game s), game_y (game s)).

(** ** Slot allocation in [Shoot] *)

(** First-fit as the specification words it: the lowest-indexed slot
    whose status is Idle. *)
Definition first_idle (s : state) : option Z :=
  find (fun i => shot_status (shot_at s i) =? 0) (range 0 MAX_SHOTS).

(** [k] is the last idle slot of the pool. *)
Definition last_idle (s : state) (k : Z) : Prop :=
  idle_slot s k /\ forall j, k < j < MAX_SHOTS -> shot_status (shot_at s j) <> 0.

(** ** Round over *)

(** Slot [k] is idle and no advance-task is held for it. *)
Definition released (k : Z) (s : state) : Prop :=
  count_task T_MoveRightShot (Some k) (tasks s) = 0 /\ shot_status (shot_at s k) = 0.

(** A round in which the player fires once at the start, flies to column
    57 and is hit three times there; [GameOver] runs at the first
    [UpdateHealth] that sees health 0. *)
Definition round_with_shot : list event :=
  [EPlay; EKey " "; ETask T_GenerateAndShift None rnd_all]
  ++ keys "d" 56 ++ [EKey "s"; EKey "s"; tick T_UpdateHealth].

(** ** The shot pool and its advance-tasks *)

Definition active_count (s : state) : Z :=
  Z.of_nat (List.length (filter (fun o => shot_status o =? 1) (shots s))).

Definition advance_tasks (s : state) (k : Z) : Z :=
  count_task T_MoveRightShot (Some k) (tasks s).

(** The state right after the first shot of a round. *)
Definition demo_shot : state := Receiver " " demo_play.

(** Tasks whose bodies test for collisions. *)
Definition collider (fn : task_fn) : Prop :=
  fn = T_GenerateAndShift \/ fn = T_MoveRightShot.

(** [calm s0 s]: going from [s0] to [s] kept the health, did not register
    the receiver and scheduled neither the spawn/shift task nor an
    advance-task. *)
Record calm (s0 s : state) : Prop := mk_calm {
  calm_health : game_health (game s) = game_health (game s0);
  calm_recv : receiver s0 = false -> receiver s = false;
  calm_gs : forall fn a, collider fn ->
              count_task fn a (tasks s) <= count_task fn a (tasks s0)
}.

(** Spawn/shift tasks are only ever scheduled with a null argument. *)
Definition gs_null (s : state) : Prop :=
  forall k, count_task T_GenerateAndShift (Some k) (tasks s) = 0.

(** ** Health and the end of a round *)

Definition health (s : state) : Z := game_health (game s).

(** No key is received and no collision-testing task is held. *)
Definition round_over (s : state) : Prop :=
  receiver s = false /\
  forall fn a, collider fn -> count_task fn a (tasks s) = 0.

(** One round (a single Play): the ship flies to column 57 into a full
    column of asteroids; the first hit is displayed, the next two happen
    before the scheduler runs the two [UpdateHealth] they queued. *)
Definition round_two_pending : list event :=
  [EPlay; ETask T_GenerateAndShift None rnd_all]
  ++ keys "d" 56
  ++ [tick T_UpdateHealth; EKey "s"; EKey "s"; tick T_UpdateHealth; tick T_UpdateHealth].

(** ** Difficulty *)

Definition score (s : state) : Z := game_score (game s).

(** The scores tested by [UpdateScore] in stephen_game.c, in order. *)
Definition thresholds : list Z := [25; 35; 45; 70; 90; 100; 110; 120; 130; 150].

(** The second copy of the file (unnamed/part_000) tests other scores. *)
Definition thresholds_part_000 : list Z := [35; 55; 65; 80; 100; 120; 140; 160; 180; 200].

(** [UpdateScore] of unnamed/part_000: the same body with its own table. *)
Definition UpdateScore_part_000 (s : state) : state :=
  let s := Game_CharXY CR 0 (MAP_HEIGHT + 1) s in
  let s := Game_Printf "Score: %d" [game_score (game s)] s in
  if game_score (game s) =? 35 then set_difficulty 1 s
  else if game_score (game s) =? 55 then set_difficulty 2 s
  else if game_score (game s) =? 65 then set_difficulty 3 s
  else if game_score (game s) =? 80 then set_difficulty 4 s
  else if game_score (game s) =? 100 then set_difficulty 5 s
  else if game_score (game s) =? 120 then set_difficulty 6 s
  else if game_score (game s) =? 140 then set_difficulty 7 s
  else if game_score (game s) =? 160 then set_difficulty 8 s
  else if game_score (game s) =? 180 then set_difficulty 9 s
  else if game_score (game s) =? 200 then set_difficulty 10 s
  else s.

(** The if-chain over a table: the [k]-th test sets the difficulty to [k]. *)
Fixpoint chain (k : Z) (table : list Z) (s : state) : state :=
  match table with
  | [] => s
  | t :: rest =>
      if game_score (game s) =? t then set_difficulty k s else chain (k + 1) rest s
  end.

Definition UpdateScore_with (table : list Z) (s : state) : state :=
  chain 1 table
    (Game_Printf "Score: %d" [game_score (game s)] (Game_CharXY CR 0 (MAP_HEIGHT + 1) s)).

(** Number of entries of the table that the score has reached. *)
Definition tier_of (table : list Z) (sc : Z) : Z :=
  Z.of_nat (List.length (filter (fun t => t <=? sc) table)).

Definition tier : Z -> Z := tier_of thresholds.

Definition is_threshold (table : list Z) (sc : Z) : bool := existsb (Z.eqb sc) table.

Fixpoint ascending (l : list Z) : bool :=
  match l with
  | [] => true
  | t :: rest => forallb (fun u => t <? u) rest && ascending rest
  end.

Definition probability (s : state) : Z := asteroidSpawnProbability s.

(** One survival tick followed by the display update it queues. *)
Definition score_tick (upd : state -> state) (s : state) : state := upd (IncreaseScore s).

Definition ticks (upd : state -> state) (n : nat) (s : state) : state :=
  Nat.iter n (score_tick upd) s.

(** [n] survival ticks, each followed at once by its display update. *)
Definition score_ticks (n : nat) : list event :=
  List.concat (repeat [tick T_IncreaseScore; tick T_UpdateScore] n).

(** A round in which the score goes from 24 to 26 before the scheduler
    runs a queued [UpdateScore]: the survival tick and the advance of a
    shot that hits an asteroid (at column 57, fired from column 55) are
    both run first, then the two queued display updates. *)
Definition round_skipping_25 : list event :=
  [EPlay; ETask T_GenerateAndShift None rnd_all]
  ++ keys "d" 54 ++ score_ticks 24
  ++ [EKey " "; tick T_IncreaseScore; ETask T_MoveRightShot (Some 4) rnd_none;
      tick T_UpdateScore; tick T_UpdateScore].

(** Three survival ticks into a round: the score is 3. *)
Definition demo_scored : state := ticks UpdateScore 3 demo_play.

(** A first round that reaches score 25 and ends with three hits at
    column 57. *)
Definition first_round : list event :=
  [EPlay; ETask T_GenerateAndShift None rnd_all]
  ++ score_ticks 25 ++ [tick T_UpdateDifficulty] ++ keys "d" 56
  ++ [tick T_UpdateHealth; EKey "s"; tick T_UpdateHealth; EKey "s"; tick T_UpdateHealth].

(** The subscript pair [(c, r)] was used out of bounds on the way to [s]. *)
Definition faulted (c r : Z) (s : state) : bool :=
  existsb (fun p => (fst p =? c) && (snd p =? r)) (faults s).

(** ** Vocabulary of the further properties *)

(** The byte that the subscripts [asteroids[c][r]] designate. *)
Definition cell (s : state) (c r : Z) : Z := peek (asteroids s) (offset c r).

(** The memory image covers the array and the byte that follows it (the
    one [asteroids[58][17]] designates, which the loops write). *)
Definition image_ok (s : state) : Prop :=
  (MAP_WIDTH - 1) * (MAP_HEIGHT - 1) < Z.of_nat (List.length (asteroids s)).

(** What [GenerateAsteroidColumn] stores in row [i] for the draws [rnd]. *)
Definition spawned (rnd : Z -> Z * Z) (i : Z) : Z :=
  if u8 (fst (rnd i)) =? 1 then (if u8 (snd (rnd i)) =? 1 then 1 else 2) else 0.

(** What [ShiftAsteroidColumns] leaves in the cell [(column, i)]: the value
    of its right neighbour, or 0 when that value is an obstacle arriving on
    the ship. *)
Definition shifted (s : state) (column i : Z) : Z :=
  let v := cell s (column + 1) i in
  if ship_at s column i && ((v =? 1) || (v =? 2)) then 0 else v.

(** The shift seen on the memory image: the bytes from offset 18 up to,
    not including, [p] are done, the rest is as in [s0]. *)
Definition swept (s0 s : state) (p : Z) : Prop :=
  ship s = ship s0 /\
  List.length (asteroids s) = List.length (asteroids s0) /\
  (forall c r, 1 <= c <= MAX_COLUMNS -> 1 <= r < MAP_HEIGHT -> offset c r < p ->
     cell s c r = shifted s0 c r) /\
  (forall o, 0 <= o -> o < offset 1 1 \/ p <= o ->
     peek (asteroids s) o = peek (asteroids s0) o).

(** The spawn loop seen on the memory image: rows 1 to [j - 1] of the
    trailing column are filled, the rest is as in [s0]. *)
Definition grown (rnd : Z -> Z * Z) (s0 s : state) (j : Z) : Prop :=
  game s = game s0 /\ shots s = shots s0 /\ tasks s = tasks s0 /\
  List.length (asteroids s) = List.length (asteroids s0) /\
  (forall r, 1 <= r < j -> cell s MAX_COLUMNS r = spawned rnd r) /\
  (forall o, 0 <= o -> o < offset MAX_COLUMNS 1 \/ offset MAX_COLUMNS j <= o ->
     peek (asteroids s) o = peek (asteroids s0) o).

(** The clearing loop of [Play] seen on the memory image: the bytes before
    offset [p] are 0, the rest is as in [s0]; no subscript was out of
    bounds. *)
Definition cleared (s0 s : state) (p : Z) : Prop :=
  faults s = faults s0 /\
  List.length (asteroids s) = List.length (asteroids s0) /\
  (forall o, 0 <= o < p -> peek (asteroids s) o = 0) /\
  (forall o, p <= o -> peek (asteroids s) o = peek (asteroids s0) o).

(** The array itself lies within the memory image. *)
Definition array_ok (s : state) : Prop :=
  (MAP_WIDTH - 1) * (MAP_HEIGHT - 1) <= Z.of_nat (List.length (asteroids s)).

(** ** The recharge task *)

Definition is_recharge (t : task) : bool := task_fn_eqb (t_fn t) T_DecreaseCooldown.

(** The recharge tasks that a scheduler list holds, in order. *)
Definition recharge_tasks (ts : list task) : list task := filter is_recharge ts.

(** The task that [Shoot] schedules:
    [Task_Schedule(DecreaseCooldown, 0, RECHARGE_RATE, RECHARGE_RATE)]. *)
Definition recharge_task : task :=
  mk_task T_DecreaseCooldown None RECHARGE_RATE RECHARGE_RATE.

(** [s] has the flag, the charge and the recharge tasks of [s0]. *)
Record same_recharge (s0 s : state) : Prop := mk_same_recharge {
  sr_flag : gRechargingWeapon s = gRechargingWeapon s0;
  sr_cd : game_shotCooldown (game s) = game_shotCooldown (game s0);
  sr_tasks : recharge_tasks (tasks s) = recharge_tasks (tasks s0)
}.

(** The flag [gRechargingWeapon] and the scheduler agree. *)
Record recharge_ok (s : state) : Prop := mk_recharge_ok {
  ro_tasks : recharge_tasks (tasks s) =
             if gRechargingWeapon s =? 0 then [] else [recharge_task];
  ro_flag : gRechargingWeapon s = 0 \/ gRechargingWeapon s = 1
}.

(** A weapon that is not fully charged is recharging. *)
Definition live (s : state) : Prop :=
  game_shotCooldown (game s) < 6 -> gRechargingWeapon s = 1.

(** No round has been started yet. *)
Definition unplayed (s : state) : Prop := receiver s = false /\ tasks s = [].

(** ** Collisions of the ship *)

(** [if (game.health > 0) game.health--;] *)
Definition hurt (g : stephen_game_t) : stephen_game_t :=
  if 0 <? game_health g then set_health (u8 (game_health g - 1)) g else g.

(** What a collision of the ship hands to the scheduler:
    [Task_Queue(UpdateHealth, 0); Task_Schedule(ResetScreenColor, 0, 250, 0);] *)
Definition collision_tasks : list task :=
  [mk_task T_UpdateHealth None 0 0; mk_task T_ResetScreenColor None 250 0].

(** [s'] differs from [s] at most in the terminal trace and the log of
    out-of-bounds subscripts. *)
Definition alike (s s' : state) : Prop :=
  asteroids s' = asteroids s /\ game s' = game s /\ tasks s' = tasks s /\
  shots s' = shots s.

(** An obstacle is about to move into the ship's cell: the ship is in the
    range of the shift loops and its right neighbour holds 1 or 2. *)
Definition struck (s : state) : bool :=
  (1 <=? game_x (game s)) && (game_x (game s) <=? MAX_COLUMNS) &&
  (1 <=? game_y (game s)) && (game_y (game s) <? MAP_HEIGHT) &&
  ((cell s (game_x (game s) + 1) (game_y (game s)) =? 1) ||
   (cell s (game_x (game s) + 1) (game_y (game s)) =? 2)).

(** The shift loops seen from the ship: once the sweep has passed the
    ship's cell, the ship has been hit if an obstacle was arriving. *)
Definition bumped (s0 s : state) (p : Z) : Prop :=
  let hit := (offset (game_x (game s0)) (game_y (game s0)) <? p) && struck s0 in
  game s = (if hit then hurt (game s0) else game s0) /\
  tasks s = tasks s0 ++ (if hit then collision_tasks else []) /\
  shots s = shots s0.

(** What moves into the ship's cell during one spawn/shift tick: the value
    just spawned when the ship is next to the trailing column, otherwise
    what its right neighbour held. *)
Definition arriving (rnd : Z -> Z * Z) (s : state) : Z :=
  if game_x (game s) =? MAX_COLUMNS - 1 then spawned rnd (game_y (game s))
  else cell s (game_x (game s) + 1) (game_y (game s)).

Definition tick_hit (rnd : Z -> Z * Z) (s : state) : bool :=
  (1 <=? game_x (game s)) && (game_x (game s) <=? MAX_COLUMNS) &&
  (1 <=? game_y (game s)) && (game_y (game s) <? MAP_HEIGHT) &&
  ((arriving rnd s =? 1) || (arriving rnd s =? 2)).

(** ** Moves of the ship *)

(** The guard of each move function. *)
Definition accepted (m : move) (s : state) : bool :=
  match m with
  | MLeft => 1 <? game_x (game s)
  | MRight => game_x (game s) <? MAP_WIDTH - 3
  | MUp => 1 <? game_y (game s)
  | MDown => game_y (game s) <? MAP_HEIGHT - 1
  end.

(** The game record once the coordinate has been updated. *)
Definition landed (m : move) (g : stephen_game_t) : stephen_game_t :=
  match m with
  | MLeft => set_x (game_x g - 1) g
  | MRight => set_x (game_x g + 1) g
  | MUp => set_y (game_y g - 1) g
  | MDown => set_y (game_y g + 1) g
  end.

(** ** The host sub-command, on words *)

(** A C string holds no NUL before its terminator. *)
Fixpoint nul_free (a : string) : bool :=
  match a with
  | EmptyString => true
  | String c a' => negb (Nat.eqb (nat_of_ascii c) 0) && nul_free a'
  end.

(** The word in lower case, character by character. *)
Fixpoint lower (a : string) : list Z :=
  match a with
  | EmptyString => []
  | String c a' => tolower c :: lower a'
  end.

(** ** What the terminal shows *)

(** The text of the [Game_Printf] calls of a trace, oldest first (the trace
    lists the most recent call first). *)
Fixpoint printed (tr : list call) : string :=
  match tr with
  | [] => EmptyString
  | C_Printf fmt _ :: rest => String.append (printed rest) fmt
  | _ :: rest => printed rest
  end.

(** A gauge of width 6 showing [n] units. *)
Definition gauge (n : Z) : string :=
  string_of_list_ascii (repeat "+"%char (Z.to_nat n) ++ repeat " "%char (Z.to_nat (6 - n))).

(** ** main.c: the two LEDs of the board *)

(** Bit masks of msp430.h. *)
Definition BIT0 : Z := 1.
Definition BIT7 : Z := 128.

Definition GPIO_LED1 : Z := BIT0.   (* P1.0 *)
Definition GPIO_LED2 : Z := BIT7.   (* P4.7 *)

(** The 8-bit port registers that main.c writes, and the messages handed
    to [LogMsg] (most recent first). *)
Record board := mk_board {
  P1OUT : Z;
  P1DIR : Z;
  P4OUT : Z;
  P4DIR : Z;
  sys_log : list string
}.

Definition set_P1OUT v b := mk_board v (P1DIR b) (P4OUT b) (P4DIR b) (sys_log b).
Definition set_P1DIR v b := mk_board (P1OUT b) v (P4OUT b) (P4DIR b) (sys_log b).
Definition set_P4OUT v b := mk_board (P1OUT b) (P1DIR b) v (P4DIR b) (sys_log b).
Definition set_P4DIR v b := mk_board (P1OUT b) (P1DIR b) (P4OUT b) v (sys_log b).

Definition LogMsg (msg : string) (b : board) : board :=
  mk_board (P1OUT b) (P1DIR b) (P4OUT b) (P4DIR b) (msg :: sys_log b).

(** [InitGPIO] *)
Definition InitGPIO (b : board) : board :=
  let b := set_P1DIR (u8 (Z.lor (P1DIR b) GPIO_LED1)) b in
  let b := set_P1OUT (u8 (Z.land (P1OUT b) (Z.lnot GPIO_LED1))) b in
  let b := set_P4DIR (u8 (Z.lor (P4DIR b) GPIO_LED2)) b in
  set_P4OUT (u8 (Z.land (P4OUT b) (Z.lnot GPIO_LED2))) b.

(** [BlinkLED(type)].  The parameter is a [uint8_t]: the argument is
    converted to 8 bits at the call. *)
Definition BlinkLED (type : Z) (b : board) : board :=
  let type := u8 type in
  if type =? GPIO_LED1 then
    let b := set_P1OUT (u8 (Z.lxor (P1OUT b) GPIO_LED1)) b in
    LogMsg "[BlinkLED] LED1 blinked" b
  else if type =? GPIO_LED2 then
    let b := set_P4OUT (u8 (Z.lxor (P4OUT b) GPIO_LED2)) b in
    LogMsg "[BlinkLED] LED2 blinked" b
  else b.

(** The registers hold 8-bit values. *)
Definition byte (z : Z) : Prop := 0 <= z < 256.

Definition board_ok (b : board) : Prop :=
  byte (P1OUT b) /\ byte (P1DIR b) /\ byte (P4OUT b) /\ byte (P4DIR b).

(** Bit [n] of the register value [z]. *)
Definition pin (z n : Z) : bool := Z.testbit z n.

(** The board after reset, LEDs lit and pins as inputs except the LEDs'
    neighbours (an arbitrary register content used below). *)
Definition demo_board : board := mk_board 171 84 255 0 [].

(** The cell a shot moves onto when it advances: [o->x++] is done on a
    [uint8_t], then [asteroids[o->x][o->y]] is tested. *)
Definition cell_ahead (s : state) (k : Z) : Z :=
  cell s (u8 (shot_x (shot_at s k) + 1)) (shot_y (shot_at s k)).

(** ** Health lost and the display updates that follow *)

(** Number of [UpdateHealth] runs the scheduler holds. *)
Definition pending_health (s : state) : Z :=
  count_task T_UpdateHealth None (tasks s).

(** [owed s0 s]: going from [s0] to [s] left the receiver as it was,
    removed no pending [UpdateHealth], and (for a health that fits a
    [uint8_t]) queued at least one [UpdateHealth] per health point lost. *)
Record owed (s0 s : state) : Prop := mk_owed {
  ow_recv : receiver s = receiver s0;
  ow_pending : pending_health s0 <= pending_health s;
  ow_health : health s0 <= 256 ->
              health s <= 256 /\
              health s0 - health s <= pending_health s - pending_health s0
}.

(** * Properties *)

(** ** Lists, counting and the scheduler *)

Lemma put_nat_length {A} (l : list A) n v : List.length (put_nat l n v) = List.length l.
Proof.
  revert n; induction l as [|a l IH]; intros [|n]; simpl; auto.
Qed.

Lemma put_nat_nth_same {A} (l : list A) n v d :
  (n < List.length l)%nat -> nth n (put_nat l n v) d = v.
Proof.
  revert n; induction l as [|a l IH]; intros [|n] H; simpl in *; try lia; auto.
  apply IH; lia.
Qed.

Lemma put_nat_nth_other {A} (l : list A) n m v d :
  n <> m -> nth m (put_nat l n v) d = nth m l d.
Proof.
  revert n m; induction l as [|a l IH]; intros [|n] [|m] H; simpl; auto; try congruence.
Qed.

Lemma task_fn_eqb_eq a b : task_fn_eqb a b = true <-> a = b.
Proof. destruct a, b; simpl; split; congruence. Qed.

Lemma arg_eqb_eq a b : arg_eqb a b = true <-> a = b.
Proof.
  destruct a as [i|], b as [j|]; simpl; split; try congruence.
  - intros H; apply Z.eqb_eq in H; congruence.
  - intros H; inversion H; apply Z.eqb_refl.
Qed.

Lemma count_task_nil fn arg : count_task fn arg [] = 0.
Proof. reflexivity. Qed.

Lemma count_task_cons fn arg t ts :
  count_task fn arg (t :: ts) =
  (if same_task fn arg t then 1 else 0) + count_task fn arg ts.
Proof.
  unfold count_task. cbn [filter].
  destruct (same_task fn arg t); cbn [List.length]; lia.
Qed.

Lemma count_task_app fn arg ts us :
  count_task fn arg (ts ++ us) = count_task fn arg ts + count_task fn arg us.
Proof.
  unfold count_task. rewrite filter_app, length_app. lia.
Qed.

Lemma count_task_nonneg fn arg ts : 0 <= count_task fn arg ts.
Proof. unfold count_task; lia. Qed.

(** Removing [(gn, b)] leaves no [(gn, b)] and does not touch the count of
    any other identity. *)
Lemma count_task_remove fn a gn b ts :
  count_task fn a (filter (fun t => negb (same_task gn b t)) ts) =
  if task_fn_eqb fn gn && arg_eqb a b then 0 else count_task fn a ts.
Proof.
  induction ts as [|t ts IH].
  - simpl. destruct (_ && _); reflexivity.
  - simpl filter. destruct (same_task gn b t) eqn:E; simpl negb; cbv iota.
    + rewrite IH, (count_task_cons fn a t ts).
      destruct (task_fn_eqb fn gn && arg_eqb a b) eqn:F; [reflexivity|].
      replace (same_task fn a t) with false; [lia|].
      symmetry. unfold same_task in *.
      apply andb_true_iff in E as [E1 E2].
      apply task_fn_eqb_eq in E1. apply arg_eqb_eq in E2. subst gn b.
      exact F.
    + rewrite !count_task_cons, IH.
      destruct (task_fn_eqb fn gn && arg_eqb a b) eqn:F; [|reflexivity].
      replace (same_task fn a t) with false; [lia|].
      symmetry. unfold same_task in *.
      apply andb_true_iff in F as [F1 F2].
      apply task_fn_eqb_eq in F1. apply arg_eqb_eq in F2. subst gn b.
      exact E.
Qed.

(** Cancelling a task that is not held changes nothing. *)
Lemma filter_absent fn arg ts :
  count_task fn arg ts = 0 ->
  filter (fun t => negb (same_task fn arg t)) ts = ts.
Proof.
  induction ts as [|t ts IH]; [reflexivity|].
  rewrite count_task_cons. pose proof (count_task_nonneg fn arg ts).
  cbn [filter]. destruct (same_task fn arg t); cbn [negb]; intros; [lia|].
  f_equal. apply IH. lia.
Qed.

Lemma take_task_count fn arg ts ts' :
  take_task fn arg ts = Some ts' -> 1 <= count_task fn arg ts.
Proof.
  revert ts'; induction ts as [|t ts IH]; intros ts'; simpl; [discriminate|].
  rewrite count_task_cons. pose proof (count_task_nonneg fn arg ts).
  destruct (same_task fn arg t); [lia|].
  destruct (take_task fn arg ts); simpl; [|discriminate].
  specialize (IH _ eq_refl). lia.
Qed.

(** Running a task changes the count of another identity at most by
    dropping the one-shot entry that ran. *)
Lemma take_task_other fn arg gn b ts ts' :
  take_task fn arg ts = Some ts' ->
  task_fn_eqb gn fn && arg_eqb b arg = false ->
  count_task gn b ts' = count_task gn b ts.
Proof.
  intros H D. revert ts' H; induction ts as [|t ts IH]; intros ts'; simpl; [discriminate|].
  destruct (same_task fn arg t) eqn:E.
  - intros H; inversion H; subst ts'; clear H.
    assert (same_task gn b t = false) as N.
    { unfold same_task in *.
      apply andb_true_iff in E as [E1 E2].
      apply task_fn_eqb_eq in E1. apply arg_eqb_eq in E2. subst fn arg. exact D. }
    destruct (t_period t =? 0); rewrite ?count_task_cons, ?N; lia.
  - destruct (take_task fn arg ts) as [us|]; simpl; [|discriminate].
    intros H; inversion H; subst ts'.
    rewrite !count_task_cons, (IH us eq_refl). reflexivity.
Qed.

(** A periodic task stays in the list when it runs. *)
Lemma take_task_periodic fn arg ts ts' :
  take_task fn arg ts = Some ts' ->
  (forall t, In t ts -> same_task fn arg t = true -> t_period t <> 0) ->
  ts' = ts.
Proof.
  revert ts'; induction ts as [|t ts IH]; intros ts'; simpl; [discriminate|].
  intros H P. destruct (same_task fn arg t) eqn:E.
  - destruct (t_period t =? 0) eqn:Z0.
    + apply Z.eqb_eq in Z0. exfalso. apply (P t); auto.
    + congruence.
  - destruct (take_task fn arg ts) as [us|]; simpl in H; [|discriminate].
    inversion H. f_equal. apply IH; auto.
Qed.

Lemma take_task_In fn arg ts ts' t :
  take_task fn arg ts = Some ts' -> In t ts' -> In t ts.
Proof.
  revert ts'; induction ts as [|u ts IH]; intros ts'; simpl; [discriminate|].
  destruct (same_task fn arg u).
  - intros H I. destruct (t_period u =? 0); inversion H; subst; simpl in *; tauto.
  - destruct (take_task fn arg ts) as [us|]; simpl; [|discriminate].
    intros H I; inversion H; subst. simpl in I. destruct I as [->|I]; eauto.
Qed.

(** ** The grid and movement code stays within its frame *)

Lemma frame_refl s : frame s s.
Proof.
  constructor; try reflexivity; try lia; auto.
  exists []. rewrite app_nil_r. auto.
Qed.

Lemma frame_trans s0 s1 s2 : frame s0 s1 -> frame s1 s2 -> frame s0 s2.
Proof.
  intros [] []. constructor; try congruence; try lia; auto.
  destruct fr_tasks0 as (e0 & T0 & F0), fr_tasks1 as (e1 & T1 & F1).
  exists (e0 ++ e1). rewrite T1, T0, app_assoc. split; auto.
  apply Forall_app; auto.
Qed.

Lemma frame_emit s0 c s : quiet c -> frame s0 s -> frame s0 (emit c s).
Proof.
  intros Q F. apply frame_trans with s; auto.
  constructor; cbn; try reflexivity; try lia; auto.
  - unfold gameovers; cbn. destruct c; cbn in *; tauto.
  - exists []. rewrite app_nil_r. auto.
Qed.

Lemma frame_fault s0 c r s : frame s0 s -> frame s0 (fault c r s).
Proof.
  intros F. apply frame_trans with s; auto.
  constructor; cbn; try reflexivity; try lia; auto.
  exists []. rewrite app_nil_r. auto.
Qed.

Lemma frame_wr s0 c r v s : frame s0 s -> frame s0 (wr c r v s).
Proof.
  intros F. apply frame_trans with s; auto. unfold wr.
  destruct (in_bounds c r); constructor; cbn; try reflexivity; try lia; auto;
    exists []; rewrite app_nil_r; auto.
Qed.

Lemma rd_frame s0 c r s v s' : rd c r s = (v, s') -> frame s0 s -> frame s0 s'.
Proof.
  unfold rd. destruct (asteroids_get (asteroids s) c r); intros E F;
    inversion E; subst; auto using frame_fault.
Qed.

Lemma frame_task s0 fn arg d p s :
  fn = T_UpdateHealth \/ fn = T_ResetScreenColor ->
  frame s0 s -> frame s0 (Task_Schedule fn arg d p s).
Proof.
  intros Q F. apply frame_trans with s; auto.
  constructor; cbn; try reflexivity; try lia; auto.
  eexists. split; [reflexivity|]. constructor; auto.
Qed.

Lemma frame_hurt s0 s :
  0 < game_health (game s) -> frame s0 s ->
  frame s0 (upd_game (fun g => set_health (u8 (game_health g - 1)) g) s).
Proof.
  intros P F. apply frame_trans with s; auto.
  assert (0 <= u8 (game_health (game s) - 1) <= game_health (game s) - 1).
  { unfold u8. split; [apply Z.mod_pos_bound; lia | apply Z.mod_le; lia]. }
  constructor; cbn; try reflexivity; try lia; auto.
  exists []. rewrite app_nil_r. auto.
Qed.

Lemma frame_move s0 f s :
  (forall g, game_health (f g) = game_health g
             /\ game_shotCooldown (f g) = game_shotCooldown g
             /\ game_score (f g) = game_score g
             /\ game_shotsFired (f g) = game_shotsFired g) ->
  frame s0 s -> frame s0 (upd_game f s).
Proof.
  intros P F. apply frame_trans with s; auto.
  destruct (P (game s)) as (A & B & C & D).
  constructor; cbn; try congruence; try lia; auto.
  exists []. rewrite app_nil_r. auto.
Qed.

Ltac frame_tac :=
  repeat first
    [ assumption
    | apply frame_refl
    | apply frame_emit; [exact I|]
    | apply frame_wr
    | apply frame_task; [(left; reflexivity) || (right; reflexivity)|]
    | apply frame_hurt; [lia|]
    | apply frame_move; [intros; cbn; auto|]
    | match goal with
      | H : (0 <? _) = true |- _ => apply Z.ltb_lt in H
      | |- frame _ (if ?c then _ else _) => destruct c eqn:?
      | |- frame ?s0 (let '(_, _) := rd ?c ?r ?s in _) =>
          let v := fresh "v" in
          let s1 := fresh "s" in
          let E := fresh "E" in
          destruct (rd c r s) as [v s1] eqn:E;
          assert (frame s0 s1) by (apply (rd_frame s0 c r s v s1 E); frame_tac)
      end ].

Lemma for_frame body :
  (forall i s0 s, frame s0 s -> frame s0 (body i s)) ->
  forall idx s0 s, frame s0 s -> frame s0 (for_ idx body s).
Proof.
  intros B idx; induction idx as [|i idx IH]; intros s0 s F; simpl; auto.
Qed.

Lemma ship_hit_frame s0 cx cy s : frame s0 s -> frame s0 (ship_hit cx cy s).
Proof. intros F. unfold ship_hit. cbv zeta. frame_tac. Qed.

Lemma shift_cell_frame s0 column i s : frame s0 s -> frame s0 (shift_cell column i s).
Proof.
  intros F. unfold shift_cell. cbv zeta.
  frame_tac.
Qed.

Lemma ShiftAsteroidColumns_frame s0 s : frame s0 s -> frame s0 (ShiftAsteroidColumns s).
Proof.
  intros F. unfold ShiftAsteroidColumns.
  apply for_frame; auto. intros column s1 s2 F2.
  apply for_frame; auto. intros. apply shift_cell_frame; auto.
Qed.

Lemma GenerateAsteroidColumn_frame rnd s0 s :
  frame s0 s -> frame s0 (GenerateAsteroidColumn rnd s).
Proof.
  intros F. unfold GenerateAsteroidColumn.
  apply for_frame; auto. intros i s1 s2 F2. unfold generate_row. cbv zeta. frame_tac.
Qed.

Lemma GenerateAndShift_frame rnd s : frame s (GenerateAndShift rnd s).
Proof.
  unfold GenerateAndShift.
  apply ShiftAsteroidColumns_frame, GenerateAsteroidColumn_frame, frame_refl.
Qed.

Lemma ship_arrive_frame s0 s : frame s0 s -> frame s0 (ship_arrive s).
Proof.
  intros F. unfold ship_arrive. cbv zeta. frame_tac.
Qed.

Lemma MoveRight_frame s : frame s (MoveRight s).
Proof.
  unfold MoveRight. cbv zeta. destruct (_ <? _); [|apply frame_refl].
  apply ship_arrive_frame. frame_tac.
Qed.

Lemma MoveLeft_frame s : frame s (MoveLeft s).
Proof.
  unfold MoveLeft. cbv zeta. destruct (_ <? _); [|apply frame_refl].
  apply ship_arrive_frame. frame_tac.
Qed.

Lemma MoveDown_frame s : frame s (MoveDown s).
Proof.
  unfold MoveDown. cbv zeta. destruct (_ <? _); [|apply frame_refl].
  apply ship_arrive_frame. frame_tac.
Qed.

Lemma MoveUp_frame s : frame s (MoveUp s).
Proof.
  unfold MoveUp. cbv zeta. destruct (_ <? _); [|apply frame_refl].
  apply ship_arrive_frame. frame_tac.
Qed.

(** ** Pool and scheduler bookkeeping *)

Lemma same_mrs_refl ts : same_mrs ts ts.
Proof. split; auto. Qed.

Lemma same_mrs_trans a b c : same_mrs a b -> same_mrs b c -> same_mrs a c.
Proof.
  intros [A1 A2] [B1 B2]; split; intros.
  - rewrite B1; auto.
  - auto.
Qed.

Lemma same_mrs_app ts us :
  Forall (fun t => t_fn t <> T_MoveRightShot) us -> same_mrs ts (ts ++ us).
Proof.
  intros F; split.
  - intros a. rewrite count_task_app.
    assert (count_task T_MoveRightShot a us = 0) as ->; [|lia].
    induction F as [|t us N F IH]; [reflexivity|].
    rewrite count_task_cons, IH. unfold same_task.
    destruct (task_fn_eqb T_MoveRightShot (t_fn t)) eqn:E; [|reflexivity].
    apply task_fn_eqb_eq in E. congruence.
  - intros t I M. apply in_app_or in I as [I|I]; auto.
    rewrite Forall_forall in F. exfalso. exact (F t I M).
Qed.

Lemma same_mrs_filter fn arg ts :
  fn <> T_MoveRightShot ->
  same_mrs ts (filter (fun t => negb (same_task fn arg t)) ts).
Proof.
  intros N; split.
  - intros a. rewrite count_task_remove.
    destruct (task_fn_eqb T_MoveRightShot fn) eqn:E; [|reflexivity].
    apply task_fn_eqb_eq in E. congruence.
  - intros t I _. apply filter_In in I. tauto.
Qed.

Lemma same_mrs_take fn arg ts ts' :
  fn <> T_MoveRightShot -> take_task fn arg ts = Some ts' -> same_mrs ts ts'.
Proof.
  intros N H; split.
  - intros a. apply (take_task_other _ _ _ _ _ _ H).
    destruct (task_fn_eqb T_MoveRightShot fn) eqn:E; [|reflexivity].
    apply task_fn_eqb_eq in E. congruence.
  - intros t I _. eapply take_task_In; eauto.
Qed.

Lemma pool_ok_other sh ts ts' : same_mrs ts ts' -> pool_ok sh ts -> pool_ok sh ts'.
Proof.
  intros [C I] []. constructor; auto.
  intros k K. rewrite C. auto.
Qed.

Lemma to_nat_neq j k : 0 <= j -> 0 <= k -> j <> k -> Z.to_nat k <> Z.to_nat j.
Proof. lia. Qed.

(** Moving a shot: the slot keeps its status. *)
Lemma pool_ok_move sh ts k o :
  shot_status o = shot_status (nth (Z.to_nat k) sh idle_shot) ->
  pool_ok sh ts -> pool_ok (put_nat sh (Z.to_nat k) o) ts.
Proof.
  intros S [L St C T].
  assert (forall j, shot_status (nth (Z.to_nat j) (put_nat sh (Z.to_nat k) o) idle_shot)
                    = shot_status (nth (Z.to_nat j) sh idle_shot)) as E.
  { intros j. destruct (Nat.eq_dec (Z.to_nat k) (Z.to_nat j)) as [e|n].
    - rewrite <- e. destruct (Nat.lt_ge_cases (Z.to_nat k) (List.length sh)).
      + rewrite put_nat_nth_same; auto.
      + rewrite !nth_overflow; rewrite ?put_nat_length; auto.
    - rewrite put_nat_nth_other; auto. }
  constructor; auto.
  - rewrite put_nat_length; auto.
  - intros j J. rewrite E. auto.
  - intros j J. rewrite E. auto.
Qed.

(** Releasing slot [k]: status 0 and its advance-task cancelled. *)
Lemma pool_ok_release sh ts k o :
  0 <= k < MAX_SHOTS -> shot_status o = 0 ->
  pool_ok sh ts ->
  pool_ok (put_nat sh (Z.to_nat k) o)
          (filter (fun t => negb (same_task T_MoveRightShot (Some k) t)) ts).
Proof.
  intros K S [L St C T]. unfold MAX_SHOTS in *.
  constructor.
  - rewrite put_nat_length; auto.
  - intros j J. unfold MAX_SHOTS in J. destruct (Z.eq_dec j k) as [->|n].
    + rewrite put_nat_nth_same; [auto | lia].
    + rewrite put_nat_nth_other; [auto | lia].
  - intros j J. unfold MAX_SHOTS in J. rewrite count_task_remove. cbn [task_fn_eqb arg_eqb andb].
    destruct (Z.eqb_spec j k) as [->|n].
    + rewrite put_nat_nth_same; [auto | lia].
    + rewrite put_nat_nth_other; [auto | lia].
  - intros t I. apply filter_In in I. apply T. tauto.
Qed.

(** Allocating the idle slot [k]: status 1 and one periodic advance-task. *)
Lemma pool_ok_alloc sh ts k o d p :
  0 <= k < MAX_SHOTS -> p <> 0 ->
  shot_status (nth (Z.to_nat k) sh idle_shot) = 0 -> shot_status o = 1 ->
  pool_ok sh ts ->
  pool_ok (put_nat sh (Z.to_nat k) o) (ts ++ [mk_task T_MoveRightShot (Some k) d p]).
Proof.
  intros K P S0 S1 [L St C T]. unfold MAX_SHOTS in *.
  constructor.
  - rewrite put_nat_length; auto.
  - intros j J. unfold MAX_SHOTS in J. destruct (Z.eq_dec j k) as [->|n].
    + rewrite put_nat_nth_same; [auto | lia].
    + rewrite put_nat_nth_other; [auto | lia].
  - intros j J. unfold MAX_SHOTS in J. rewrite count_task_app, count_task_cons, count_task_nil.
    unfold same_task. cbn [t_fn t_arg task_fn_eqb arg_eqb andb].
    destruct (Z.eqb_spec j k) as [->|n].
    + rewrite put_nat_nth_same; [|lia]. rewrite C, S0, S1 by lia. cbv iota. lia.
    + rewrite put_nat_nth_other; [|lia]. rewrite C by lia. cbv iota. lia.
  - intros t I M. apply in_app_or in I as [I|[<-|[]]]; auto.
    cbn. split; eauto.
Qed.

(** Booleans of the C conditions as propositions. *)
Ltac b2p :=
  repeat match goal with
  | H : (_ <? _) = true |- _ => apply Z.ltb_lt in H
  | H : (_ <? _) = false |- _ => apply Z.ltb_ge in H
  | H : (_ <=? _) = true |- _ => apply Z.leb_le in H
  | H : (_ <=? _) = false |- _ => apply Z.leb_gt in H
  | H : (_ =? _) = true |- _ => apply Z.eqb_eq in H
  | H : (_ =? _) = false |- _ => apply Z.eqb_neq in H
  | H : negb _ = true |- _ => apply negb_true_iff in H
  | H : negb _ = false |- _ => apply negb_false_iff in H
  end.

Lemma u8_small z : 0 <= z < 256 -> u8 z = z.
Proof. intros; unfold u8; apply Z.mod_small; auto. Qed.

Lemma int16_small z : -32768 <= z <= INT_MAX -> int16 z = z.
Proof. unfold int16, INT_MAX; intros. rewrite Z.mod_small; lia. Qed.

Ltac ranges :=
  repeat match goal with
  | H : Inv _ |- _ => destruct H
  end;
  b2p; cbn in *; rewrite ?u8_small by lia; try lia.

Lemma Inv_emit c s : Inv s -> Inv (emit c s).
Proof. intros []; constructor; auto. Qed.

Lemma Inv_set_receiver b s : Inv s -> Inv (set_receiver b s).
Proof. intros []; constructor; auto. Qed.

Lemma Inv_set_gRechargingWeapon v s : Inv s -> Inv (set_gRechargingWeapon v s).
Proof. intros []; constructor; auto. Qed.

Lemma Inv_fault c r s : Inv s -> Inv (fault c r s).
Proof. intros []; constructor; auto. Qed.

Lemma Inv_wr c r v s : Inv s -> Inv (wr c r v s).
Proof. intros []; unfold wr; destruct (in_bounds c r); constructor; auto. Qed.

Lemma Inv_rd c r s v s' : rd c r s = (v, s') -> Inv s -> Inv s'.
Proof.
  unfold rd. destruct (asteroids_get _ _ _); intros E; inversion E; subst;
    auto using Inv_fault.
Qed.

Lemma Inv_task_other fn arg d p s :
  fn <> T_MoveRightShot -> Inv s -> Inv (Task_Schedule fn arg d p s).
Proof.
  intros N []; constructor; auto. cbn.
  eapply pool_ok_other; [|eassumption]. apply same_mrs_app. auto.
Qed.

Lemma Inv_remove_other fn arg s :
  fn <> T_MoveRightShot -> Inv s -> Inv (Task_Remove fn arg s).
Proof.
  intros N []; constructor; auto. cbn.
  eapply pool_ok_other; [|eassumption]. apply same_mrs_filter. auto.
Qed.

Lemma Inv_set_asteroidSpawnProbability v s :
  14 <= v <= 24 -> Inv s -> Inv (set_asteroidSpawnProbability v s).
Proof. intros R []; constructor; auto. Qed.

Lemma Inv_upd_game f s :
  Inv s ->
  0 <= game_health (f (game s)) <= 3 ->
  0 <= game_shotCooldown (f (game s)) <= 6 ->
  Inv (upd_game f s).
Proof. intros [] H C; constructor; auto. Qed.

Lemma Inv_frame s0 s : frame s0 s -> Inv s0 -> Inv s.
Proof.
  intros [] []. destruct fr_tasks0 as (extra & T & F).
  constructor; try lia.
  rewrite fr_shots0, T. eapply pool_ok_other; [|eassumption].
  apply same_mrs_app. eapply Forall_impl; [|exact F].
  intros t [E|E]; rewrite E; discriminate.
Qed.

Lemma for_inv (P : state -> Prop) body idx :
  (forall i s, In i idx -> P s -> P (body i s)) ->
  forall s, P s -> P (for_ idx body s).
Proof.
  induction idx as [|i idx IH]; intros B s H; simpl; auto.
  apply IH; [intros; apply B; simpl; auto|]. apply B; simpl; auto.
Qed.

Lemma range_In lo hi i : In i (range lo hi) <-> lo <= i < hi.
Proof.
  unfold range. rewrite in_map_iff. split.
  - intros (k & <- & I). apply in_seq in I. lia.
  - intros H. exists (Z.to_nat (i - lo)). split; [lia|]. apply in_seq. lia.
Qed.

(** Lemmas about whole callbacks, tried before the primitive steps. *)
Ltac inv_hook := fail.

Ltac inv_tac :=
  repeat first
    [ assumption
    | inv_hook
    | apply Inv_emit
    | apply Inv_set_receiver
    | apply Inv_set_gRechargingWeapon
    | apply Inv_wr
    | apply Inv_task_other; [discriminate|]
    | apply Inv_remove_other; [discriminate|]
    | apply Inv_set_asteroidSpawnProbability; [cbv; split; discriminate|]
    | apply Inv_upd_game; [| solve [ranges] | solve [ranges]]
    | match goal with
      | |- Inv (if ?c then _ else _) => destruct c eqn:?
      end ].

(** ** The callbacks preserve the invariant *)

Lemma IncreaseScore_Inv s : Inv s -> Inv (IncreaseScore s).
Proof. intros H. unfold IncreaseScore, Task_Queue. cbv zeta. inv_tac. Qed.

Lemma UpdateScore_Inv s : Inv s -> Inv (UpdateScore s).
Proof.
  intros H. unfold UpdateScore, set_difficulty, Task_Queue, Game_CharXY, Game_Printf.
  cbv zeta. inv_tac.
Qed.

Lemma UpdateDifficulty_Inv s : Inv s -> Inv (UpdateDifficulty s).
Proof. intros H. unfold UpdateDifficulty, Game_CharXY, Game_Printf. cbv zeta. inv_tac. Qed.

Lemma ResetScreenColor_Inv s : Inv s -> Inv (ResetScreenColor s).
Proof. intros H. unfold ResetScreenColor, Game_CharXY, Game_SetColor. cbv zeta. inv_tac. Qed.

Lemma UpdateShotCooldown_Inv s : Inv s -> Inv (UpdateShotCooldown s).
Proof.
  intros H. unfold UpdateShotCooldown, charge_bar, Game_CharXY, Game_SetColor, Game_Printf.
  cbv zeta. inv_tac.
Qed.

Lemma Help_Inv s : Inv s -> Inv (Help s).
Proof. intros H. unfold Help, Game_Printf. cbv zeta. inv_tac. Qed.

Lemma DecreaseCooldown_Inv s : Inv s -> Inv (DecreaseCooldown s).
Proof.
  intros H. unfold DecreaseCooldown, Task_Queue. cbv zeta.
  destruct (_ <? 6) eqn:E; inv_tac.
Qed.

Lemma release_all_Inv s : Inv s -> Inv (release_all s).
Proof.
  unfold release_all. apply for_inv. intros i s1 I H.
  apply range_In in I. unfold release. destruct (_ =? 1); auto.
  destruct H. constructor; auto. cbn.
  apply pool_ok_release; auto.
Qed.

Lemma GameOver_unfold s :
  GameOver s =
  Game_GameOver (Game_ShowCursor (Game_CharXY CR 0 (MAP_HEIGHT + 5)
    (Game_UnregisterPlayer1Receiver
      (let s1 := Game_CharXY CR 0 (MAP_HEIGHT + 1) (Game_SetColor ForegroundRed
                   (release_all (Task_Remove T_IncreaseScore None
                      (Task_Remove T_GenerateAndShift None s)))) in
       Game_Printf "Game Over! Final score: %d, Total shots fired: %d"
         [game_score (game s1); game_shotsFired (game s1)] s1)))).
Proof. reflexivity. Qed.

Lemma GameOver_Inv s : Inv s -> Inv (GameOver s).
Proof.
  intros H. rewrite GameOver_unfold. cbv zeta.
  unfold Game_GameOver, Game_ShowCursor, Game_CharXY, Game_UnregisterPlayer1Receiver,
    Game_Printf, Game_SetColor.
  repeat first [apply Inv_emit | apply Inv_set_receiver].
  apply release_all_Inv. inv_tac.
Qed.

Ltac inv_hook ::=
  match goal with
  | |- Inv (GameOver _) => apply GameOver_Inv
  end.

Lemma UpdateHealth_Inv s : Inv s -> Inv (UpdateHealth s).
Proof.
  intros H. unfold UpdateHealth, Game_CharXY, Game_SetColor, Game_Printf. cbv zeta.
  inv_tac.
Qed.

Arguments shot_at : simpl never.

Lemma slot_cases k : 0 <= k < MAX_SHOTS -> k = 0 \/ k = 1 \/ k = 2 \/ k = 3 \/ k = 4.
Proof. unfold MAX_SHOTS; lia. Qed.

(** [find_shot] returns the highest-indexed slot whose status is 0. *)
Lemma find_shot_Some s k :
  find_shot s = Some k <->
  0 <= k < MAX_SHOTS /\ shot_status (shot_at s k) = 0 /\
  forall j, k < j < MAX_SHOTS -> shot_status (shot_at s j) <> 0.
Proof.
  unfold find_shot. simpl.
  destruct (Z.eqb_spec (shot_status (shot_at s 4)) 0) as [e4|n4];
  [|destruct (Z.eqb_spec (shot_status (shot_at s 3)) 0) as [e3|n3];
  [|destruct (Z.eqb_spec (shot_status (shot_at s 2)) 0) as [e2|n2];
  [|destruct (Z.eqb_spec (shot_status (shot_at s 1)) 0) as [e1|n1];
  [|destruct (Z.eqb_spec (shot_status (shot_at s 0)) 0) as [e0|n0]]]]];
  (split;
   [ intros E; inversion E; subst; unfold MAX_SHOTS;
     (split; [lia|]); (split; [assumption|]);
     intros j J;
     assert (j = 1 \/ j = 2 \/ j = 3 \/ j = 4) as D by lia;
     destruct D as [-> | [-> | [-> | ->]]]; (assumption || lia)
   | intros (K & S0 & L); unfold MAX_SHOTS in *;
     destruct (slot_cases k K) as [-> | [-> | [-> | [-> | ->]]]];
     first [ reflexivity | congruence
           | exfalso; apply (L 4); (lia || assumption)
           | exfalso; apply (L 3); (lia || assumption)
           | exfalso; apply (L 2); (lia || assumption)
           | exfalso; apply (L 1); (lia || assumption) ] ]).
Qed.

Lemma find_shot_None s :
  find_shot s = None <->
  forall j, 0 <= j < MAX_SHOTS -> shot_status (shot_at s j) <> 0.
Proof.
  unfold find_shot. simpl.
  destruct (Z.eqb_spec (shot_status (shot_at s 4)) 0) as [e4|n4];
  [|destruct (Z.eqb_spec (shot_status (shot_at s 3)) 0) as [e3|n3];
  [|destruct (Z.eqb_spec (shot_status (shot_at s 2)) 0) as [e2|n2];
  [|destruct (Z.eqb_spec (shot_status (shot_at s 1)) 0) as [e1|n1];
  [|destruct (Z.eqb_spec (shot_status (shot_at s 0)) 0) as [e0|n0]]]]];
  (split;
   [ intros E; try discriminate E; intros j J;
     destruct (slot_cases j J) as [-> | [-> | [-> | [-> | ->]]]]; assumption
   | intros L; unfold MAX_SHOTS in L;
     first [ reflexivity
           | exfalso; apply (L 4); (lia || assumption)
           | exfalso; apply (L 3); (lia || assumption)
           | exfalso; apply (L 2); (lia || assumption)
           | exfalso; apply (L 1); (lia || assumption)
           | exfalso; apply (L 0); (lia || assumption) ] ]).
Qed.

Lemma Inv_set_shot_move k o s :
  shot_status o = shot_status (shot_at s k) -> Inv s -> Inv (set_shot k o s).
Proof.
  intros S []. constructor; auto. cbn. apply pool_ok_move; auto.
Qed.

Lemma Inv_release k o s :
  0 <= k < MAX_SHOTS -> shot_status o = 0 -> Inv s ->
  Inv (Task_Remove T_MoveRightShot (Some k) (set_shot k o s)).
Proof.
  intros K S []. constructor; auto. cbn. apply pool_ok_release; auto.
Qed.

Lemma Inv_release_upd k o f s :
  0 <= k < MAX_SHOTS -> shot_status o = 0 ->
  (forall g, game_health (f g) = game_health g /\
             game_shotCooldown (f g) = game_shotCooldown g) ->
  Inv s ->
  Inv (Task_Remove T_MoveRightShot (Some k) (upd_game f (set_shot k o s))).
Proof.
  intros K S F []. destruct (F (game s)) as [Fh Fc].
  constructor; cbn; try rewrite ?Fh, ?Fc; auto.
  apply pool_ok_release; auto.
Qed.

Lemma Shoot_Inv s : Inv s -> Inv (Shoot s).
Proof.
  intros H. unfold Shoot.
  destruct (3 <=? _) eqn:E; auto. cbv zeta.
  destruct (find_shot s) as [k|] eqn:F; auto.
  apply find_shot_Some in F as (K & S0 & _).
  unfold Task_Queue.
  match goal with
  | |- Inv (if _ then _ (_ (Task_Schedule _ _ _ _ ?X)) else _) =>
      assert (Inv (Task_Schedule T_MoveRightShot (Some k) FIRE_SPEED FIRE_SPEED X)) as HX
  end.
  { destruct H as [Hh Hc Hp Hpool]. b2p. constructor; cbn.
    - exact Hh.
    - rewrite u8_small; lia.
    - exact Hp.
    - apply pool_ok_move; [reflexivity|].
      apply pool_ok_move; [reflexivity|].
      apply pool_ok_alloc; auto; [discriminate|].
      eapply pool_ok_other; [|exact Hpool].
      apply same_mrs_app. repeat constructor. discriminate. }
  inv_tac.
Qed.

Lemma MoveRightShot_Inv k s :
  0 <= k < MAX_SHOTS -> Inv s -> Inv (MoveRightShot k s).
Proof.
  intros K H. unfold MoveRightShot. cbv zeta.
  destruct (_ <? _) eqn:E.
  - match goal with
    | |- Inv (let '(_, _) := rd ?c ?r ?X in _) =>
        assert (Inv X) as HX
          by (apply Inv_set_shot_move; [reflexivity | apply Inv_emit; exact H]);
        destruct (rd c r X) as [a s2] eqn:R
    end.
    apply (Inv_rd _ _ _ _ _ R) in HX.
    destruct (negb (a =? 0)).
    + unfold Task_Queue. apply Inv_task_other; [discriminate|].
      apply Inv_release_upd; auto.
      unfold Game_Bell, Game_SetColor, Game_CharXY. inv_tac.
    + unfold Game_SetColor, Game_CharXY. inv_tac.
  - apply Inv_release; auto. apply Inv_emit; exact H.
Qed.

Lemma GenerateAndShift_Inv rnd s : Inv s -> Inv (GenerateAndShift rnd s).
Proof. apply Inv_frame, GenerateAndShift_frame. Qed.

(** [Receiver] dispatches to one of five commands or ignores the byte. *)
Lemma Receiver_cases c s :
  Receiver c s = MoveLeft s \/ Receiver c s = MoveRight s \/
  Receiver c s = MoveUp s \/ Receiver c s = MoveDown s \/
  Receiver c s = Shoot s \/ Receiver c s = s.
Proof.
  destruct c as [[] [] [] [] [] [] [] []]; cbn; auto 7.
Qed.

Lemma Receiver_Inv c s : Inv s -> Inv (Receiver c s).
Proof.
  intros H.
  destruct (Receiver_cases c s) as [E|[E|[E|[E|[E|E]]]]]; rewrite E; auto.
  - eapply Inv_frame; [apply MoveLeft_frame | auto].
  - eapply Inv_frame; [apply MoveRight_frame | auto].
  - eapply Inv_frame; [apply MoveUp_frame | auto].
  - eapply Inv_frame; [apply MoveDown_frame | auto].
  - apply Shoot_Inv; auto.
Qed.

Lemma Callback_Inv argc argv s s' : Callback argc argv s = Some s' -> Inv s -> Inv s'.
Proof.
  unfold Callback, Game_Log. cbv zeta. intros C H.
  destruct argv as [|a0 rest]; [discriminate|].
  destruct (argc =? 0), (strcasecmp a0 "reset" =? 0); inversion C; subst; inv_tac.
Qed.

Ltac inv_hook ::=
  match goal with
  | |- Inv (GameOver _) => apply GameOver_Inv
  | |- Inv (UpdateScore _) => apply UpdateScore_Inv
  | |- Inv (UpdateHealth _) => apply UpdateHealth_Inv
  | |- Inv (UpdateShotCooldown _) => apply UpdateShotCooldown_Inv
  | |- Inv (UpdateDifficulty _) => apply UpdateDifficulty_Inv
  end.

Lemma Play_Inv s : Inv s -> Inv (Play s).
Proof.
  intros H. unfold Play. cbv zeta.
  remember (for_ _ _ (Game_DrawRect _ _ _ _ (Game_ClearScreen s))) as s1 eqn:E1.
  assert (Inv s1) as H1.
  { subst s1. apply for_inv; [|unfold Game_DrawRect, Game_ClearScreen; inv_tac].
    intros i s2 _ H2. apply for_inv; auto. intros j s3 _ H3. apply Inv_wr; auto. }
  clear E1 H.
  unfold Game_HideCursor, Game_RegisterPlayer1Receiver, Game_SetColor, Game_CharXY.
  inv_tac.
Qed.

Lemma boot_Inv adj : Inv (boot adj).
Proof.
  constructor; cbn; unfold STARTING_DIFFICULTY; try lia.
  constructor; cbn.
  - reflexivity.
  - intros k K. destruct (slot_cases k K) as [-> | [-> | [-> | [-> | ->]]]]; cbn; auto.
  - intros k K. destruct (slot_cases k K) as [-> | [-> | [-> | [-> | ->]]]]; reflexivity.
  - tauto.
Qed.

Lemma StephenGame_Init_Inv id s : Inv s -> Inv (StephenGame_Init id s).
Proof. intros H. unfold StephenGame_Init. cbv zeta. inv_tac. Qed.

Lemma take_task_found fn arg ts ts' :
  take_task fn arg ts = Some ts' -> exists t, In t ts /\ same_task fn arg t = true.
Proof.
  revert ts'; induction ts as [|t ts IH]; intros ts'; simpl; [discriminate|].
  destruct (same_task fn arg t) eqn:E; [eauto|].
  destruct (take_task fn arg ts) as [us|]; simpl; [|discriminate].
  intros _. destruct (IH us eq_refl) as (u & I & S). eauto.
Qed.

Lemma same_task_eq fn arg t : same_task fn arg t = true -> t_fn t = fn /\ t_arg t = arg.
Proof.
  unfold same_task. intros H. apply andb_true_iff in H as [A B].
  apply task_fn_eqb_eq in A. apply arg_eqb_eq in B. auto.
Qed.

(** An advance-task that runs points to a slot of the pool and stays held. *)
Lemma take_advance_task s arg ts :
  Inv s -> take_task T_MoveRightShot arg (tasks s) = Some ts ->
  ts = tasks s /\ exists k, arg = Some k /\ 0 <= k < MAX_SHOTS.
Proof.
  intros [_ _ _ [_ _ _ T]] H. split.
  - apply (take_task_periodic _ _ _ _ H). intros t I S.
    apply same_task_eq in S as [F _]. apply (T t I F).
  - destruct (take_task_found _ _ _ _ H) as (t & I & S).
    apply same_task_eq in S as [F A].
    destruct (T t I F) as (_ & k & Ak & K). exists k. split; congruence.
Qed.

Lemma set_tasks_same s : set_tasks (tasks s) s = s.
Proof. destruct s; reflexivity. Qed.

Lemma step_Inv e s s' : step e s = Some s' -> Inv s -> Inv s'.
Proof.
  destruct e as [| |argc argv|c|fn arg rnd]; simpl; intros E H.
  - inversion E; subst. apply Play_Inv; auto.
  - inversion E; subst. apply Help_Inv; auto.
  - eapply Callback_Inv; eauto.
  - destruct (receiver s); inversion E; subst. apply Receiver_Inv; auto.
  - destruct (take_task fn arg (tasks s)) as [ts|] eqn:T; inversion E; subst; clear E.
    destruct (task_fn_eqb fn T_MoveRightShot) eqn:M.
    + apply task_fn_eqb_eq in M; subst fn.
      destruct (take_advance_task s arg ts H T) as (-> & k & -> & K).
      rewrite set_tasks_same. cbn [run_task]. apply MoveRightShot_Inv; auto.
    + assert (fn <> T_MoveRightShot) as N.
      { intros ->. discriminate M. }
      assert (Inv (set_tasks ts s)) as H1.
      { destruct H. constructor; auto. cbn.
        eapply pool_ok_other; [|eassumption]. eapply same_mrs_take; eauto. }
      destruct fn; cbn [run_task].
      * apply GenerateAndShift_Inv; exact H1.
      * apply IncreaseScore_Inv; exact H1.
      * apply UpdateScore_Inv; exact H1.
      * apply UpdateHealth_Inv; exact H1.
      * apply UpdateShotCooldown_Inv; exact H1.
      * apply UpdateDifficulty_Inv; exact H1.
      * apply ResetScreenColor_Inv; exact H1.
      * congruence.
      * apply DecreaseCooldown_Inv; exact H1.
Qed.

Lemma reachable_Inv s : reachable s -> Inv s.
Proof.
  induction 1 as [id adj | e s s' R IH E].
  - apply StephenGame_Init_Inv, boot_Inv.
  - eapply step_Inv; eauto.
Qed.

(** ** Weapon cooldown *)

Lemma demo_play_reachable : reachable demo_play.
Proof.
  apply reach_step with (e := EPlay) (s := demo_boot).
  - apply reach_init.
  - reflexivity.
Defined.

Lemma idle_slot_find s : (exists k, idle_slot s k) -> exists k, find_shot s = Some k.
Proof.
  intros (k & K & S). destruct (find_shot s) as [j|] eqn:F; eauto.
  exfalso. rewrite find_shot_None in F. exact (F k K S).
Qed.

Lemma Shoot_rejected s :
  cooldown s < 3 \/ (forall k, ~ idle_slot s k) -> Shoot s = s.
Proof.
  unfold Shoot, cooldown. intros [C|N].
  - destruct (Z.leb_spec 3 (game_shotCooldown (game s))); [lia | reflexivity].
  - destruct (3 <=? _); [|reflexivity].
    destruct (find_shot s) as [k|] eqn:F; [|reflexivity].
    apply find_shot_Some in F as (K & S & _). exfalso. apply (N k). split; auto.
Qed.

Lemma Shoot_cooldown s :
  3 <= cooldown s <= 255 -> (exists k, idle_slot s k) ->
  cooldown (Shoot s) = cooldown s - 3.
Proof.
  unfold cooldown. intros C I. apply idle_slot_find in I as (k & F).
  unfold Shoot. destruct (Z.leb_spec 3 (game_shotCooldown (game s))); [|lia].
  rewrite F. cbv zeta.
  destruct (gRechargingWeapon _ =? 0); cbn; apply u8_small; lia.
Qed.

Lemma DecreaseCooldown_cooldown s :
  0 <= cooldown s ->
  cooldown (DecreaseCooldown s) = if cooldown s <? 6 then cooldown s + 1 else cooldown s.
Proof.
  unfold cooldown, DecreaseCooldown. intros C.
  destruct (Z.ltb_spec (game_shotCooldown (game s)) 6); cbn; [|reflexivity].
  apply u8_small; lia.
Qed.

(** C3. In every reachable state shotCooldown lies in [0,6]; Shoot leaves
    the state untouched unless shotCooldown >= 3 and an idle slot exists,
    and then lowers shotCooldown by exactly 3; a recharge tick
    (DecreaseCooldown) raises shotCooldown by exactly 1 while it is below 6
    and never takes it above 6. *)
Theorem shotCooldown_discipline s :
  reachable s ->
  0 <= cooldown s <= 6 /\
  (cooldown s < 3 \/ (forall k, ~ idle_slot s k) -> Shoot s = s) /\
  (3 <= cooldown s -> (exists k, idle_slot s k) ->
     cooldown (Shoot s) = cooldown s - 3) /\
  (cooldown s < 6 -> cooldown (DecreaseCooldown s) = cooldown s + 1) /\
  cooldown (DecreaseCooldown s) <= 6.
Proof.
  intros R. pose proof (inv_cd s (reachable_Inv s R)) as C. fold (cooldown s) in C.
  split; [exact C|]. split; [apply Shoot_rejected|].
  split; [intros; apply Shoot_cooldown; auto; lia|].
  rewrite DecreaseCooldown_cooldown by lia.
  destruct (Z.ltb_spec (cooldown s) 6); split; intros; lia.
Qed.

Lemma shotCooldown_discipline_witness :
  reachable demo_play /\
  0 <= cooldown demo_play <= 6 /\
  (cooldown demo_play < 3 \/ (forall k, ~ idle_slot demo_play k) ->
     Shoot demo_play = demo_play) /\
  (3 <= cooldown demo_play -> (exists k, idle_slot demo_play k) ->
     cooldown (Shoot demo_play) = cooldown demo_play - 3) /\
  (cooldown demo_play < 6 ->
     cooldown (DecreaseCooldown demo_play) = cooldown demo_play + 1) /\
  cooldown (DecreaseCooldown demo_play) <= 6.
Proof.
  split; [exact demo_play_reachable|].
  apply (shotCooldown_discipline demo_play). exact demo_play_reachable.
Defined.

(** ** Ship movement *)

Arguments wr : simpl never.
Arguments rd : simpl never.

Lemma rd_game c r s : game (snd (rd c r s)) = game s.
Proof. unfold rd. destruct (asteroids_get _ _ _); reflexivity. Qed.

Lemma wr_game c r v s : game (wr c r v s) = game s.
Proof. unfold wr. destruct (in_bounds c r); reflexivity. Qed.

Lemma ship_hit_ship cx cy s : ship (ship_hit cx cy s) = ship s.
Proof.
  unfold ship, ship_hit. cbv zeta.
  destruct (0 <? _); cbn; rewrite ?wr_game; reflexivity.
Qed.

Lemma ship_arrive_ship s : ship (ship_arrive s) = ship s.
Proof.
  unfold ship_arrive. pose proof (rd_game (game_x (game s)) (game_y (game s)) s) as G.
  destruct (rd _ _ s) as [a s1]. simpl in G.
  destruct (negb _).
  - rewrite ship_hit_ship. unfold ship. rewrite G. reflexivity.
  - unfold ship. cbn. rewrite G. reflexivity.
Qed.

Lemma do_move_ship m s :
  ship (do_move m s) =
  match m with
  | MLeft => if 1 <? game_x (game s) then (u8 (game_x (game s) - 1), game_y (game s)) else ship s
  | MRight => if game_x (game s) <? MAP_WIDTH - 3
              then (u8 (game_x (game s) + 1), game_y (game s)) else ship s
  | MUp => if 1 <? game_y (game s) then (game_x (game s), u8 (game_y (game s) - 1)) else ship s
  | MDown => if game_y (game s) <? MAP_HEIGHT - 1
             then (game_x (game s), u8 (game_y (game s) + 1)) else ship s
  end.
Proof.
  destruct m; simpl; unfold MoveLeft, MoveRight, MoveUp, MoveDown; cbv zeta;
    destruct (_ <? _); try reflexivity; rewrite ship_arrive_ship; reflexivity.
Qed.

Lemma do_move_interior m s : interior_cell (ship s) -> interior_cell (ship (do_move m s)).
Proof.
  rewrite do_move_ship. unfold interior_cell, ship, MAP_WIDTH, MAP_HEIGHT. simpl.
  intros [X Y].
  destruct m; match goal with |- context [if ?c then _ else _] => destruct c eqn:E end;
    b2p; simpl; rewrite ?u8_small by lia; lia.
Qed.

Lemma do_move_rejected m s :
  interior_cell (ship s) -> ~ interior_cell (target m s) -> do_move m s = s.
Proof.
  unfold interior_cell, ship, target, MAP_WIDTH, MAP_HEIGHT. simpl. intros [X Y] N.
  destruct m; simpl in N; simpl;
    unfold MoveLeft, MoveRight, MoveUp, MoveDown, MAP_WIDTH, MAP_HEIGHT;
    match goal with |- context [if ?c then _ else _] => destruct c eqn:E end;
    b2p; try reflexivity; lia.
Qed.

(** C7. Starting inside the playfield, every sequence of movement commands
    leaves the ship strictly inside it (never on a wall), and a command
    whose destination is not an interior cell returns the state unchanged. *)
Theorem ship_stays_inside (ms : list move) (s : state) :
  interior_cell (ship s) ->
  interior_cell (ship (do_moves ms s)) /\
  (forall m, ~ interior_cell (target m s) -> do_move m s = s).
Proof.
  intros I. split.
  - unfold do_moves. revert s I. induction ms as [|m ms IH]; intros s I; simpl; auto.
    apply IH. apply do_move_interior; auto.
  - intros m N. apply do_move_rejected; auto.
Qed.

Lemma ship_stays_inside_witness :
  interior_cell (ship demo_play) /\
  interior_cell (ship (do_moves [MRight; MRight; MRight; MUp; MLeft] demo_play)) /\
  (forall m, ~ interior_cell (target m demo_play) -> do_move m demo_play = demo_play).
Proof.
  assert (interior_cell (ship demo_play)) as I by (vm_compute; repeat split; reflexivity).
  split; [exact I|].
  apply (ship_stays_inside [MRight; MRight; MRight; MUp; MLeft] demo_play I).
Defined.

(** ** Slot allocation in [Shoot] *)

Lemma shot_at_set_shot_same k o s :
  0 <= k -> (Z.to_nat k < List.length (shots s))%nat ->
  shot_at (set_shot k o s) k = o.
Proof. intros K L. unfold shot_at, set_shot. cbn. apply put_nat_nth_same; auto. Qed.

Lemma shot_at_set_shot_other k j o s :
  0 <= k -> 0 <= j -> j <> k -> shot_at (set_shot k o s) j = shot_at s j.
Proof.
  intros K J N. unfold shot_at, set_shot. cbn. apply put_nat_nth_other. lia.
Qed.

Lemma put_nat_twice {A} (l : list A) n a b : put_nat (put_nat l n a) n b = put_nat l n b.
Proof.
  revert n; induction l as [|x l IH]; intros [|n]; simpl; auto. f_equal; auto.
Qed.

Lemma Shoot_shots s k :
  (Z.to_nat k < List.length (shots s))%nat ->
  3 <= cooldown s -> find_shot s = Some k ->
  shots (Shoot s) =
  put_nat (shots s) (Z.to_nat k)
          (mk_shot (u8 (game_x (game s) + 1)) (game_y (game s)) 1).
Proof.
  unfold cooldown. intros L C F.
  unfold Shoot. destruct (Z.leb_spec 3 (game_shotCooldown (game s))); [|lia].
  rewrite F. cbv zeta.
  destruct (gRechargingWeapon _ =? 0); cbn; unfold shot_at; cbn;
    rewrite !put_nat_nth_same by (rewrite ?put_nat_length; exact L);
    rewrite !put_nat_twice; reflexivity.
Qed.

Lemma Shoot_shotsFired s k :
  3 <= cooldown s -> find_shot s = Some k ->
  game_shotsFired (game (Shoot s)) = int16 (game_shotsFired (game s) + 1).
Proof.
  unfold cooldown. intros C F.
  unfold Shoot. destruct (Z.leb_spec 3 (game_shotCooldown (game s))); [|lia].
  rewrite F. cbv zeta.
  destruct (gRechargingWeapon _ =? 0); reflexivity.
Qed.

(** C2 (as amended). When Shoot is called with shotCooldown >= 3 and [k]
    is the last Idle slot in pool order (the highest-indexed slot whose
    status is Idle), it is slot [k] that is allocated: it becomes Active at
    (x+1, y), every other slot is left as it was, and shotsFired grows by 1
    (the ship being on the map and the counter below INT_MAX). *)
Theorem Shoot_allocates_last_idle s k :
  List.length (shots s) = Z.to_nat MAX_SHOTS ->
  3 <= cooldown s ->
  last_idle s k ->
  0 <= game_x (game s) < MAP_WIDTH ->
  - 32768 <= game_shotsFired (game s) < INT_MAX ->
  find_shot s = Some k /\
  shot_at (Shoot s) k = mk_shot (game_x (game s) + 1) (game_y (game s)) 1 /\
  (forall j, 0 <= j < MAX_SHOTS -> j <> k -> shot_at (Shoot s) j = shot_at s j) /\
  game_shotsFired (game (Shoot s)) = game_shotsFired (game s) + 1.
Proof.
  intros L C [[K S] N] X Fd.
  assert (find_shot s = Some k) as F by (apply find_shot_Some; auto).
  assert (Z.to_nat k < List.length (shots s))%nat as Lk
    by (rewrite L; unfold MAX_SHOTS in *; lia).
  split; [exact F|].
  unfold shot_at. rewrite (Shoot_shots s k Lk C F).
  rewrite (Shoot_shotsFired s k C F).
  unfold MAP_WIDTH, INT_MAX in *.
  rewrite u8_small by lia. rewrite int16_small by (unfold INT_MAX; lia).
  split; [apply put_nat_nth_same; exact Lk|].
  split; [|reflexivity].
  intros j J D. apply put_nat_nth_other. unfold MAX_SHOTS in *. lia.
Qed.

Lemma Shoot_allocates_last_idle_witness :
  find_shot demo_play = Some 4 /\
  shot_at (Shoot demo_play) 4 =
    mk_shot (game_x (game demo_play) + 1) (game_y (game demo_play)) 1 /\
  (forall j, 0 <= j < MAX_SHOTS -> j <> 4 ->
     shot_at (Shoot demo_play) j = shot_at demo_play j) /\
  game_shotsFired (game (Shoot demo_play)) = game_shotsFired (game demo_play) + 1.
Proof.
  apply (Shoot_allocates_last_idle demo_play 4).
  - vm_compute; reflexivity.
  - vm_compute; discriminate.
  - split; [split; [unfold MAX_SHOTS; lia | vm_compute; reflexivity]|].
    intros j J. unfold MAX_SHOTS in J. lia.
  - vm_compute; split; (discriminate || reflexivity).
  - vm_compute; split; (discriminate || reflexivity).
Defined.

(** C2, as stated, fails: with all five slots Idle after [Play], the first
    Idle slot is slot 0, yet [Shoot] leaves slot 0 Idle and activates
    slot 4. *)
Lemma Shoot_not_first_fit :
  3 <= cooldown demo_play /\
  first_idle demo_play = Some 0 /\
  find_shot demo_play = Some 4 /\
  shot_status (shot_at (Shoot demo_play) 0) = 0 /\
  shot_status (shot_at (Shoot demo_play) 4) = 1.
Proof.
  split; [vm_compute; discriminate|].
  repeat split; vm_compute; reflexivity.
Qed.

(** ** Round over: what [GameOver] cancels *)

Lemma release_all_for s : release_all s = for_ (range 0 MAX_SHOTS) release s.
Proof. reflexivity. Qed.

Lemma active_in_pool s k :
  shot_status (shot_at s k) = 1 -> (Z.to_nat k < List.length (shots s))%nat.
Proof.
  intros S. destruct (Nat.lt_ge_cases (Z.to_nat k) (List.length (shots s))); auto.
  unfold shot_at in S. rewrite nth_overflow in S by auto. discriminate S.
Qed.

Lemma release_keeps_released i k s :
  0 <= i -> 0 <= k -> released k s -> released k (release i s).
Proof.
  intros I K [C S]. unfold release.
  destruct (Z.eqb_spec (shot_status (shot_at s i)) 1) as [A|A]; [|split; auto].
  assert (i <> k) as N by (intros ->; lia).
  split.
  - cbn. rewrite count_task_remove. destruct (_ && _); auto.
  - change (shot_status (shot_at (set_shot i (set_status 0 (shot_at s i)) s) k) = 0).
    rewrite shot_at_set_shot_other; auto.
Qed.

Lemma release_loop_active idx : forall s k,
  (forall i, In i idx -> 0 <= i) -> 0 <= k -> In k idx ->
  shot_status (shot_at s k) = 1 -> released k (for_ idx release s).
Proof.
  induction idx as [|i idx IH]; intros s k P K I S; [destruct I|].
  simpl. destruct (Z.eq_dec i k) as [->|N].
  - apply for_inv.
    + intros j s1 J. apply release_keeps_released; auto. apply P; simpl; auto.
    + unfold release. rewrite S. simpl. split.
      * cbn. rewrite count_task_remove. cbn. rewrite Z.eqb_refl. reflexivity.
      * change (shot_status (shot_at (set_shot k (set_status 0 (shot_at s k)) s) k) = 0).
        rewrite shot_at_set_shot_same; auto using active_in_pool.
  - apply IH; auto.
    + intros j J. apply P; simpl; auto.
    + destruct I as [E|I]; [congruence | exact I].
    + unfold release. destruct (_ =? 1); auto.
      change (shot_status (shot_at (set_shot i (set_status 0 (shot_at s i)) s) k) = 1).
      rewrite shot_at_set_shot_other; auto. apply P; simpl; auto.
Qed.

(** The loop touches nothing but the pool and the advance-tasks. *)
Lemma release_all_rest s :
  game (release_all s) = game s /\
  gRechargingWeapon (release_all s) = gRechargingWeapon s /\
  asteroidSpawnProbability (release_all s) = asteroidSpawnProbability s /\
  receiver (release_all s) = receiver s /\
  io (release_all s) = io s /\
  forall fn a, fn <> T_MoveRightShot ->
    count_task fn a (tasks (release_all s)) = count_task fn a (tasks s).
Proof.
  rewrite release_all_for.
  apply (for_inv (fun s' =>
    game s' = game s /\ gRechargingWeapon s' = gRechargingWeapon s /\
    asteroidSpawnProbability s' = asteroidSpawnProbability s /\
    receiver s' = receiver s /\ io s' = io s /\
    forall fn a, fn <> T_MoveRightShot ->
      count_task fn a (tasks s') = count_task fn a (tasks s))).
  - intros i s1 _ (G & W & P & R & O & T). unfold release.
    destruct (_ =? 1); [|tauto]. cbn. repeat (split; auto).
    intros fn a N. rewrite count_task_remove, T by auto.
    destruct (task_fn_eqb fn T_MoveRightShot) eqn:E; [|reflexivity].
    apply task_fn_eqb_eq in E. congruence.
  - repeat split; auto.
Qed.

Lemma GameOver_tasks s :
  tasks (GameOver s) =
  tasks (release_all (Task_Remove T_IncreaseScore None
                        (Task_Remove T_GenerateAndShift None s))).
Proof. reflexivity. Qed.

Lemma GameOver_shots s :
  shots (GameOver s) =
  shots (release_all (Task_Remove T_IncreaseScore None
                        (Task_Remove T_GenerateAndShift None s))).
Proof. reflexivity. Qed.

Lemma GameOver_releases s k :
  0 <= k < MAX_SHOTS -> shot_status (shot_at s k) = 1 -> released k (GameOver s).
Proof.
  intros K S. unfold released, shot_at. rewrite GameOver_tasks, GameOver_shots.
  apply (release_loop_active (range 0 MAX_SHOTS)
           (Task_Remove T_IncreaseScore None (Task_Remove T_GenerateAndShift None s)) k).
  - intros i I. apply range_In in I. lia.
  - lia.
  - apply range_In. exact K.
  - exact S.
Qed.

Lemma Task_Remove_absent fn arg s :
  count_task fn arg (tasks s) = 0 -> Task_Remove fn arg s = s.
Proof.
  intros C. unfold Task_Remove. rewrite filter_absent by exact C.
  apply set_tasks_same.
Qed.

Lemma GameOver_periodic_tasks s :
  count_task T_GenerateAndShift None (tasks (GameOver s)) = 0 /\
  count_task T_IncreaseScore None (tasks (GameOver s)) = 0 /\
  (forall fn a, fn <> T_GenerateAndShift -> fn <> T_IncreaseScore ->
     fn <> T_MoveRightShot ->
     count_task fn a (tasks (GameOver s)) = count_task fn a (tasks s)).
Proof.
  pose proof (release_all_rest (Task_Remove T_IncreaseScore None
                (Task_Remove T_GenerateAndShift None s))) as (_ & _ & _ & _ & _ & T).
  repeat split.
  - rewrite GameOver_tasks, T by discriminate. cbn.
    rewrite !count_task_remove. reflexivity.
  - rewrite GameOver_tasks, T by discriminate. cbn.
    rewrite !count_task_remove. reflexivity.
  - intros fn a N1 N2 N3. rewrite GameOver_tasks, T by exact N3. cbn.
    rewrite !count_task_remove.
    destruct (task_fn_eqb fn T_IncreaseScore) eqn:E1;
      [apply task_fn_eqb_eq in E1; congruence|].
    destruct (task_fn_eqb fn T_GenerateAndShift) eqn:E2;
      [apply task_fn_eqb_eq in E2; congruence|].
    reflexivity.
Qed.

Lemma GameOver_gRechargingWeapon s : gRechargingWeapon (GameOver s) = gRechargingWeapon s.
Proof.
  rewrite GameOver_unfold. cbn.
  apply (release_all_rest (Task_Remove T_IncreaseScore None
           (Task_Remove T_GenerateAndShift None s))).
Qed.

(** C1 (as amended). GameOver cancels the spawn/shift task, the score-tick
    task and the advance-task of every Active slot (which it also sets
    Idle); a cancellation of a task that is not scheduled changes nothing.
    GameOver cancels no other task: in particular the recharge task stays
    scheduled, with the recharging flag as it was, and cancels itself at its
    first run with shotCooldown >= 6. *)
Theorem GameOver_cancels s :
  count_task T_GenerateAndShift None (tasks (GameOver s)) = 0 /\
  count_task T_IncreaseScore None (tasks (GameOver s)) = 0 /\
  (forall k, 0 <= k < MAX_SHOTS -> shot_status (shot_at s k) = 1 ->
     shot_status (shot_at (GameOver s) k) = 0 /\
     count_task T_MoveRightShot (Some k) (tasks (GameOver s)) = 0) /\
  (forall fn arg s', count_task fn arg (tasks s') = 0 -> Task_Remove fn arg s' = s') /\
  (forall fn a, fn <> T_GenerateAndShift -> fn <> T_IncreaseScore ->
     fn <> T_MoveRightShot ->
     count_task fn a (tasks (GameOver s)) = count_task fn a (tasks s)) /\
  count_task T_DecreaseCooldown None (tasks (GameOver s)) =
    count_task T_DecreaseCooldown None (tasks s) /\
  gRechargingWeapon (GameOver s) = gRechargingWeapon s /\
  (6 <= cooldown s ->
     count_task T_DecreaseCooldown None (tasks (DecreaseCooldown s)) = 0 /\
     gRechargingWeapon (DecreaseCooldown s) = 0).
Proof.
  destruct (GameOver_periodic_tasks s) as (G & I & O).
  split; [exact G|]. split; [exact I|].
  split.
  { intros k K S. destruct (GameOver_releases s k K S). split; assumption. }
  split; [intros fn arg s'; apply Task_Remove_absent|].
  split; [exact O|].
  split; [apply O; discriminate|].
  split; [apply GameOver_gRechargingWeapon|].
  intros C. unfold cooldown in C. unfold DecreaseCooldown.
  destruct (Z.ltb_spec (game_shotCooldown (game s)) 6); [lia|].
  split; [|reflexivity].
  cbn. rewrite count_task_remove. reflexivity.
Qed.

(** C1, as stated, fails: after GameOver has run (health 0, one
    [Game_GameOver] call) the recharge task is still scheduled and the
    recharging flag still set, while the shot's slot has been released. *)
Lemma GameOver_leaves_recharge :
  option_map (fun s => (game_health (game s), gameovers s,
                        count_task T_DecreaseCooldown None (tasks s),
                        gRechargingWeapon s,
                        count_task T_MoveRightShot (Some 4) (tasks s)))
             (run round_with_shot demo_boot)
  = Some (0, 1, 1, 1, 0).
Proof. vm_compute. reflexivity. Qed.

(** ** The shot pool and its advance-tasks *)

Lemma GameOver_releases_all s k :
  Inv s -> 0 <= k < MAX_SHOTS -> released k (GameOver s).
Proof.
  intros H K.
  destruct (pool_status _ _ (inv_pool s H) k K) as [S|S];
    [|apply GameOver_releases; auto].
  unfold released, shot_at. rewrite GameOver_tasks, GameOver_shots.
  rewrite release_all_for. apply for_inv.
  - intros i s1 I. apply release_keeps_released; [apply range_In in I|]; lia.
  - split; [|exact S]. cbn. rewrite !count_task_remove. cbn.
    rewrite (pool_count _ _ (inv_pool s H) k K). exact S.
Qed.

Lemma demo_shot_reachable : reachable demo_shot.
Proof.
  apply reach_step with (e := EKey " ") (s := demo_play).
  - exact demo_play_reachable.
  - vm_compute. reflexivity.
Defined.

(** ** Callbacks that involve no collision *)

Arguments release_all : simpl never.
Arguments GameOver : simpl never.

Lemma calm_refl s : calm s s.
Proof. constructor; auto; intros; lia. Qed.

Lemma calm_trans s0 s1 s2 : calm s0 s1 -> calm s1 s2 -> calm s0 s2.
Proof.
  intros [H1 R1 G1] [H2 R2 G2]. constructor; auto; try congruence.
  intros fn a C. specialize (G1 fn a C). specialize (G2 fn a C). lia.
Qed.

Lemma calm_emit s0 c s : calm s0 s -> calm s0 (emit c s).
Proof. intros []; constructor; auto. Qed.

Lemma calm_unregister s0 s : calm s0 s -> calm s0 (set_receiver false s).
Proof. intros []; constructor; auto. Qed.

Lemma calm_set_gRechargingWeapon s0 v s : calm s0 s -> calm s0 (set_gRechargingWeapon v s).
Proof. intros []; constructor; auto. Qed.

Lemma calm_set_asteroidSpawnProbability s0 v s :
  calm s0 s -> calm s0 (set_asteroidSpawnProbability v s).
Proof. intros []; constructor; auto. Qed.

Lemma calm_set_shot s0 k o s : calm s0 s -> calm s0 (set_shot k o s).
Proof. intros []; constructor; auto. Qed.

Lemma calm_fault s0 c r s : calm s0 s -> calm s0 (fault c r s).
Proof. intros []; constructor; auto. Qed.

Lemma calm_wr s0 c r v s : calm s0 s -> calm s0 (wr c r v s).
Proof. intros []. unfold wr. destruct (in_bounds c r); constructor; auto. Qed.

Lemma rd_calm s0 c r s v s' : rd c r s = (v, s') -> calm s0 s -> calm s0 s'.
Proof.
  unfold rd. destruct (asteroids_get _ _ _); intros E; inversion E; subst;
    auto using calm_fault.
Qed.

Lemma calm_task s0 fn arg d p s :
  ~ collider fn -> calm s0 s -> calm s0 (Task_Schedule fn arg d p s).
Proof.
  intros N [H R G]; constructor; auto. intros gn a C. cbn.
  rewrite count_task_app, count_task_cons, count_task_nil.
  unfold same_task. cbn [t_fn t_arg].
  destruct (task_fn_eqb gn fn) eqn:E.
  - apply task_fn_eqb_eq in E. congruence.
  - specialize (G gn a C). cbn [andb]. lia.
Qed.

Lemma calm_remove s0 fn arg s : calm s0 s -> calm s0 (Task_Remove fn arg s).
Proof.
  intros [H R G]; constructor; auto. intros gn a C. cbn.
  rewrite count_task_remove. specialize (G gn a C).
  pose proof (count_task_nonneg gn a (tasks s0)).
  destruct (_ && _); lia.
Qed.

Lemma calm_upd_game s0 f s :
  (forall g, game_health (f g) = game_health g) -> calm s0 s -> calm s0 (upd_game f s).
Proof. intros F [H R G]; constructor; auto. cbn. rewrite F. exact H. Qed.

Lemma for_calm body :
  (forall i s0 s, calm s0 s -> calm s0 (body i s)) ->
  forall idx s0 s, calm s0 s -> calm s0 (for_ idx body s).
Proof.
  intros B idx; induction idx as [|i idx IH]; intros s0 s F; simpl; auto.
Qed.

Ltac calm_hook := fail.

Ltac calm_tac :=
  repeat first
    [ assumption
    | apply calm_refl
    | calm_hook
    | apply calm_emit
    | apply calm_unregister
    | apply calm_set_gRechargingWeapon
    | apply calm_set_asteroidSpawnProbability
    | apply calm_set_shot
    | apply calm_wr
    | apply calm_task; [intros [?|?]; discriminate|]
    | apply calm_remove
    | apply calm_upd_game; [intros; reflexivity|]
    | match goal with
      | |- calm _ (if ?c then _ else _) => destruct c eqn:?
      | |- calm _ (match ?o with Some _ => _ | None => _ end) => destruct o eqn:?
      | |- calm ?s0 (let '(_, _) := rd ?c ?r ?s in _) =>
          let v := fresh "v" in
          let s1 := fresh "s" in
          let E := fresh "E" in
          destruct (rd c r s) as [v s1] eqn:E;
          assert (calm s0 s1) by (apply (rd_calm s0 c r s v s1 E); calm_tac)
      end ].

Lemma release_all_calm s0 s : calm s0 s -> calm s0 (release_all s).
Proof.
  intros C. rewrite release_all_for. apply for_calm; auto.
  intros i s1 s2 C2. unfold release. cbv zeta. calm_tac.
Qed.

Lemma GameOver_calm s0 s : calm s0 s -> calm s0 (GameOver s).
Proof.
  intros C. rewrite GameOver_unfold. cbv zeta.
  unfold Game_GameOver, Game_ShowCursor, Game_CharXY, Game_UnregisterPlayer1Receiver,
    Game_Printf, Game_SetColor.
  repeat first [apply calm_emit | apply calm_unregister].
  apply release_all_calm. calm_tac.
Qed.

Ltac calm_hook ::=
  match goal with
  | |- calm _ (GameOver _) => apply GameOver_calm
  end.

Lemma Help_calm s : calm s (Help s).
Proof. unfold Help, Game_Printf. cbv zeta. calm_tac. Qed.

Lemma IncreaseScore_calm s : calm s (IncreaseScore s).
Proof. unfold IncreaseScore, Task_Queue. cbv zeta. calm_tac. Qed.

Lemma UpdateScore_calm s : calm s (UpdateScore s).
Proof.
  unfold UpdateScore, set_difficulty, Task_Queue, Game_CharXY, Game_Printf.
  cbv zeta. calm_tac.
Qed.

Lemma UpdateDifficulty_calm s : calm s (UpdateDifficulty s).
Proof. unfold UpdateDifficulty, Game_CharXY, Game_Printf. cbv zeta. calm_tac. Qed.

Lemma UpdateHealth_calm s : calm s (UpdateHealth s).
Proof.
  unfold UpdateHealth, Game_CharXY, Game_SetColor, Game_Printf. cbv zeta. calm_tac.
Qed.

Lemma ResetScreenColor_calm s : calm s (ResetScreenColor s).
Proof. unfold ResetScreenColor, Game_CharXY, Game_SetColor. cbv zeta. calm_tac. Qed.

Lemma UpdateShotCooldown_calm s : calm s (UpdateShotCooldown s).
Proof.
  unfold UpdateShotCooldown, charge_bar, Game_CharXY, Game_SetColor, Game_Printf.
  cbv zeta. calm_tac.
Qed.

Lemma DecreaseCooldown_calm s : calm s (DecreaseCooldown s).
Proof. unfold DecreaseCooldown, Task_Queue. cbv zeta. calm_tac. Qed.

Lemma MoveRightShot_calm k s : calm s (MoveRightShot k s).
Proof.
  unfold MoveRightShot, Task_Queue, Game_Bell, Game_CharXY, Game_SetColor.
  cbv zeta. calm_tac.
Qed.

Lemma Callback_calm argc argv s s' : Callback argc argv s = Some s' -> calm s s'.
Proof.
  unfold Callback, Game_Log. cbv zeta. intros C.
  destruct argv as [|a0 rest]; [discriminate|].
  destruct (argc =? 0), (strcasecmp a0 "reset" =? 0); inversion C; subst; calm_tac.
Qed.

Lemma take_task_le fn arg gn b ts ts' :
  take_task fn arg ts = Some ts' -> count_task gn b ts' <= count_task gn b ts.
Proof.
  revert ts'; induction ts as [|t ts IH]; intros ts'; simpl; [discriminate|].
  destruct (same_task fn arg t).
  - intros H; inversion H; subst.
    destruct (t_period t =? 0); rewrite ?count_task_cons; [|lia].
    destruct (same_task gn b t); lia.
  - destruct (take_task fn arg ts) as [us|]; simpl; [|discriminate].
    intros H; inversion H; subst. rewrite !count_task_cons.
    specialize (IH us eq_refl). lia.
Qed.

Lemma take_task_calm fn arg s ts :
  take_task fn arg (tasks s) = Some ts -> calm s (set_tasks ts s).
Proof.
  intros T. constructor; auto. intros gn a _. cbn. eapply take_task_le; eauto.
Qed.

(** ** What [Play] sets up *)

Lemma grid_clear_rest s :
  let s1 := for_ (range 0 (MAP_WIDTH - 1)) (fun i s =>
              for_ (range 0 (MAP_HEIGHT - 1)) (fun j s => wr i j 0 s) s) s in
  game s1 = game s /\ shots s1 = shots s /\ tasks s1 = tasks s /\
  gRechargingWeapon s1 = gRechargingWeapon s /\
  asteroidSpawnProbability s1 = asteroidSpawnProbability s /\
  io s1 = io s.
Proof.
  cbv zeta.
  apply (for_inv (fun s1 =>
    game s1 = game s /\ shots s1 = shots s /\ tasks s1 = tasks s /\
    gRechargingWeapon s1 = gRechargingWeapon s /\
    asteroidSpawnProbability s1 = asteroidSpawnProbability s /\ io s1 = io s));
    [|repeat split].
  intros i s2 _ H2. apply for_inv; auto.
  intros j s3 _ H3. unfold wr. destruct (in_bounds i j); exact H3.
Qed.

Lemma Play_effects s :
  game (Play s) = mk_game 1 (MAP_HEIGHT / 2) ">"%char 3 6 0 0 (game_id (game s)) /\
  shots (Play s) = shots s /\
  tasks (Play s) = tasks s ++ [mk_task T_GenerateAndShift None 500 1000;
                               mk_task T_IncreaseScore None 2500 2500] /\
  gRechargingWeapon (Play s) = gRechargingWeapon s /\
  asteroidSpawnProbability (Play s) = asteroidSpawnProbability s /\
  receiver (Play s) = true.
Proof.
  unfold Play. cbv zeta.
  pose proof (grid_clear_rest (Game_DrawRect 0 0 MAP_WIDTH MAP_HEIGHT (Game_ClearScreen s)))
    as (G & S & T & W & P & _).
  cbv zeta in G, S, T, W, P.
  remember (for_ _ _ (Game_DrawRect _ _ _ _ (Game_ClearScreen s))) as s1 eqn:E1.
  clear E1. cbn in G, S, T, W, P. cbn.
  rewrite G, S, T, W, P, <- app_assoc. cbn. repeat split; reflexivity.
Qed.

(** ** Classification of the steps *)

Lemma Shoot_health s : game_health (game (Shoot s)) = game_health (game s).
Proof.
  unfold Shoot. destruct (3 <=? _); [|reflexivity].
  destruct (find_shot s); [|reflexivity]. cbv zeta.
  destruct (gRechargingWeapon _ =? 0); reflexivity.
Qed.

Lemma Shoot_tasks_collider s a :
  count_task T_GenerateAndShift a (tasks (Shoot s)) =
  count_task T_GenerateAndShift a (tasks s).
Proof.
  unfold Shoot. destruct (3 <=? _); [|reflexivity].
  destruct (find_shot s); [|reflexivity]. cbv zeta.
  destruct (gRechargingWeapon _ =? 0); cbn;
    rewrite !count_task_app, !count_task_cons, !count_task_nil; cbn; lia.
Qed.

Lemma frame_count s0 s fn a :
  frame s0 s -> fn <> T_UpdateHealth -> fn <> T_ResetScreenColor ->
  count_task fn a (tasks s) = count_task fn a (tasks s0).
Proof.
  intros [_ _ _ _ _ _ _ _ _ _ (extra & T & F)] N1 N2. rewrite T, count_task_app.
  assert (count_task fn a extra = 0) as ->; [|lia].
  clear T. induction F as [|t l Q F IH]; [reflexivity|].
  rewrite count_task_cons, IH. unfold same_task.
  destruct (task_fn_eqb fn (t_fn t)) eqn:E; [|reflexivity].
  apply task_fn_eqb_eq in E. destruct Q; congruence.
Qed.

Lemma Receiver_frame_or_shoot c s :
  frame s (Receiver c s) \/ Receiver c s = Shoot s.
Proof.
  destruct (Receiver_cases c s) as [E|[E|[E|[E|[E|E]]]]]; rewrite E;
    auto using MoveLeft_frame, MoveRight_frame, MoveUp_frame, MoveDown_frame, frame_refl.
Qed.

(** Every step other than [Play] is a key press, a spawn/shift, or calm. *)
Lemma step_kinds e s s' :
  step e s = Some s' ->
  e = EPlay \/
  (exists c, e = EKey c /\ receiver s = true /\ s' = Receiver c s) \/
  (exists a rnd ts, e = ETask T_GenerateAndShift a rnd /\
     take_task T_GenerateAndShift a (tasks s) = Some ts /\
     s' = GenerateAndShift rnd (set_tasks ts s)) \/
  calm s s'.
Proof.
  destruct e as [| |argc argv|c|fn arg rnd]; simpl; intros E; auto.
  - right; right; right. inversion E; subst. apply Help_calm.
  - right; right; right. eapply Callback_calm; eauto.
  - right; left. exists c. destruct (receiver s); inversion E; auto.
  - destruct (take_task fn arg (tasks s)) as [ts|] eqn:T; inversion E; subst; clear E.
    pose proof (take_task_calm _ _ _ _ T) as C0.
    destruct fn; cbn [run_task];
      [ right; right; left; exists arg, rnd, ts; auto
      | right; right; right; apply (calm_trans _ _ _ C0) .. ].
    + apply IncreaseScore_calm.
    + apply UpdateScore_calm.
    + apply UpdateHealth_calm.
    + apply UpdateShotCooldown_calm.
    + apply UpdateDifficulty_calm.
    + apply ResetScreenColor_calm.
    + destruct arg as [k|]; [apply MoveRightShot_calm | apply calm_refl].
    + apply DecreaseCooldown_calm.
Qed.

Lemma step_health e s s' :
  step e s = Some s' -> e <> EPlay ->
  game_health (game s') <= game_health (game s).
Proof.
  intros E N.
  destruct (step_kinds e s s' E) as [P|[(c & _ & _ & ->)|[(a & rnd & ts & _ & _ & ->)|C]]].
  - congruence.
  - destruct (Receiver_frame_or_shoot c s) as [F|F].
    + apply (fr_le _ _ F).
    + rewrite F, Shoot_health. lia.
  - apply (fr_le _ _ (GenerateAndShift_frame rnd (set_tasks ts s))).
  - rewrite (calm_health _ _ C). lia.
Qed.

Lemma reachable_gs_null s : reachable s -> gs_null s.
Proof.
  induction 1 as [id adj | e s s' R IH E]; [intros k; reflexivity|].
  intros k. specialize (IH k).
  pose proof (count_task_nonneg T_GenerateAndShift (Some k) (tasks s')) as P.
  destruct (step_kinds e s s' E) as [->|[(c & _ & _ & ->)|[(a & rnd & ts & _ & T & ->)|C]]].
  - simpl in E. inversion E; subst.
    destruct (Play_effects s) as (_ & _ & Tk & _). rewrite Tk, count_task_app, IH.
    reflexivity.
  - destruct (Receiver_frame_or_shoot c s) as [F|F].
    + rewrite (frame_count _ _ _ _ F); [exact IH | discriminate | discriminate].
    + rewrite F, Shoot_tasks_collider. exact IH.
  - rewrite (frame_count _ _ _ _ (GenerateAndShift_frame rnd (set_tasks ts s)));
      [|discriminate|discriminate].
    pose proof (take_task_le _ _ T_GenerateAndShift (Some k) _ _ T) as L.
    cbn. pose proof (count_task_nonneg T_GenerateAndShift (Some k) ts). lia.
  - pose proof (calm_gs _ _ C T_GenerateAndShift (Some k) (or_introl eq_refl)). lia.
Qed.

(** ** Health and the end of a round *)

Lemma count_task_pos fn a ts :
  0 < count_task fn a ts -> exists t, In t ts /\ same_task fn a t = true.
Proof.
  induction ts as [|t ts IH]; [rewrite count_task_nil; lia|].
  rewrite count_task_cons. destruct (same_task fn a t) eqn:E.
  - intros _. exists t. simpl; auto.
  - intros P. destruct IH as (u & I & S); [lia|]. exists u. simpl; auto.
Qed.

Lemma GameOver_receiver s : receiver (GameOver s) = false.
Proof. rewrite GameOver_unfold. reflexivity. Qed.

Lemma GameOver_gameovers s : gameovers (GameOver s) = gameovers s + 1.
Proof.
  unfold gameovers. rewrite GameOver_unfold. cbn.
  destruct (release_all_rest (Task_Remove T_IncreaseScore None
              (Task_Remove T_GenerateAndShift None s))) as (_ & _ & _ & _ & O & _).
  rewrite O. cbn. lia.
Qed.

Lemma GameOver_round_over s : reachable s -> round_over (GameOver s).
Proof.
  intros R. pose proof (reachable_Inv s R) as H.
  split; [apply GameOver_receiver|].
  intros fn a C.
  pose proof (calm_gs _ _ (GameOver_calm s s (calm_refl s)) fn a C) as L.
  pose proof (count_task_nonneg fn a (tasks (GameOver s))) as P.
  destruct C as [-> | ->].
  - destruct a as [k|].
    + rewrite (reachable_gs_null s R k) in L. lia.
    + apply (GameOver_periodic_tasks s).
  - destruct (Z_le_gt_dec (count_task T_MoveRightShot a (tasks s)) 0) as [Z0|Pos]; [lia|].
    destruct (count_task_pos T_MoveRightShot a (tasks s)) as (t & I & S); [lia|].
    apply same_task_eq in S as [F A].
    destruct (pool_tasks _ _ (inv_pool s H) t I F) as (_ & k & Ak & K).
    assert (a = Some k) as -> by congruence.
    apply (GameOver_releases_all s k H K).
Qed.

Lemma round_over_step s e s' :
  round_over s -> step e s = Some s' -> e <> EPlay ->
  round_over s' /\ health s' = health s /\
  (forall c, e <> EKey c) /\
  (forall fn a rnd, e = ETask fn a rnd -> ~ collider fn).
Proof.
  intros [Rv Ct] E N.
  assert (forall fn a rnd, e = ETask fn a rnd -> ~ collider fn) as NC.
  { intros fn a rnd -> C. simpl in E.
    destruct (take_task fn a (tasks s)) as [ts|] eqn:T; [|discriminate].
    apply take_task_count in T. rewrite (Ct fn a C) in T. lia. }
  destruct (step_kinds e s s' E) as [P|[(c & _ & Rt & _)|[(a & rnd & ts & -> & _ & _)|C]]].
  - congruence.
  - congruence.
  - exfalso. apply (NC _ _ _ eq_refl). left; reflexivity.
  - split; [split|split; [|split]].
    + apply (calm_recv _ _ C Rv).
    + intros fn a Cl. pose proof (calm_gs _ _ C fn a Cl) as L.
      pose proof (count_task_nonneg fn a (tasks s')). rewrite (Ct fn a Cl) in L. lia.
    + apply (calm_health _ _ C).
    + intros c ->. simpl in E. rewrite Rv in E. discriminate.
    + exact NC.
Qed.

Lemma gameovers_emit c s : quiet c -> gameovers (emit c s) = gameovers s.
Proof. intros Q. unfold gameovers. destruct c; cbn in *; tauto. Qed.

Lemma UpdateHealth_gameovers s :
  gameovers (UpdateHealth s) = gameovers s + (if health s =? 0 then 1 else 0).
Proof.
  unfold UpdateHealth, health, Game_SetColor, Game_Printf, Game_CharXY. cbv zeta.
  change (game_health (game (emit (C_SetColor ForegroundRed) (emit (C_Printf "Health: " [])
            (emit (C_CharXY CR 0 (MAP_HEIGHT + 2)) s))))) with (game_health (game s)).
  destruct (Z.leb_spec 3 (game_health (game s))).
  { destruct (Z.eqb_spec (game_health (game s)) 0); [lia|].
    rewrite !gameovers_emit by exact I. lia. }
  destruct (Z.eqb_spec (game_health (game s)) 2) as [E2|N2].
  { rewrite E2. rewrite !gameovers_emit by exact I. cbn. lia. }
  destruct (Z.eqb_spec (game_health (game s)) 1) as [E1|N1].
  { rewrite E1. rewrite !gameovers_emit by exact I. cbn. lia. }
  destruct (Z.eqb_spec (game_health (game s)) 0) as [E0|N0].
  - rewrite gameovers_emit by exact I. rewrite GameOver_gameovers.
    rewrite !gameovers_emit by exact I. reflexivity.
  - rewrite !gameovers_emit by exact I. lia.
Qed.

(** C4, as stated, fails: in that round health reaches 0 once and
    [Game_GameOver] is called twice. *)
Lemma GameOver_twice_in_a_round :
  List.length (filter (fun e => match e with EPlay => true | _ => false end)
                 round_two_pending) = 1%nat /\
  option_map (fun s => (health s, gameovers s)) (run round_two_pending demo_boot)
  = Some (0, 2).
Proof. split; vm_compute; reflexivity. Qed.

(** ** The difficulty ramp *)

Lemma UpdateScore_chain s : UpdateScore s = UpdateScore_with thresholds s.
Proof. reflexivity. Qed.

Lemma UpdateScore_part_000_chain s :
  UpdateScore_part_000 s = UpdateScore_with thresholds_part_000 s.
Proof. reflexivity. Qed.

Section Ramp.

Variable table : list Z.
Hypothesis table_ascending : ascending table = true.
Hypothesis table_positive : forallb (fun t => 0 <? t) table = true.

Lemma tier_of_cons t rest sc :
  tier_of (t :: rest) sc = (if t <=? sc then 1 else 0) + tier_of rest sc.
Proof.
  unfold tier_of. cbn [filter]. destruct (t <=? sc); cbn [List.length]; lia.
Qed.

Lemma tier_of_above l sc :
  forallb (fun u => sc <? u) l = true -> tier_of l sc = 0 /\ is_threshold l sc = false.
Proof.
  induction l as [|t l IH]; [split; reflexivity|].
  cbn [forallb]. intros H. apply andb_true_iff in H as [A B].
  destruct (IH B) as [T E]. rewrite tier_of_cons, T. cbn [is_threshold existsb].
  fold (is_threshold l sc). rewrite E. b2p.
  destruct (Z.leb_spec t sc); [lia|]. destruct (Z.eqb_spec sc t); [lia|]. auto.
Qed.

Lemma is_threshold_reached l sc :
  ascending l = true -> is_threshold l sc = true -> 1 <= tier_of l sc.
Proof.
  induction l as [|t l IH]; [discriminate|].
  cbn [ascending is_threshold existsb]. intros A H.
  apply andb_true_iff in A as [A1 A2]. rewrite tier_of_cons.
  pose proof (Zle_0_nat (List.length (filter (fun t => t <=? sc) l))) as P.
  fold (tier_of l sc) in P.
  destruct (Z.eqb_spec sc t) as [->|N].
  - rewrite Z.leb_refl. lia.
  - simpl in H. specialize (IH A2 H). destruct (t <=? sc); lia.
Qed.

Lemma chain_probability l : forall k s,
  ascending l = true ->
  probability (chain k l s) =
  if is_threshold l (score s)
  then STARTING_DIFFICULTY - (k + tier_of l (score s) - 1)
  else probability s.
Proof.
  induction l as [|t l IH]; intros k s A; [reflexivity|].
  cbn [ascending] in A. apply andb_true_iff in A as [A1 A2].
  cbn [chain is_threshold existsb]. fold (is_threshold l (score s)).
  rewrite tier_of_cons. unfold score in *.
  destruct (Z.eqb_spec (game_score (game s)) t) as [E|N].
  - rewrite E in *. destruct (tier_of_above l t A1) as [T _]. rewrite T, Z.leb_refl.
    cbv iota. cbn [orb]. unfold probability, set_difficulty, Task_Queue, Task_Schedule.
    cbn [asteroidSpawnProbability set_tasks set_asteroidSpawnProbability]. lia.
  - cbn [orb]. rewrite IH by exact A2. unfold score.
    destruct (is_threshold l (game_score (game s))) eqn:I; [|reflexivity].
    assert (t <= game_score (game s)) as L.
    { (* the score equals a later, larger entry *)
      clear - A1 I. induction l as [|u l IHl]; [discriminate|].
      cbn [forallb] in A1. apply andb_true_iff in A1 as [B1 B2].
      cbn [is_threshold existsb] in I. apply orb_true_iff in I as [I|I].
      - b2p. lia.
      - apply IHl; auto. }
    destruct (Z.leb_spec t (game_score (game s))); lia.
Qed.

Lemma chain_game l : forall k s, game (chain k l s) = game s.
Proof.
  induction l as [|t l IH]; intros k s; [reflexivity|].
  cbn [chain]. destruct (_ =? t); [reflexivity | apply IH].
Qed.

Lemma UpdateScore_with_probability s :
  probability (UpdateScore_with table s) =
  if is_threshold table (score s)
  then STARTING_DIFFICULTY - tier_of table (score s)
  else probability s.
Proof.
  unfold UpdateScore_with. rewrite chain_probability by exact table_ascending.
  change (score (Game_Printf "Score: %d" [game_score (game s)]
            (Game_CharXY CR 0 (MAP_HEIGHT + 1) s))) with (score s).
  destruct (is_threshold table (score s)); [lia | reflexivity].
Qed.

Lemma UpdateScore_with_score s : score (UpdateScore_with table s) = score s.
Proof. unfold UpdateScore_with, score. rewrite chain_game. reflexivity. Qed.

(** Passing from [n] to [n+1] raises the tier exactly when [n+1] is an
    entry of the table, and then by one. *)
Lemma tier_of_succ l n :
  ascending l = true ->
  tier_of l (n + 1) = tier_of l n + (if is_threshold l (n + 1) then 1 else 0).
Proof.
  induction l as [|t l IH]; [reflexivity|].
  cbn [ascending]. intros A. apply andb_true_iff in A as [A1 A2].
  rewrite !tier_of_cons. cbn [is_threshold existsb]. fold (is_threshold l (n + 1)).
  destruct (Z.eqb_spec (n + 1) t) as [E|N].
  - subst t. destruct (tier_of_above l (n + 1) A1) as [T _].
    assert (tier_of l n = 0) as T0.
    { pose proof (IH A2) as S. rewrite T in S.
      pose proof (Zle_0_nat (List.length (filter (fun t => t <=? n) l))) as P.
      fold (tier_of l n) in P. destruct (is_threshold l (n + 1)); lia. }
    rewrite T, T0, Z.leb_refl. destruct (Z.leb_spec (n + 1) n); cbn [orb]; lia.
  - cbn [orb]. rewrite (IH A2).
    destruct (Z.leb_spec t (n + 1)), (Z.leb_spec t n); lia.
Qed.

Lemma IncreaseScore_score s : score (IncreaseScore s) = int16 (score s + 1).
Proof. reflexivity. Qed.

Lemma IncreaseScore_probability s : probability (IncreaseScore s) = probability s.
Proof. reflexivity. Qed.

Lemma ticks_closed_form s n :
  score s = 0 -> probability s = STARTING_DIFFICULTY -> Z.of_nat n <= INT_MAX ->
  score (ticks (UpdateScore_with table) n s) = Z.of_nat n /\
  probability (ticks (UpdateScore_with table) n s)
    = STARTING_DIFFICULTY - tier_of table (Z.of_nat n).
Proof.
  intros S0 P0. induction n as [|n IH]; intros B.
  - change (ticks (UpdateScore_with table) 0 s) with s.
    change (Z.of_nat 0) with 0. rewrite S0, P0. split; [reflexivity|].
    destruct (tier_of_above table 0 table_positive) as [T _]. rewrite T. lia.
  - destruct IH as [IS IP]; [lia|].
    change (ticks (UpdateScore_with table) (S n) s)
      with (UpdateScore_with table (IncreaseScore (ticks (UpdateScore_with table) n s))).
    rewrite UpdateScore_with_score, UpdateScore_with_probability.
    rewrite IncreaseScore_score, IncreaseScore_probability, IS, IP.
    unfold INT_MAX in B. rewrite int16_small by (unfold INT_MAX; lia).
    replace (Z.of_nat (S n)) with (Z.of_nat n + 1) by lia.
    split; [reflexivity|].
    rewrite (tier_of_succ table (Z.of_nat n) table_ascending).
    destruct (is_threshold table (Z.of_nat n + 1)); lia.
Qed.

End Ramp.

Lemma thresholds_ok :
  ascending thresholds = true /\ forallb (fun t => 0 <? t) thresholds = true.
Proof. split; reflexivity. Qed.

Lemma thresholds_part_000_ok :
  ascending thresholds_part_000 = true /\
  forallb (fun t => 0 <? t) thresholds_part_000 = true.
Proof. split; reflexivity. Qed.

Lemma tier_of_bound table sc : 0 <= tier_of table sc <= Z.of_nat (List.length table).
Proof.
  unfold tier_of. split; [lia|]. apply inj_le, filter_length_le.
Qed.

(** The same ramp for any ascending table of positive scores, hence for
    both copies of [UpdateScore]. *)
Lemma ramp_for_table table s n :
  ascending table = true -> forallb (fun t => 0 <? t) table = true ->
  score s = 0 -> probability s = STARTING_DIFFICULTY -> Z.of_nat n < INT_MAX ->
  score (ticks (UpdateScore_with table) n s) = Z.of_nat n /\
  probability (ticks (UpdateScore_with table) n s)
    = STARTING_DIFFICULTY - tier_of table (Z.of_nat n) /\
  probability (ticks (UpdateScore_with table) (S n) s)
    = probability (ticks (UpdateScore_with table) n s)
      - (if is_threshold table (Z.of_nat n + 1) then 1 else 0).
Proof.
  intros A P S0 P0 B.
  destruct (ticks_closed_form table A P s n S0 P0) as [Sn Pn]; [lia|].
  destruct (ticks_closed_form table A P s (S n) S0 P0) as [_ PS]; [lia|].
  split; [exact Sn|]. split; [exact Pn|].
  rewrite PS, Pn. replace (Z.of_nat (S n)) with (Z.of_nat n + 1) by lia.
  rewrite (tier_of_succ table (Z.of_nat n) A).
  destruct (is_threshold table (Z.of_nat n + 1)); lia.
Qed.

Lemma ramp_part_000 s n :
  score s = 0 -> probability s = STARTING_DIFFICULTY -> Z.of_nat n < INT_MAX ->
  probability (ticks UpdateScore_part_000 (S n) s)
    = probability (ticks UpdateScore_part_000 n s)
      - (if is_threshold thresholds_part_000 (Z.of_nat n + 1) then 1 else 0).
Proof.
  intros S0 P0 B.
  apply (ramp_for_table thresholds_part_000 s n); auto; reflexivity.
Qed.

(** C5 (as amended). In every reachable state the spawn probability lies
    in [1, 24].  A run of UpdateScore sets it to 24 - k when the score it
    reads equals the k-th threshold and leaves it unchanged otherwise.  So,
    in a round that starts with probability 24 at score 0 and in which
    UpdateScore reads every value of the rising score, the probability after
    the score has reached n is 24 minus the number of thresholds reached: it
    never rises, it drops by exactly 1 when the score reaches a threshold,
    once per threshold, and stays at least 1. *)
Theorem difficulty_ramp (r s : state) (n : nat) :
  reachable r ->
  score s = 0 -> probability s = STARTING_DIFFICULTY -> Z.of_nat n < INT_MAX ->
  1 <= probability r <= STARTING_DIFFICULTY /\
  probability (UpdateScore r) =
    (if is_threshold thresholds (score r)
     then STARTING_DIFFICULTY - tier (score r) else probability r) /\
  score (ticks UpdateScore n s) = Z.of_nat n /\
  probability (ticks UpdateScore n s) = STARTING_DIFFICULTY - tier (Z.of_nat n) /\
  probability (ticks UpdateScore (S n) s)
    = probability (ticks UpdateScore n s)
      - (if is_threshold thresholds (Z.of_nat n + 1) then 1 else 0) /\
  1 <= probability (ticks UpdateScore (S n) s) <= probability (ticks UpdateScore n s).
Proof.
  intros R S0 P0 B.
  pose proof (inv_prob r (reachable_Inv r R)) as Pr.
  destruct thresholds_ok as [A P].
  destruct (ramp_for_table thresholds s n A P S0 P0 B) as (Sn & Pn & PS).
  change (ticks (UpdateScore_with thresholds)) with (ticks UpdateScore) in *.
  fold tier in *.
  split; [unfold probability, STARTING_DIFFICULTY; lia|].
  split; [apply (UpdateScore_with_probability thresholds A r)|].
  split; [exact Sn|]. split; [exact Pn|]. split; [exact PS|].
  rewrite PS, Pn.
  pose proof (tier_of_bound thresholds (Z.of_nat n)) as T1.
  pose proof (tier_of_succ thresholds (Z.of_nat n) A) as T2.
  pose proof (tier_of_bound thresholds (Z.of_nat n + 1)) as T3.
  fold tier in *. change (Z.of_nat (List.length thresholds)) with 10 in *.
  unfold STARTING_DIFFICULTY.
  destruct (is_threshold thresholds (Z.of_nat n + 1)); lia.
Qed.

Lemma difficulty_ramp_witness :
  1 <= probability demo_play <= STARTING_DIFFICULTY /\
  probability (UpdateScore demo_play) =
    (if is_threshold thresholds (score demo_play)
     then STARTING_DIFFICULTY - tier (score demo_play) else probability demo_play) /\
  score (ticks UpdateScore 24 demo_play) = Z.of_nat 24 /\
  probability (ticks UpdateScore 24 demo_play) = STARTING_DIFFICULTY - tier (Z.of_nat 24) /\
  probability (ticks UpdateScore 25 demo_play)
    = probability (ticks UpdateScore 24 demo_play)
      - (if is_threshold thresholds (Z.of_nat 24 + 1) then 1 else 0) /\
  1 <= probability (ticks UpdateScore 25 demo_play)
    <= probability (ticks UpdateScore 24 demo_play).
Proof.
  apply (difficulty_ramp demo_play demo_play 24).
  - exact demo_play_reachable.
  - vm_compute; reflexivity.
  - vm_compute; reflexivity.
  - vm_compute; reflexivity.
Defined.

(** C5, as stated, fails: the score has crossed the first threshold (it is
    26, and was 25 on the way), no display update is pending, and the spawn
    probability is still 24. *)
Lemma threshold_25_skipped :
  option_map (fun s => (score s, probability s))
    (run (firstn 106 round_skipping_25) demo_boot) = Some (25, 24) /\
  option_map (fun s => (score s, probability s,
                        count_task T_UpdateScore None (tasks s)))
    (run round_skipping_25 demo_boot) = Some (26, 24, 0).
Proof. split; vm_compute; reflexivity. Qed.

(** ** The host sub-command *)

Lemma strcasecmp_reset_variants :
  strcasecmp "reset" "reset" = 0 /\ strcasecmp "RESET" "reset" = 0 /\
  strcasecmp "ReSeT" "reset" = 0 /\ strcasecmp "resets" "reset" <> 0 /\
  strcasecmp "play" "reset" <> 0.
Proof. repeat split; vm_compute; congruence. Qed.

(** With at least one argument the handler does what the claim says. *)
Lemma Callback_with_args argc a0 rest s :
  argc <> 0 ->
  Callback argc (a0 :: rest) s =
  if strcasecmp a0 "reset" =? 0
  then Some (Game_Log (game_id (game s)) "Scores reset" (upd_game (set_score 0) s))
  else Some (Game_Log (game_id (game s)) "command not supported" s).
Proof.
  intros N. unfold Callback. destruct (Z.eqb_spec argc 0); [contradiction|]. reflexivity.
Qed.

(** C8, at the failing input: [Callback] is called with [argc = 0] while
    the cell [argv[0]] still points to the text "reset".  The handler logs
    "too few args", goes on to compare [argv[0]], and resets the score from
    3 to 0. *)
Theorem Callback_no_args_resets_score :
  score demo_scored = 3 /\
  option_map (fun s => (score s, firstn 2 (io s))) (Callback 0 ["reset"%string] demo_scored)
  = Some (0, [C_Log 1 "Scores reset"; C_Log 1 "too few args"]) /\
  Callback 0 [] demo_scored = None.
Proof. repeat split; vm_compute; reflexivity. Qed.

(** ** Difficulty across rounds *)

Lemma Play_keeps_probability s : probability (Play s) = probability s.
Proof. apply (Play_effects s). Qed.

(** C9, at the failing input: the first round ends (one GameOver) with
    spawn probability 23; after the next Play the score, health and
    cooldown are back to 0, 3 and 6 but the spawn probability is still 23,
    and the difficulty shown at the start of the round is 2. *)
Theorem second_round_starts_harder :
  option_map (fun s => (probability s, gameovers s, health s))
    (run first_round demo_boot) = Some (23, 1, 0) /\
  option_map (fun s => (probability s, score s, health s, cooldown s,
                        nth 0 (io (UpdateDifficulty s)) C_Bell))
    (run (first_round ++ [EPlay]) demo_boot)
  = Some (23, 0, 3, 6, C_Printf "Difficulty: %d" [2]).
Proof. split; vm_compute; reflexivity. Qed.

(** ** Subscripts of the asteroid grid *)

Lemma wr_faults c r v s :
  faults (wr c r v s) = if in_bounds c r then faults s else (c, r) :: faults s.
Proof. unfold wr. destruct (in_bounds c r); reflexivity. Qed.

Lemma for_app a b body s : for_ (a ++ b) body s = for_ b body (for_ a body s).
Proof. revert s; induction a as [|i a IH]; intros s; simpl; auto. Qed.

Lemma GenerateAsteroidColumn_rows rnd s :
  GenerateAsteroidColumn rnd s = for_ (range 1 MAP_HEIGHT) (generate_row rnd) s.
Proof. reflexivity. Qed.

Lemma generate_row_faults rnd i s :
  faults (generate_row rnd i s) =
  if in_bounds MAX_COLUMNS i then faults s else (MAX_COLUMNS, i) :: faults s.
Proof.
  unfold generate_row. cbv zeta.
  destruct (_ =? 1); [destruct (_ =? 1)|]; cbn; apply wr_faults.
Qed.

(** C10, at the failing input (any state, any random draws): the last
    iteration of GenerateAsteroidColumn writes asteroids[58][17], whose
    second subscript is outside the declared bound 16; the checked access
    is [None] there.  It is the only out-of-bounds subscript of that loop. *)
Theorem GenerateAsteroidColumn_out_of_bounds rnd s :
  faults (GenerateAsteroidColumn rnd s) = (MAX_COLUMNS, MAP_HEIGHT - 1) :: faults s /\
  asteroids_get (asteroids s) MAX_COLUMNS (MAP_HEIGHT - 1) = None.
Proof.
  split; [|reflexivity].
  rewrite GenerateAsteroidColumn_rows.
  change (range 1 MAP_HEIGHT) with (range 1 (MAP_HEIGHT - 1) ++ [MAP_HEIGHT - 1]).
  rewrite for_app. cbn [for_]. rewrite generate_row_faults.
  change (in_bounds MAX_COLUMNS (MAP_HEIGHT - 1)) with false. cbv iota. f_equal.
  apply (for_inv (fun s' => faults s' = faults s)); [|reflexivity].
  intros i s1 I F. rewrite generate_row_faults.
  apply range_In in I. unfold in_bounds, MAX_COLUMNS, MAP_WIDTH, MAP_HEIGHT in *.
  destruct (Z.leb_spec 0 i), (Z.ltb_spec i (18 - 1)); try lia. exact F.
Qed.

(** ShiftAsteroidColumns, right after Play: it reads column 59, rows 1 to
    17, and uses row 17 of every column it visits; none of the subscripts
    it records is within the declared bounds. *)
Lemma ShiftAsteroidColumns_out_of_bounds :
  faults demo_play = [] /\
  faulted 59 1 (ShiftAsteroidColumns demo_play) = true /\
  faulted 59 17 (ShiftAsteroidColumns demo_play) = true /\
  faulted 1 17 (ShiftAsteroidColumns demo_play) = true /\
  forallb (fun p => negb (in_bounds (fst p) (snd p)))
          (faults (ShiftAsteroidColumns demo_play)) = true.
Proof. repeat split; vm_compute; reflexivity. Qed.

(** * Further properties of the code *)

(** ** The grid as memory *)

Lemma peek_poke_same m o v :
  0 <= o -> (Z.to_nat o < List.length m)%nat -> peek (poke m o v) o = v.
Proof. intros O L. unfold peek, poke. apply put_nat_nth_same; exact L. Qed.

Lemma peek_poke_other m o o' v :
  0 <= o -> 0 <= o' -> o <> o' -> peek (poke m o v) o' = peek m o'.
Proof. intros O O' N. unfold peek, poke. apply put_nat_nth_other. lia. Qed.

Lemma poke_length m o v : List.length (poke m o v) = List.length m.
Proof. apply put_nat_length. Qed.

Lemma poke_twice m o v w : poke (poke m o v) o w = poke m o w.
Proof. apply put_nat_twice. Qed.

Lemma wr_asteroids c r v s :
  asteroids (wr c r v s) = poke (asteroids s) (offset c r) v.
Proof. unfold wr. destruct (in_bounds c r); reflexivity. Qed.

Lemma rd_asteroids c r s : asteroids (snd (rd c r s)) = asteroids s.
Proof. unfold rd, asteroids_get. destruct (in_bounds c r); reflexivity. Qed.

Lemma rd_value c r s : fst (rd c r s) = cell s c r.
Proof. unfold rd, asteroids_get, cell. destruct (in_bounds c r); reflexivity. Qed.

Lemma range_cons lo hi : lo < hi -> range lo hi = lo :: range (lo + 1) hi.
Proof.
  intros L. unfold range.
  replace (Z.to_nat (hi - lo)) with (S (Z.to_nat (hi - (lo + 1)))) by lia.
  cbn [seq map]. f_equal; [lia|].
  rewrite <- seq_shift, map_map. apply map_ext. intros k. lia.
Qed.

Lemma range_nil lo hi : hi <= lo -> range lo hi = [].
Proof. intros L. unfold range. replace (Z.to_nat (hi - lo)) with 0%nat by lia. reflexivity. Qed.

Lemma ship_hit_asteroids cx cy s :
  asteroids (ship_hit cx cy s) = poke (asteroids s) (offset cx cy) 0.
Proof.
  unfold ship_hit. cbv zeta. destruct (0 <? _); cbn; apply wr_asteroids.
Qed.

(** One iteration of the shift, on the grid and on the ship's position. *)
Lemma shift_cell_grid column i s :
  0 <= offset column i -> (Z.to_nat (offset column i) < List.length (asteroids s))%nat ->
  asteroids (shift_cell column i s) =
    poke (asteroids s) (offset column i) (shifted s column i) /\
  ship (shift_cell column i s) = ship s.
Proof.
  intros O L. unfold shift_cell, shifted.
  pose proof (rd_value (column + 1) i s) as V1.
  pose proof (rd_asteroids (column + 1) i s) as A1.
  pose proof (rd_game (column + 1) i s) as G1.
  destruct (rd (column + 1) i s) as [v s1]. cbn [fst snd] in V1, A1, G1. subst v.
  cbv zeta.
  set (s2 := wr column i (cell s (column + 1) i) s1).
  assert (asteroids s2 = poke (asteroids s) (offset column i) (cell s (column + 1) i)) as A2
    by (subst s2; rewrite wr_asteroids, A1; reflexivity).
  assert (game s2 = game s) as G2 by (subst s2; rewrite wr_game; exact G1).
  assert (cell s2 column i = cell s (column + 1) i) as C2
    by (unfold cell at 1; rewrite A2; apply peek_poke_same; auto).
  assert (forall s3, game s3 = game s -> ship_at s3 column i = ship_at s column i) as SA
    by (intros s3 E; unfold ship_at; rewrite E; reflexivity).
  assert (forall s3, game s3 = game s -> ship s3 = ship s) as SH
    by (intros s3 E; unfold ship; rewrite E; reflexivity).
  assert (forall s3, asteroids s3 = asteroids s2 -> game s3 = game s ->
            asteroids (ship_hit column i s3)
              = poke (asteroids s) (offset column i) 0 /\
            ship (ship_hit column i s3) = ship s) as HIT.
  { intros s3 E3 G3. rewrite ship_hit_asteroids, ship_hit_ship, E3, A2, poke_twice.
    split; [reflexivity | apply SH; exact G3]. }
  pose proof (rd_value column i s2) as Va.
  pose proof (rd_asteroids column i s2) as Aa.
  pose proof (rd_game column i s2) as Ga.
  destruct (rd column i s2) as [a s3]. cbn [fst snd] in Va, Aa, Ga.
  rewrite C2 in Va. subst a. rewrite G2 in Ga.
  rewrite (SA s3 Ga).
  set (v := cell s (column + 1) i) in *.
  destruct (Z.eqb_spec v 0) as [E0|N0].
  - (* empty cell *)
    destruct (ship_at s column i) eqn:At; cbn [negb andb orb].
    + pose proof (rd_value column i s3) as Vb.
      pose proof (rd_asteroids column i s3) as Ab.
      pose proof (rd_game column i s3) as Gb.
      destruct (rd column i s3) as [b s4]. cbn [fst snd] in Vb, Ab, Gb.
      assert (b = v) as -> by (rewrite Vb; unfold cell; rewrite Aa; exact C2).
      rewrite E0. cbn [Z.eqb].
      pose proof (rd_asteroids column i s4) as Ac.
      pose proof (rd_game column i s4) as Gc.
      pose proof (rd_value column i s4) as Vc.
      destruct (rd column i s4) as [c s5]. cbn [fst snd] in Ac, Gc, Vc.
      assert (c = v) as -> by (rewrite Vc; unfold cell; rewrite Ab, Aa; exact C2).
      rewrite E0. cbn [Z.eqb].
      split; [rewrite Ac, Ab, Aa, A2; fold v; rewrite E0; reflexivity|].
      apply SH. rewrite Gc, Gb. exact Ga.
    + rewrite E0. cbn [Z.eqb orb andb].
      destruct (foundShot s3 column i);
        (split; [cbn; rewrite Aa, A2; fold v; rewrite E0; reflexivity
                | apply SH; cbn; exact Ga]).
  - destruct (Z.eqb_spec v 0) as [|_]; [contradiction|]. cbn [andb].
    pose proof (rd_value column i s3) as Vb.
    pose proof (rd_asteroids column i s3) as Ab.
    pose proof (rd_game column i s3) as Gb.
    destruct (rd column i s3) as [b s4]. cbn [fst snd] in Vb, Ab, Gb.
    assert (b = v) as -> by (rewrite Vb; unfold cell; rewrite Aa; exact C2).
    rewrite (SA s4 (eq_trans Gb Ga)).
    destruct (Z.eqb_spec v 1) as [E1|N1].
    + cbn [orb]. destruct (ship_at s column i); cbn [andb].
      * apply HIT; [rewrite Ab; exact Aa | rewrite Gb; exact Ga].
      * split; [cbn; rewrite Ab, Aa, A2; reflexivity | apply SH; cbn; rewrite Gb; exact Ga].
    + cbn [orb].
      pose proof (rd_asteroids column i s4) as Ac.
      pose proof (rd_game column i s4) as Gc.
      pose proof (rd_value column i s4) as Vc.
      destruct (rd column i s4) as [c s5]. cbn [fst snd] in Ac, Gc, Vc.
      assert (c = v) as -> by (rewrite Vc; unfold cell; rewrite Ab, Aa; exact C2).
      rewrite (SA s5 (eq_trans Gc (eq_trans Gb Ga))).
      destruct (Z.eqb_spec v 2) as [E2|N2].
      * destruct (ship_at s column i); cbn [andb].
        -- apply HIT; [rewrite Ac, Ab; exact Aa | rewrite Gc, Gb; exact Ga].
        -- split; [cbn; rewrite Ac, Ab, Aa, A2; reflexivity
                  | apply SH; cbn; rewrite Gc, Gb; exact Ga].
      * rewrite andb_false_r.
        split; [rewrite Ac, Ab, Aa, A2; reflexivity | apply SH; rewrite Gc, Gb; exact Ga].
Qed.

(** ** [ShiftAsteroidColumns] moves every column one step left *)

Lemma swept_start s : swept s s (offset 1 1).
Proof.
  repeat split; auto.
  intros c r C R O. exfalso. unfold offset, MAX_COLUMNS, MAP_WIDTH, MAP_HEIGHT in *. lia.
Qed.

Lemma swept_step s0 s column i :
  image_ok s0 -> 1 <= column <= MAX_COLUMNS -> 1 <= i < MAP_HEIGHT ->
  swept s0 s (offset column i) -> swept s0 (shift_cell column i s) (offset column i + 1).
Proof.
  intros Im C I (Sh & Len & Done & Rest).
  unfold image_ok in Im.
  assert (0 <= offset column i) as O0
    by (unfold offset, MAX_COLUMNS, MAP_WIDTH, MAP_HEIGHT in *; lia).
  assert (Z.to_nat (offset column i) < List.length (asteroids s))%nat as L
    by (rewrite Len; unfold offset, MAX_COLUMNS, MAP_WIDTH, MAP_HEIGHT in *; lia).
  destruct (shift_cell_grid column i s O0 L) as [A S].
  assert (shifted s column i = shifted s0 column i) as E.
  { unfold shifted, ship_at, cell. unfold ship in Sh. inversion Sh as [[X Y]].
    rewrite X, Y, Rest; [reflexivity| |];
      unfold offset, MAX_COLUMNS, MAP_WIDTH, MAP_HEIGHT in *; lia. }
  split; [rewrite S; exact Sh|].
  split; [rewrite A, poke_length; exact Len|].
  split.
  - intros c r Cc Rr Lt. unfold cell. rewrite A.
    destruct (Z.eq_dec (offset c r) (offset column i)) as [Eo|No].
    + assert (c = column /\ r = i) as [-> ->]
        by (unfold offset, MAX_COLUMNS, MAP_WIDTH, MAP_HEIGHT in *; lia).
      rewrite peek_poke_same; auto.
    + rewrite peek_poke_other; auto;
        [apply Done; auto; lia
        | unfold offset, MAX_COLUMNS, MAP_WIDTH, MAP_HEIGHT in *; lia].
  - intros o O Out. rewrite A.
    rewrite peek_poke_other; auto; [apply Rest; auto; lia|].
    unfold offset, MAX_COLUMNS, MAP_WIDTH, MAP_HEIGHT in *; lia.
Qed.

Lemma swept_rows s0 column n : forall i s,
  image_ok s0 -> 1 <= column <= MAX_COLUMNS -> 1 <= i -> i + Z.of_nat n <= MAP_HEIGHT ->
  swept s0 s (offset column i) ->
  swept s0 (for_ (range i (i + Z.of_nat n)) (fun r s => shift_cell column r s) s)
        (offset column (i + Z.of_nat n)).
Proof.
  induction n as [|n IH]; intros i s Im C I B Sw.
  - rewrite range_nil by lia. cbn [for_]. replace (i + Z.of_nat 0) with i by lia. exact Sw.
  - rewrite range_cons by lia. cbn [for_].
    replace (i + Z.of_nat (S n)) with ((i + 1) + Z.of_nat n) by lia.
    apply IH; auto; try lia.
    replace (offset column (i + 1)) with (offset column i + 1) by (unfold offset; lia).
    apply swept_step; auto. lia.
Qed.

Lemma swept_columns s0 n : forall column s,
  image_ok s0 -> 1 <= column -> column + Z.of_nat n <= MAP_WIDTH - 1 ->
  swept s0 s (offset column 1) ->
  swept s0 (for_ (range column (column + Z.of_nat n)) (fun column s =>
              for_ (range 1 MAP_HEIGHT) (fun i s => shift_cell column i s) s) s)
        (offset (column + Z.of_nat n) 1).
Proof.
  induction n as [|n IH]; intros column s Im C B Sw.
  - rewrite range_nil by lia. cbn [for_].
    replace (column + Z.of_nat 0) with column by lia. exact Sw.
  - rewrite range_cons by lia. cbn [for_].
    replace (column + Z.of_nat (S n)) with ((column + 1) + Z.of_nat n) by lia.
    apply IH; auto; try lia.
    replace (offset (column + 1) 1) with (offset column (1 + Z.of_nat 17))
      by (unfold offset, MAP_HEIGHT; lia).
    change MAP_HEIGHT with (1 + Z.of_nat 17).
    apply swept_rows; auto; unfold MAX_COLUMNS, MAP_WIDTH, MAP_HEIGHT in *; lia.
Qed.

Lemma ShiftAsteroidColumns_swept s :
  image_ok s -> swept s (ShiftAsteroidColumns s) (offset (MAP_WIDTH - 1) 1).
Proof.
  intros Im. unfold ShiftAsteroidColumns.
  change (MAP_WIDTH - 1) with (1 + Z.of_nat 58).
  apply swept_columns; auto; [lia | unfold MAP_WIDTH; lia | apply swept_start].
Qed.

(** X1. On a memory image that covers the grid, ShiftAsteroidColumns
    leaves the ship where it is and puts into every cell of columns 1 to 58,
    rows 1 to 17, the value its right neighbour had before the call (0
    instead, when that value is an obstacle, 1 or 2, arriving on the ship's
    cell); no byte before asteroids[1][1] or after asteroids[58][17] is
    changed.  No column is skipped or duplicated. *)
Theorem ShiftAsteroidColumns_shifts s :
  image_ok s ->
  ship (ShiftAsteroidColumns s) = ship s /\
  (forall c r, 1 <= c <= MAX_COLUMNS -> 1 <= r < MAP_HEIGHT ->
     cell (ShiftAsteroidColumns s) c r = shifted s c r) /\
  (forall o, 0 <= o -> o < offset 1 1 \/ offset MAX_COLUMNS (MAP_HEIGHT - 1) < o ->
     peek (asteroids (ShiftAsteroidColumns s)) o = peek (asteroids s) o).
Proof.
  intros Im. destruct (ShiftAsteroidColumns_swept s Im) as (Sh & _ & Done & Rest).
  split; [exact Sh|]. split.
  - intros c r C R. apply Done; auto.
    unfold offset, MAX_COLUMNS, MAP_WIDTH, MAP_HEIGHT in *. lia.
  - intros o O Out. apply Rest; auto.
    unfold offset, MAX_COLUMNS, MAP_WIDTH, MAP_HEIGHT in *. lia.
Qed.

Lemma demo_play_image : image_ok demo_play.
Proof. vm_compute. reflexivity. Defined.

Lemma ShiftAsteroidColumns_shifts_witness :
  ship (ShiftAsteroidColumns demo_play) = ship demo_play /\
  (forall c r, 1 <= c <= MAX_COLUMNS -> 1 <= r < MAP_HEIGHT ->
     cell (ShiftAsteroidColumns demo_play) c r = shifted demo_play c r) /\
  (forall o, 0 <= o -> o < offset 1 1 \/ offset MAX_COLUMNS (MAP_HEIGHT - 1) < o ->
     peek (asteroids (ShiftAsteroidColumns demo_play)) o = peek (asteroids demo_play) o).
Proof. apply (ShiftAsteroidColumns_shifts demo_play). exact demo_play_image. Defined.

(** ** [GenerateAsteroidColumn] fills the trailing column *)

Lemma generate_row_grid rnd i s :
  asteroids (generate_row rnd i s) = poke (asteroids s) (offset MAX_COLUMNS i) (spawned rnd i) /\
  game (generate_row rnd i s) = game s /\
  shots (generate_row rnd i s) = shots s /\
  tasks (generate_row rnd i s) = tasks s.
Proof.
  unfold generate_row, spawned. cbv zeta.
  destruct (_ =? 1); [destruct (_ =? 1)|]; cbn;
    rewrite wr_asteroids, wr_game; unfold wr; destruct (in_bounds _ _); auto.
Qed.

Lemma grown_step rnd s0 s i :
  image_ok s0 -> 1 <= i < MAP_HEIGHT ->
  grown rnd s0 s i -> grown rnd s0 (generate_row rnd i s) (i + 1).
Proof.
  intros Im I (G & Sh & T & Len & Done & Rest).
  destruct (generate_row_grid rnd i s) as (A & G' & Sh' & T').
  unfold image_ok in Im.
  assert (0 <= offset MAX_COLUMNS i /\
          (Z.to_nat (offset MAX_COLUMNS i) < List.length (asteroids s))%nat) as [O0 L]
    by (rewrite Len; unfold offset, MAX_COLUMNS, MAP_WIDTH, MAP_HEIGHT in *; lia).
  split; [congruence|]. split; [congruence|]. split; [congruence|].
  split; [rewrite A, poke_length; exact Len|].
  split.
  - intros r R. unfold cell. rewrite A.
    destruct (Z.eq_dec r i) as [->|N].
    + apply peek_poke_same; auto.
    + rewrite peek_poke_other; auto; [apply Done; lia | |];
        unfold offset, MAX_COLUMNS, MAP_WIDTH, MAP_HEIGHT in *; lia.
  - intros o O Out. rewrite A.
    rewrite peek_poke_other; auto;
      [apply Rest; auto|]; unfold offset, MAX_COLUMNS, MAP_WIDTH, MAP_HEIGHT in *; lia.
Qed.

Lemma grown_rows rnd s0 n : forall i s,
  image_ok s0 -> 1 <= i -> i + Z.of_nat n <= MAP_HEIGHT ->
  grown rnd s0 s i ->
  grown rnd s0 (for_ (range i (i + Z.of_nat n)) (generate_row rnd) s) (i + Z.of_nat n).
Proof.
  induction n as [|n IH]; intros i s Im I B Gr.
  - rewrite range_nil by lia. cbn [for_]. replace (i + Z.of_nat 0) with i by lia. exact Gr.
  - rewrite range_cons by lia. cbn [for_].
    replace (i + Z.of_nat (S n)) with ((i + 1) + Z.of_nat n) by lia.
    apply IH; auto; try lia. apply grown_step; auto. lia.
Qed.

Lemma GenerateAsteroidColumn_grown rnd s :
  image_ok s -> grown rnd s (GenerateAsteroidColumn rnd s) MAP_HEIGHT.
Proof.
  intros Im. rewrite GenerateAsteroidColumn_rows.
  change MAP_HEIGHT with (1 + Z.of_nat 17).
  apply grown_rows; auto; [lia | unfold MAP_HEIGHT; lia|].
  repeat split; auto. intros r R. lia.
Qed.

(** X2. On a memory image that covers the grid, GenerateAsteroidColumn
    stores in each row 1 to 17 of the trailing column (column 58) the value
    decided by the draws for that row: 0 when the first draw is not 1,
    otherwise 1 or 2 according to the second draw.  It changes no other
    byte (so no cell of columns 0 to 57), and leaves the game structure, the
    shots and the scheduler as they are. *)
Theorem GenerateAsteroidColumn_spawns rnd s :
  image_ok s ->
  (forall r, 1 <= r < MAP_HEIGHT ->
     cell (GenerateAsteroidColumn rnd s) MAX_COLUMNS r = spawned rnd r) /\
  (forall c r, 0 <= c < MAX_COLUMNS -> 0 <= r < MAP_HEIGHT ->
     cell (GenerateAsteroidColumn rnd s) c r = cell s c r) /\
  (forall o, 0 <= o -> o < offset MAX_COLUMNS 1 \/ offset MAX_COLUMNS MAP_HEIGHT <= o ->
     peek (asteroids (GenerateAsteroidColumn rnd s)) o = peek (asteroids s) o) /\
  game (GenerateAsteroidColumn rnd s) = game s /\
  shots (GenerateAsteroidColumn rnd s) = shots s /\
  tasks (GenerateAsteroidColumn rnd s) = tasks s.
Proof.
  intros Im. destruct (GenerateAsteroidColumn_grown rnd s Im) as (G & Sh & T & _ & Done & Rest).
  split; [exact Done|]. split; [|split; [exact Rest|auto]].
  intros c r C R. unfold cell. apply Rest;
    unfold offset, MAX_COLUMNS, MAP_WIDTH, MAP_HEIGHT in *; lia.
Qed.

Lemma GenerateAsteroidColumn_spawns_witness :
  (forall r, 1 <= r < MAP_HEIGHT ->
     cell (GenerateAsteroidColumn rnd_all demo_play) MAX_COLUMNS r = spawned rnd_all r) /\
  (forall c r, 0 <= c < MAX_COLUMNS -> 0 <= r < MAP_HEIGHT ->
     cell (GenerateAsteroidColumn rnd_all demo_play) c r = cell demo_play c r) /\
  (forall o, 0 <= o -> o < offset MAX_COLUMNS 1 \/ offset MAX_COLUMNS MAP_HEIGHT <= o ->
     peek (asteroids (GenerateAsteroidColumn rnd_all demo_play)) o
       = peek (asteroids demo_play) o) /\
  game (GenerateAsteroidColumn rnd_all demo_play) = game demo_play /\
  shots (GenerateAsteroidColumn rnd_all demo_play) = shots demo_play /\
  tasks (GenerateAsteroidColumn rnd_all demo_play) = tasks demo_play.
Proof. apply (GenerateAsteroidColumn_spawns rnd_all demo_play). exact demo_play_image. Defined.

(** ** One spawn/shift tick *)

(** X3. After one GenerateAndShift tick the column just spawned is found in
    column 57, not in the trailing column 58: row r of column 57 holds the
    value drawn for row r (0 instead, if it is an obstacle and the ship is in
    that cell).  Every other cell of columns 1 to 58 holds what its right
    neighbour held before the tick; for column 58 that neighbour is column
    59, which lies behind the array. *)
Theorem GenerateAndShift_advances rnd s :
  image_ok s ->
  ship (GenerateAndShift rnd s) = ship s /\
  (forall r, 1 <= r < MAP_HEIGHT ->
     cell (GenerateAndShift rnd s) (MAX_COLUMNS - 1) r =
     if ship_at s (MAX_COLUMNS - 1) r && ((spawned rnd r =? 1) || (spawned rnd r =? 2))
     then 0 else spawned rnd r) /\
  (forall c r, 1 <= c <= MAX_COLUMNS -> c <> MAX_COLUMNS - 1 -> 1 <= r < MAP_HEIGHT ->
     cell (GenerateAndShift rnd s) c r = shifted s c r).
Proof.
  intros Im. unfold GenerateAndShift.
  destruct (GenerateAsteroidColumn_grown rnd s Im) as (G & _ & _ & Len & Done & Rest).
  assert (image_ok (GenerateAsteroidColumn rnd s)) as Im'
    by (unfold image_ok in *; rewrite Len; exact Im).
  destruct (ShiftAsteroidColumns_swept _ Im') as (Sh & _ & Sw & _).
  assert (ship (GenerateAsteroidColumn rnd s) = ship s) as S0
    by (unfold ship; rewrite G; reflexivity).
  split; [rewrite Sh; exact S0|]. split.
  - intros r R. rewrite Sw;
      [| unfold MAX_COLUMNS, MAP_WIDTH; lia | exact R
       | unfold offset, MAX_COLUMNS, MAP_WIDTH, MAP_HEIGHT in *; lia].
    unfold shifted, ship_at. rewrite G.
    replace (MAX_COLUMNS - 1 + 1) with MAX_COLUMNS by lia.
    rewrite (Done r R). reflexivity.
  - intros c r C N R. rewrite Sw;
      [| exact C | exact R | unfold offset, MAX_COLUMNS, MAP_WIDTH, MAP_HEIGHT in *; lia].
    unfold shifted, ship_at, cell. rewrite G.
    rewrite Rest; [reflexivity| |];
      unfold offset, MAX_COLUMNS, MAP_WIDTH, MAP_HEIGHT in *; lia.
Qed.

Lemma GenerateAndShift_advances_witness :
  ship (GenerateAndShift rnd_all demo_play) = ship demo_play /\
  (forall r, 1 <= r < MAP_HEIGHT ->
     cell (GenerateAndShift rnd_all demo_play) (MAX_COLUMNS - 1) r =
     if ship_at demo_play (MAX_COLUMNS - 1) r
        && ((spawned rnd_all r =? 1) || (spawned rnd_all r =? 2))
     then 0 else spawned rnd_all r) /\
  (forall c r, 1 <= c <= MAX_COLUMNS -> c <> MAX_COLUMNS - 1 -> 1 <= r < MAP_HEIGHT ->
     cell (GenerateAndShift rnd_all demo_play) c r = shifted demo_play c r).
Proof. apply (GenerateAndShift_advances rnd_all demo_play). exact demo_play_image. Defined.

(** ** [Play] *)

Lemma cleared_step s0 s i j :
  array_ok s0 -> 0 <= i < MAP_WIDTH - 1 -> 0 <= j < MAP_HEIGHT - 1 ->
  cleared s0 s (offset i j) -> cleared s0 (wr i j 0 s) (offset i j + 1).
Proof.
  intros Im I J (F & Len & Z0 & Rest). unfold array_ok in Im.
  assert (0 <= offset i j /\ (Z.to_nat (offset i j) < List.length (asteroids s))%nat) as [O0 L]
    by (rewrite Len; unfold offset, MAP_WIDTH, MAP_HEIGHT in *; nia).
  split.
  { rewrite wr_faults. replace (in_bounds i j) with true; [exact F|].
    symmetry. unfold in_bounds. apply andb_true_iff; split;
      [apply andb_true_iff; split; [apply andb_true_iff; split|]|];
      try apply Z.leb_le; try apply Z.ltb_lt; lia. }
  split; [rewrite wr_asteroids, poke_length; exact Len|].
  rewrite wr_asteroids. split.
  - intros o O. destruct (Z.eq_dec o (offset i j)) as [->|N].
    + apply peek_poke_same; auto.
    + rewrite peek_poke_other; auto; try lia. apply Z0. lia.
  - intros o O. rewrite peek_poke_other; auto; try lia. apply Rest. lia.
Qed.

Lemma cleared_rows s0 i n : forall j s,
  array_ok s0 -> 0 <= i < MAP_WIDTH - 1 -> 0 <= j -> j + Z.of_nat n <= MAP_HEIGHT - 1 ->
  cleared s0 s (offset i j) ->
  cleared s0 (for_ (range j (j + Z.of_nat n)) (fun j s => wr i j 0 s) s)
          (offset i (j + Z.of_nat n)).
Proof.
  induction n as [|n IH]; intros j s Im I J B Cl.
  - rewrite range_nil by lia. cbn [for_]. replace (j + Z.of_nat 0) with j by lia. exact Cl.
  - rewrite range_cons by lia. cbn [for_].
    replace (j + Z.of_nat (S n)) with ((j + 1) + Z.of_nat n) by lia.
    apply IH; auto; try lia.
    replace (offset i (j + 1)) with (offset i j + 1) by (unfold offset; lia).
    apply cleared_step; auto. lia.
Qed.

Lemma cleared_columns s0 n : forall i s,
  array_ok s0 -> 0 <= i -> i + Z.of_nat n <= MAP_WIDTH - 1 ->
  cleared s0 s (offset i 0) ->
  cleared s0 (for_ (range i (i + Z.of_nat n)) (fun i s =>
                for_ (range 0 (MAP_HEIGHT - 1)) (fun j s => wr i j 0 s) s) s)
          (offset (i + Z.of_nat n) 0).
Proof.
  induction n as [|n IH]; intros i s Im I B Cl.
  - rewrite range_nil by lia. cbn [for_]. replace (i + Z.of_nat 0) with i by lia. exact Cl.
  - rewrite range_cons by lia. cbn [for_].
    replace (i + Z.of_nat (S n)) with ((i + 1) + Z.of_nat n) by lia.
    apply IH; auto; try lia.
    replace (offset (i + 1) 0) with (offset i (0 + Z.of_nat 17))
      by (unfold offset, MAP_HEIGHT; lia).
    change (MAP_HEIGHT - 1) with (0 + Z.of_nat 17).
    apply cleared_rows; auto; unfold MAP_WIDTH, MAP_HEIGHT in *; lia.
Qed.

Lemma Play_grid s :
  asteroids (Play s) =
    asteroids (for_ (range 0 (MAP_WIDTH - 1)) (fun i s =>
                 for_ (range 0 (MAP_HEIGHT - 1)) (fun j s => wr i j 0 s) s)
                 (Game_DrawRect 0 0 MAP_WIDTH MAP_HEIGHT (Game_ClearScreen s))) /\
  faults (Play s) =
    faults (for_ (range 0 (MAP_WIDTH - 1)) (fun i s =>
              for_ (range 0 (MAP_HEIGHT - 1)) (fun j s => wr i j 0 s) s)
              (Game_DrawRect 0 0 MAP_WIDTH MAP_HEIGHT (Game_ClearScreen s))).
Proof.
  unfold Play. cbv zeta.
  remember (for_ _ _ (Game_DrawRect _ _ _ _ (Game_ClearScreen s))) as s1 eqn:E1.
  clear E1. cbn. split; reflexivity.
Qed.

(** X4. Play starts a round from any state whose memory image holds the
    array: every cell of the declared array is 0 afterwards and no subscript
    of the clearing loop is out of bounds; the ship is at (1, MAP_HEIGHT/2)
    with glyph '>', health 3, cooldown 6, score 0 and shotsFired 0; the
    receiver is registered; the spawn/shift and score-tick tasks are appended
    to the scheduler.  Play does not touch the shot pool, the recharging
    flag, the spawn probability or the tasks already scheduled. *)
Theorem Play_starts_round s :
  array_ok s ->
  (forall c r, in_bounds c r = true -> asteroids_get (asteroids (Play s)) c r = Some 0) /\
  faults (Play s) = faults s /\
  game (Play s) = mk_game 1 (MAP_HEIGHT / 2) ">"%char 3 6 0 0 (game_id (game s)) /\
  receiver (Play s) = true /\
  tasks (Play s) = tasks s ++ [mk_task T_GenerateAndShift None 500 1000;
                               mk_task T_IncreaseScore None 2500 2500] /\
  shots (Play s) = shots s /\
  gRechargingWeapon (Play s) = gRechargingWeapon s /\
  asteroidSpawnProbability (Play s) = asteroidSpawnProbability s.
Proof.
  intros Im. destruct (Play_grid s) as [A F].
  destruct (Play_effects s) as (G & Sh & T & W & P & R).
  assert (cleared s (for_ (range 0 (MAP_WIDTH - 1)) (fun i s =>
                 for_ (range 0 (MAP_HEIGHT - 1)) (fun j s => wr i j 0 s) s)
                 (Game_DrawRect 0 0 MAP_WIDTH MAP_HEIGHT (Game_ClearScreen s)))
            (offset (0 + Z.of_nat 59) 0)) as (Fl & _ & Z0 & _).
  { change (MAP_WIDTH - 1) with (0 + Z.of_nat 59) at 1.
    destruct (cleared_columns s 59 0
                (Game_DrawRect 0 0 MAP_WIDTH MAP_HEIGHT (Game_ClearScreen s)))
      as (F1 & L1 & Z1 & R1); auto; try (unfold MAP_WIDTH; lia).
    - repeat split; auto. intros o O. unfold offset in O. lia.
    - repeat split; auto. }
  split.
  { intros c r B. unfold asteroids_get. rewrite B, A. f_equal. apply Z0.
    unfold in_bounds in B.
    apply andb_true_iff in B as [B B4]. apply andb_true_iff in B as [B B3].
    apply andb_true_iff in B as [B1 B2]. b2p.
    unfold offset, MAP_WIDTH, MAP_HEIGHT in *. lia. }
  split; [rewrite F; exact Fl|].
  repeat split; assumption.
Qed.

Lemma demo_boot_array : array_ok demo_boot.
Proof. vm_compute. discriminate. Defined.

Lemma Play_starts_round_witness :
  (forall c r, in_bounds c r = true ->
     asteroids_get (asteroids (Play demo_boot)) c r = Some 0) /\
  faults (Play demo_boot) = faults demo_boot /\
  game (Play demo_boot) = mk_game 1 (MAP_HEIGHT / 2) ">"%char 3 6 0 0 (game_id (game demo_boot)) /\
  receiver (Play demo_boot) = true /\
  tasks (Play demo_boot) = tasks demo_boot ++ [mk_task T_GenerateAndShift None 500 1000;
                               mk_task T_IncreaseScore None 2500 2500] /\
  shots (Play demo_boot) = shots demo_boot /\
  gRechargingWeapon (Play demo_boot) = gRechargingWeapon demo_boot /\
  asteroidSpawnProbability (Play demo_boot) = asteroidSpawnProbability demo_boot.
Proof. apply (Play_starts_round demo_boot). exact demo_boot_array. Defined.

(** ** The recharge task *)

Lemma recharge_tasks_app ts us :
  recharge_tasks (ts ++ us) = recharge_tasks ts ++ recharge_tasks us.
Proof. apply filter_app. Qed.

Lemma recharge_tasks_remove fn arg ts :
  fn <> T_DecreaseCooldown ->
  recharge_tasks (filter (fun t => negb (same_task fn arg t)) ts) = recharge_tasks ts.
Proof.
  intros N. induction ts as [|t ts IH]; [reflexivity|].
  cbn [filter]. destruct (same_task fn arg t) eqn:E; cbn [negb].
  - apply same_task_eq in E as [F _]. unfold recharge_tasks at 2. cbn [filter].
    unfold is_recharge at 1. destruct (task_fn_eqb (t_fn t) T_DecreaseCooldown) eqn:D.
    + apply task_fn_eqb_eq in D. congruence.
    + exact IH.
  - unfold recharge_tasks in *. cbn [filter]. rewrite IH. reflexivity.
Qed.

Lemma recharge_tasks_take fn arg ts ts' :
  fn <> T_DecreaseCooldown -> take_task fn arg ts = Some ts' ->
  recharge_tasks ts' = recharge_tasks ts.
Proof.
  intros N. revert ts'. induction ts as [|t ts IH]; intros ts'; cbn [take_task];
    [discriminate|].
  destruct (same_task fn arg t) eqn:E.
  - intros H. inversion H; subst ts'; clear H.
    destruct (t_period t =? 0); [|reflexivity].
    apply same_task_eq in E as [F _]. unfold recharge_tasks. cbn [filter].
    unfold is_recharge at 2. destruct (task_fn_eqb (t_fn t) T_DecreaseCooldown) eqn:D.
    + apply task_fn_eqb_eq in D. congruence.
    + reflexivity.
  - destruct (take_task fn arg ts) as [us|]; cbn [option_map]; [|discriminate].
    intros H. inversion H; subst ts'. unfold recharge_tasks in *. cbn [filter].
    rewrite (IH us eq_refl). reflexivity.
Qed.

Lemma count_recharge a ts :
  count_task T_DecreaseCooldown a (recharge_tasks ts) = count_task T_DecreaseCooldown a ts.
Proof.
  induction ts as [|t ts IH]; [reflexivity|].
  unfold recharge_tasks in *. cbn [filter]. rewrite count_task_cons.
  unfold is_recharge at 1. destruct (task_fn_eqb (t_fn t) T_DecreaseCooldown) eqn:D.
  - rewrite count_task_cons, IH. reflexivity.
  - rewrite IH. unfold same_task.
    destruct (task_fn_eqb T_DecreaseCooldown (t_fn t)) eqn:D'; [|reflexivity].
    apply task_fn_eqb_eq in D'. rewrite <- D' in D. discriminate D.
Qed.

Lemma same_recharge_refl s : same_recharge s s.
Proof. constructor; reflexivity. Qed.

Lemma same_recharge_emit s0 c s : same_recharge s0 s -> same_recharge s0 (emit c s).
Proof. intros []; constructor; auto. Qed.

Lemma same_recharge_set_receiver s0 b s :
  same_recharge s0 s -> same_recharge s0 (set_receiver b s).
Proof. intros []; constructor; auto. Qed.

Lemma same_recharge_set_asteroidSpawnProbability s0 v s :
  same_recharge s0 s -> same_recharge s0 (set_asteroidSpawnProbability v s).
Proof. intros []; constructor; auto. Qed.

Lemma same_recharge_set_shot s0 k o s :
  same_recharge s0 s -> same_recharge s0 (set_shot k o s).
Proof. intros []; constructor; auto. Qed.

Lemma same_recharge_fault s0 c r s : same_recharge s0 s -> same_recharge s0 (fault c r s).
Proof. intros []; constructor; auto. Qed.

Lemma same_recharge_wr s0 c r v s : same_recharge s0 s -> same_recharge s0 (wr c r v s).
Proof. intros []. unfold wr. destruct (in_bounds c r); constructor; auto. Qed.

Lemma rd_same_recharge s0 c r s v s' :
  rd c r s = (v, s') -> same_recharge s0 s -> same_recharge s0 s'.
Proof.
  unfold rd. destruct (asteroids_get _ _ _); intros E; inversion E; subst;
    auto using same_recharge_fault.
Qed.

Lemma same_recharge_task s0 fn arg d p s :
  fn <> T_DecreaseCooldown -> same_recharge s0 s ->
  same_recharge s0 (Task_Schedule fn arg d p s).
Proof.
  intros N [F C T]; constructor; auto. cbn. rewrite recharge_tasks_app, T.
  unfold recharge_tasks at 2. cbn [filter]. unfold is_recharge. cbn [t_fn].
  destruct (task_fn_eqb fn T_DecreaseCooldown) eqn:D.
  - apply task_fn_eqb_eq in D. congruence.
  - apply app_nil_r.
Qed.

Lemma same_recharge_remove s0 fn arg s :
  fn <> T_DecreaseCooldown -> same_recharge s0 s ->
  same_recharge s0 (Task_Remove fn arg s).
Proof.
  intros N [F C T]; constructor; auto. cbn. rewrite recharge_tasks_remove; auto.
Qed.

Lemma same_recharge_upd_game s0 f s :
  (forall g, game_shotCooldown (f g) = game_shotCooldown g) ->
  same_recharge s0 s -> same_recharge s0 (upd_game f s).
Proof. intros G [F C T]; constructor; auto. cbn. rewrite G. exact C. Qed.

Lemma for_same_recharge body :
  (forall i s0 s, same_recharge s0 s -> same_recharge s0 (body i s)) ->
  forall idx s0 s, same_recharge s0 s -> same_recharge s0 (for_ idx body s).
Proof.
  intros B idx; induction idx as [|i idx IH]; intros s0 s F; simpl; auto.
Qed.

Ltac rech_hook := fail.

Ltac rech_tac :=
  repeat first
    [ assumption
    | apply same_recharge_refl
    | rech_hook
    | apply same_recharge_emit
    | apply same_recharge_set_receiver
    | apply same_recharge_set_asteroidSpawnProbability
    | apply same_recharge_set_shot
    | apply same_recharge_wr
    | apply same_recharge_task; [discriminate|]
    | apply same_recharge_remove; [discriminate|]
    | apply same_recharge_upd_game; [intros; reflexivity|]
    | match goal with
      | |- same_recharge _ (if ?c then _ else _) => destruct c eqn:?
      | |- same_recharge _ (match ?o with Some _ => _ | None => _ end) => destruct o eqn:?
      | |- same_recharge ?s0 (let '(_, _) := rd ?c ?r ?s in _) =>
          let v := fresh "v" in
          let s1 := fresh "s" in
          let E := fresh "E" in
          destruct (rd c r s) as [v s1] eqn:E;
          assert (same_recharge s0 s1)
            by (apply (rd_same_recharge s0 c r s v s1 E); rech_tac)
      end ].

Lemma release_all_same_recharge s0 s :
  same_recharge s0 s -> same_recharge s0 (release_all s).
Proof.
  intros C. rewrite release_all_for. apply for_same_recharge; auto.
  intros i s1 s2 C2. unfold release. cbv zeta. rech_tac.
Qed.

Lemma GameOver_same_recharge s0 s : same_recharge s0 s -> same_recharge s0 (GameOver s).
Proof.
  intros C. rewrite GameOver_unfold. cbv zeta.
  unfold Game_GameOver, Game_ShowCursor, Game_CharXY, Game_UnregisterPlayer1Receiver,
    Game_Printf, Game_SetColor.
  repeat first [apply same_recharge_emit | apply same_recharge_set_receiver].
  apply release_all_same_recharge. rech_tac.
Qed.

Ltac rech_hook ::=
  match goal with
  | |- same_recharge _ (GameOver _) => apply GameOver_same_recharge
  end.

Lemma Help_same_recharge s : same_recharge s (Help s).
Proof. unfold Help, Game_Printf. cbv zeta. rech_tac. Qed.

Lemma IncreaseScore_same_recharge s : same_recharge s (IncreaseScore s).
Proof. unfold IncreaseScore, Task_Queue. cbv zeta. rech_tac. Qed.

Lemma UpdateScore_same_recharge s : same_recharge s (UpdateScore s).
Proof.
  unfold UpdateScore, set_difficulty, Task_Queue, Game_CharXY, Game_Printf.
  cbv zeta. rech_tac.
Qed.

Lemma UpdateDifficulty_same_recharge s : same_recharge s (UpdateDifficulty s).
Proof. unfold UpdateDifficulty, Game_CharXY, Game_Printf. cbv zeta. rech_tac. Qed.

Lemma UpdateHealth_same_recharge s : same_recharge s (UpdateHealth s).
Proof.
  unfold UpdateHealth, Game_CharXY, Game_SetColor, Game_Printf. cbv zeta. rech_tac.
Qed.

Lemma ResetScreenColor_same_recharge s : same_recharge s (ResetScreenColor s).
Proof. unfold ResetScreenColor, Game_CharXY, Game_SetColor. cbv zeta. rech_tac. Qed.

Lemma UpdateShotCooldown_same_recharge s : same_recharge s (UpdateShotCooldown s).
Proof.
  unfold UpdateShotCooldown, charge_bar, Game_CharXY, Game_SetColor, Game_Printf.
  cbv zeta. rech_tac.
Qed.

Lemma MoveRightShot_same_recharge k s : same_recharge s (MoveRightShot k s).
Proof.
  unfold MoveRightShot, Task_Queue, Game_Bell, Game_CharXY, Game_SetColor.
  cbv zeta. rech_tac.
Qed.

Lemma Callback_same_recharge argc argv s s' :
  Callback argc argv s = Some s' -> same_recharge s s'.
Proof.
  unfold Callback, Game_Log. cbv zeta. intros C.
  destruct argv as [|a0 rest]; [discriminate|].
  destruct (argc =? 0), (strcasecmp a0 "reset" =? 0); inversion C; subst; rech_tac.
Qed.

Lemma frame_same_recharge s0 s : frame s0 s -> same_recharge s0 s.
Proof.
  intros [_ C _ _ _ R _ _ _ _ (extra & T & F)]. constructor; auto.
  rewrite T, recharge_tasks_app.
  assert (recharge_tasks extra = []) as ->; [|apply app_nil_r].
  clear T. induction F as [|t l Q F IH]; [reflexivity|].
  unfold recharge_tasks in *. cbn [filter]. rewrite IH. unfold is_recharge.
  destruct Q as [-> | ->]; reflexivity.
Qed.

Lemma recharge_ok_same s0 s :
  same_recharge s0 s -> recharge_ok s0 -> recharge_ok s.
Proof. intros [F C T] [T0 F0]. constructor; rewrite ?T, ?F; auto. Qed.

Lemma live_same s0 s : same_recharge s0 s -> live s0 -> live s.
Proof. intros [F C T] L. unfold live. rewrite F, C. exact L. Qed.

Lemma Shoot_recharge s : recharge_ok s -> recharge_ok (Shoot s) /\ (live s -> live (Shoot s)).
Proof.
  intros [T F]. unfold Shoot.
  destruct (3 <=? game_shotCooldown (game s)); [|split; [constructor|]; auto].
  destruct (find_shot s) as [k|]; [|split; [constructor|]; auto].
  cbv zeta.
  destruct (gRechargingWeapon _ =? 0) eqn:G; cbn in G.
  - split.
    + constructor; [|right; reflexivity]. cbn.
      rewrite !recharge_tasks_app, T. reflexivity.
    + intros _ _. reflexivity.
  - assert (gRechargingWeapon s = 1) as G1.
    { destruct F as [F|F]; [rewrite F in G; discriminate G | exact F]. }
    split.
    + constructor; cbn; [|right; exact G1].
      rewrite !recharge_tasks_app, T, G1. reflexivity.
    + intros _ _. exact G1.
Qed.

Lemma recharge_tasks_cancel ts :
  recharge_tasks ts = [] \/ recharge_tasks ts = [recharge_task] ->
  recharge_tasks (filter (fun t => negb (same_task T_DecreaseCooldown None t)) ts) = [].
Proof.
  intros H. unfold recharge_tasks in *.
  assert (forall l, filter is_recharge (filter (fun t => negb (same_task T_DecreaseCooldown None t)) l)
                    = filter (fun t => negb (same_task T_DecreaseCooldown None t))
                             (filter is_recharge l)) as Comm.
  { induction l as [|t l IH]; [reflexivity|]. cbn [filter].
    destruct (same_task T_DecreaseCooldown None t) eqn:A, (is_recharge t) eqn:B;
      cbn [negb filter]; rewrite ?A, ?B; cbn [negb]; rewrite IH; reflexivity. }
  rewrite Comm. destruct H as [-> | ->]; reflexivity.
Qed.

Lemma DecreaseCooldown_recharge s :
  recharge_ok s -> live s ->
  recharge_ok (DecreaseCooldown s) /\ live (DecreaseCooldown s).
Proof.
  intros [T F] L. unfold DecreaseCooldown, live in *.
  destruct (Z.ltb_spec (game_shotCooldown (game s)) 6) as [C|C]; cbv zeta.
  - specialize (L C). split; [constructor; cbn|intros _; exact L]; auto.
    rewrite recharge_tasks_app, T. rewrite L. reflexivity.
  - split; [constructor; cbn; auto | cbn; lia].
    apply recharge_tasks_cancel. destruct (gRechargingWeapon s =? 0); auto.
Qed.

Lemma Play_recharge s : recharge_ok s -> recharge_ok (Play s) /\ live (Play s).
Proof.
  intros [T F]. destruct (Play_effects s) as (G & _ & Tk & W & _ & _).
  split.
  - constructor; rewrite ?W; auto. rewrite Tk, recharge_tasks_app, T. apply app_nil_r.
  - unfold live. rewrite G. cbn. lia.
Qed.

Lemma Receiver_recharge c s :
  recharge_ok s -> live s -> recharge_ok (Receiver c s) /\ live (Receiver c s).
Proof.
  intros R L. destruct (Receiver_frame_or_shoot c s) as [F|F].
  - apply frame_same_recharge in F. split; [eapply recharge_ok_same | eapply live_same]; eauto.
  - rewrite F. destruct (Shoot_recharge s R). auto.
Qed.

Lemma take_recharge_task s arg ts :
  recharge_ok s -> take_task T_DecreaseCooldown arg (tasks s) = Some ts -> ts = tasks s.
Proof.
  intros [T F] H. apply (take_task_periodic _ _ _ _ H). intros t I S.
  apply same_task_eq in S as [Fn _].
  assert (In t (recharge_tasks (tasks s))) as J.
  { unfold recharge_tasks. apply filter_In. split; [exact I|].
    unfold is_recharge. rewrite Fn. reflexivity. }
  rewrite T in J. destruct (gRechargingWeapon s =? 0); [destruct J|].
  destruct J as [<-|[]]. discriminate.
Qed.

Lemma step_recharge e s s' :
  step e s = Some s' ->
  recharge_ok s /\ (live s \/ unplayed s) ->
  recharge_ok s' /\ (live s' \/ unplayed s').
Proof.
  intros E [R LU].
  destruct e as [| |argc argv|c|fn arg rnd]; cbn [step] in E.
  - inversion E; subst. destruct (Play_recharge s R). auto.
  - inversion E; subst. pose proof (Help_same_recharge s) as H. split.
    + eapply recharge_ok_same; eauto.
    + destruct LU as [L|U]; [left; eapply live_same; eauto | right; exact U].
  - pose proof (Callback_same_recharge _ _ _ _ E) as H. split.
    + eapply recharge_ok_same; eauto.
    + destruct LU as [L|[U1 U2]]; [left; eapply live_same; eauto | right].
      unfold Callback, Game_Log in E. cbv zeta in E.
      destruct argv as [|a0 rest]; [discriminate|].
      destruct (argc =? 0), (strcasecmp a0 "reset" =? 0); inversion E; subst;
        split; assumption.
  - destruct (receiver s) eqn:Rc; inversion E; subst.
    destruct LU as [L|[U _]]; [|congruence].
    destruct (Receiver_recharge c s R L). auto.
  - destruct (take_task fn arg (tasks s)) as [ts|] eqn:T; inversion E; subst; clear E.
    destruct LU as [L|[_ U]]; [|rewrite U in T; discriminate T].
    destruct (task_fn_eqb fn T_DecreaseCooldown) eqn:M.
    + apply task_fn_eqb_eq in M; subst fn.
      rewrite (take_recharge_task s arg ts R T), set_tasks_same. cbn [run_task].
      destruct (DecreaseCooldown_recharge s R L). auto.
    + assert (fn <> T_DecreaseCooldown) as N.
      { intros ->. discriminate M. }
      assert (same_recharge s (set_tasks ts s)) as H1.
      { constructor; auto. cbn. eapply recharge_tasks_take; eauto. }
      assert (same_recharge (set_tasks ts s) (run_task fn arg rnd (set_tasks ts s))) as H2.
      { destruct fn; cbn [run_task].
        - apply frame_same_recharge, GenerateAndShift_frame.
        - apply IncreaseScore_same_recharge.
        - apply UpdateScore_same_recharge.
        - apply UpdateHealth_same_recharge.
        - apply UpdateShotCooldown_same_recharge.
        - apply UpdateDifficulty_same_recharge.
        - apply ResetScreenColor_same_recharge.
        - destruct arg; [apply MoveRightShot_same_recharge | apply same_recharge_refl].
        - congruence. }
      split; [|left].
      * eapply recharge_ok_same; [exact H2|]. eapply recharge_ok_same; eauto.
      * eapply live_same; [exact H2|]. eapply live_same; eauto.
Qed.

Lemma reachable_recharge s : reachable s -> recharge_ok s /\ (live s \/ unplayed s).
Proof.
  induction 1 as [id adj | e s s' R IH E].
  - split; [constructor; [reflexivity | left; reflexivity] | right; split; reflexivity].
  - eapply step_recharge; eauto.
Qed.

(** X5. In every reachable state the flag gRechargingWeapon and the scheduler
    agree: either the flag is 0 and no DecreaseCooldown task is held, or the
    flag is 1 and exactly one is held, the periodic task that Shoot
    schedules.  The recharge task is never scheduled twice. *)
Theorem recharge_task_unique s :
  reachable s ->
  (gRechargingWeapon s = 0 /\ recharge_tasks (tasks s) = []) \/
  (gRechargingWeapon s = 1 /\ recharge_tasks (tasks s) = [recharge_task]).
Proof.
  intros R. destruct (reachable_recharge s R) as [[T F] _].
  destruct F as [F|F]; rewrite F in T; [left | right]; split; assumption.
Qed.

Lemma recharge_task_unique_witness :
  (gRechargingWeapon demo_shot = 0 /\ recharge_tasks (tasks demo_shot) = []) \/
  (gRechargingWeapon demo_shot = 1 /\ recharge_tasks (tasks demo_shot) = [recharge_task]).
Proof. apply (recharge_task_unique demo_shot). exact demo_shot_reachable. Defined.

(** X6. Once a round has been started (the receiver is registered or the
    scheduler holds a task), a weapon whose charge is below 6 is always
    recharging: the flag is set and exactly one DecreaseCooldown task with a
    null argument is scheduled. *)
Theorem weapon_always_recharges s :
  reachable s ->
  receiver s = true \/ tasks s <> [] ->
  cooldown s < 6 ->
  gRechargingWeapon s = 1 /\
  count_task T_DecreaseCooldown None (tasks s) = 1 /\
  (forall k, count_task T_DecreaseCooldown (Some k) (tasks s) = 0).
Proof.
  intros R P C. destruct (reachable_recharge s R) as [[T F] [L|[U1 U2]]].
  - specialize (L C). rewrite L in T. split; [exact L|].
    split; [|intros k]; rewrite <- count_recharge, T; reflexivity.
  - destruct P; congruence.
Qed.

Lemma weapon_always_recharges_witness :
  gRechargingWeapon demo_shot = 1 /\
  count_task T_DecreaseCooldown None (tasks demo_shot) = 1 /\
  (forall k, count_task T_DecreaseCooldown (Some k) (tasks demo_shot) = 0).
Proof.
  apply (weapon_always_recharges demo_shot).
  - exact demo_shot_reachable.
  - left. vm_compute. reflexivity.
  - vm_compute. reflexivity.
Defined.

(** ** Recharging *)

Lemma DecreaseCooldown_iter s n :
  0 <= cooldown s <= 6 ->
  cooldown (Nat.iter n DecreaseCooldown s) = Z.min 6 (cooldown s + Z.of_nat n).
Proof.
  intros C. induction n as [|n IH]; [cbn [Nat.iter nat_rect]; lia|].
  change (Nat.iter (S n) DecreaseCooldown s)
    with (DecreaseCooldown (Nat.iter n DecreaseCooldown s)).
  rewrite DecreaseCooldown_cooldown by (rewrite IH; lia).
  rewrite IH. destruct (Z.ltb_spec (Z.min 6 (cooldown s + Z.of_nat n)) 6); lia.
Qed.

(** X7. Recharging is linear and saturates: starting from a charge between
    0 and 6, n runs of DecreaseCooldown leave the charge at
    min(6, charge + n); it never exceeds 6. *)
Theorem DecreaseCooldown_saturates s n :
  0 <= cooldown s <= 6 ->
  cooldown (Nat.iter n DecreaseCooldown s) = Z.min 6 (cooldown s + Z.of_nat n) /\
  (6 - cooldown s <= Z.of_nat n -> cooldown (Nat.iter n DecreaseCooldown s) = 6).
Proof.
  intros C. rewrite (DecreaseCooldown_iter s n C). split; [reflexivity | lia].
Qed.

Lemma DecreaseCooldown_saturates_witness :
  cooldown (Nat.iter 4 DecreaseCooldown demo_shot) = Z.min 6 (cooldown demo_shot + Z.of_nat 4) /\
  (6 - cooldown demo_shot <= Z.of_nat 4 -> cooldown (Nat.iter 4 DecreaseCooldown demo_shot) = 6).
Proof. apply (DecreaseCooldown_saturates demo_shot 4). vm_compute. split; discriminate. Defined.

(** ** A shot advances *)

Lemma MoveRightShot_edge k s :
  (Z.to_nat k < List.length (shots s))%nat ->
  MAP_WIDTH - 2 <= shot_x (shot_at s k) ->
  shot_at (MoveRightShot k s) k = set_status 0 (shot_at s k) /\
  (forall j, 0 <= j -> 0 <= k -> j <> k -> shot_at (MoveRightShot k s) j = shot_at s j) /\
  asteroids (MoveRightShot k s) = asteroids s /\
  game (MoveRightShot k s) = game s /\
  tasks (MoveRightShot k s) =
    filter (fun t => negb (same_task T_MoveRightShot (Some k) t)) (tasks s).
Proof.
  intros L X. unfold MoveRightShot.
  destruct (Z.ltb_spec (shot_x (shot_at s k)) (MAP_WIDTH - 2)); [lia|].
  cbv zeta. repeat split.
  - unfold shot_at. cbn. rewrite put_nat_nth_same by exact L. reflexivity.
  - intros j J K N. unfold shot_at. cbn. apply put_nat_nth_other.
    apply to_nat_neq; auto.
Qed.

Lemma shot_at_wr c r v s k : shot_at (wr c r v s) k = shot_at s k.
Proof. unfold wr, shot_at. destruct (in_bounds c r); reflexivity. Qed.

Lemma shot_at_rd c r s a s' k : rd c r s = (a, s') -> shot_at s' k = shot_at s k.
Proof.
  unfold rd. destruct (asteroids_get _ _ _); intros E; inversion E; subst; reflexivity.
Qed.

Lemma MoveRightShot_step k s x y st :
  0 <= k -> (Z.to_nat k < List.length (shots s))%nat ->
  shot_at s k = mk_shot x y st -> 0 <= x < MAP_WIDTH - 2 ->
  MoveRightShot k s =
  let s1 := set_shot k (mk_shot (x + 1) y st) (emit (C_CharXY " " x y) s) in
  let '(a, s2) := rd (x + 1) y s1 in
  if negb (a =? 0) then
    Task_Queue T_UpdateScore None
      (Task_Remove T_MoveRightShot (Some k)
         (upd_game (fun g => set_score (int16 (game_score g + 1)) g)
            (set_shot k (mk_shot (x + 1) y 0)
               (emit C_Bell (emit (C_SetColor BackgroundBlack)
                  (emit (C_CharXY "*" (x + 1) y)
                     (emit (C_SetColor BackgroundYellow) (wr (x + 1) y 0 s2))))))))
  else
    emit (C_SetColor ForegroundWhite)
      (emit (C_CharXY "-" (x + 1) y) (emit (C_SetColor ForegroundYellow) s2)).
Proof.
  intros K L O X. unfold MoveRightShot. rewrite O. cbn [shot_x shot_y].
  destruct (Z.ltb_spec x (MAP_WIDTH - 2)); [|lia].
  cbv zeta. unfold Game_CharXY, Game_SetColor, Game_Bell.
  change (shot_at (emit (C_CharXY " " x y) s) k) with (shot_at s k).
  rewrite O. cbn [shot_x shot_y shot_status set_shot_x].
  rewrite (u8_small (x + 1)) by (unfold MAP_WIDTH in *; lia).
  rewrite (shot_at_set_shot_same k _ (emit (C_CharXY " " x y) s) K L).
  change (set_shot_x (x + 1) (mk_shot x y st)) with (mk_shot (x + 1) y st).
  cbn [shot_x shot_y].
  destruct (rd (x + 1) y (set_shot k (mk_shot (x + 1) y st) (emit (C_CharXY " " x y) s)))
    as [a s2] eqn:E.
  assert (shot_at s2 k = mk_shot (x + 1) y st) as O2.
  { rewrite (shot_at_rd _ _ _ _ _ k E). apply shot_at_set_shot_same; auto. }
  repeat first
    [ rewrite O2
    | rewrite shot_at_wr
    | match goal with
      | |- context [shot_at (emit ?c ?t) k] =>
          change (shot_at (emit c t) k) with (shot_at t k)
      end
    | progress cbn [shot_x shot_y] ].
  destruct (negb (a =? 0)); reflexivity.
Qed.

Lemma MoveRightShot_move k s x y st :
  0 <= k -> (Z.to_nat k < List.length (shots s))%nat ->
  shot_at s k = mk_shot x y st -> 0 <= x < MAP_WIDTH - 2 ->
  cell s (x + 1) y = 0 ->
  shot_at (MoveRightShot k s) k = mk_shot (x + 1) y st /\
  (forall j, 0 <= j -> j <> k -> shot_at (MoveRightShot k s) j = shot_at s j) /\
  asteroids (MoveRightShot k s) = asteroids s /\
  game (MoveRightShot k s) = game s /\
  tasks (MoveRightShot k s) = tasks s.
Proof.
  intros K L O X C. rewrite (MoveRightShot_step k s x y st K L O X). cbv zeta.
  unfold rd, asteroids_get.
  change (peek (asteroids (set_shot k (mk_shot (x + 1) y st) (emit (C_CharXY " " x y) s)))
               (offset (x + 1) y)) with (cell s (x + 1) y).
  rewrite C. destruct (in_bounds (x + 1) y); cbn [negb Z.eqb].
  - repeat split.
    + unfold shot_at. cbn. apply put_nat_nth_same. exact L.
    + intros j J N. unfold shot_at. cbn. apply put_nat_nth_other. apply to_nat_neq; auto.
  - repeat split.
    + unfold shot_at. cbn. apply put_nat_nth_same. exact L.
    + intros j J N. unfold shot_at. cbn. apply put_nat_nth_other. apply to_nat_neq; auto.
Qed.

Lemma MoveRightShot_hit k s x y st :
  0 <= k -> (Z.to_nat k < List.length (shots s))%nat ->
  shot_at s k = mk_shot x y st -> 0 <= x < MAP_WIDTH - 2 ->
  cell s (x + 1) y <> 0 ->
  shot_at (MoveRightShot k s) k = mk_shot (x + 1) y 0 /\
  (forall j, 0 <= j -> j <> k -> shot_at (MoveRightShot k s) j = shot_at s j) /\
  asteroids (MoveRightShot k s) = poke (asteroids s) (offset (x + 1) y) 0 /\
  game (MoveRightShot k s) = set_score (int16 (game_score (game s) + 1)) (game s) /\
  tasks (MoveRightShot k s) =
    filter (fun t => negb (same_task T_MoveRightShot (Some k) t)) (tasks s)
    ++ [mk_task T_UpdateScore None 0 0].
Proof.
  intros K L O X C. rewrite (MoveRightShot_step k s x y st K L O X). cbv zeta.
  unfold rd, asteroids_get.
  change (peek (asteroids (set_shot k (mk_shot (x + 1) y st) (emit (C_CharXY " " x y) s)))
               (offset (x + 1) y)) with (cell s (x + 1) y).
  apply Z.eqb_neq in C. unfold wr.
  destruct (in_bounds (x + 1) y); cbv iota beta; rewrite C; cbn [negb].
  - repeat split.
    + unfold shot_at. cbn. rewrite put_nat_twice. apply put_nat_nth_same. exact L.
    + intros j J N. unfold shot_at. cbn. rewrite put_nat_twice.
      apply put_nat_nth_other. apply to_nat_neq; auto.
  - repeat split.
    + unfold shot_at. cbn. rewrite put_nat_twice. apply put_nat_nth_same. exact L.
    + intros j J N. unfold shot_at. cbn. rewrite put_nat_twice.
      apply put_nat_nth_other. apply to_nat_neq; auto.
Qed.

(** X8. One run of MoveRightShot on pool slot k.  A shot whose column is
    MAP_WIDTH - 2 or more is released: its status becomes 0 and its task is
    removed, the score and the grid are untouched.  Otherwise it moves one
    column to the right; if the cell it arrives on is empty nothing else
    changes; if the cell holds an obstacle, that cell is set to 0, the slot's
    status becomes 0, its task is removed, the score goes up by exactly one
    (on 16 bits) and one UpdateScore is queued.  The other slots of the pool
    are never touched. *)
Theorem MoveRightShot_outcome k s :
  0 <= k -> (Z.to_nat k < List.length (shots s))%nat ->
  0 <= shot_x (shot_at s k) ->
  (forall j, 0 <= j -> j <> k -> shot_at (MoveRightShot k s) j = shot_at s j) /\
  (MAP_WIDTH - 2 <= shot_x (shot_at s k) ->
     shot_at (MoveRightShot k s) k = set_status 0 (shot_at s k) /\
     asteroids (MoveRightShot k s) = asteroids s /\
     game (MoveRightShot k s) = game s /\
     tasks (MoveRightShot k s) =
       filter (fun t => negb (same_task T_MoveRightShot (Some k) t)) (tasks s)) /\
  (shot_x (shot_at s k) < MAP_WIDTH - 2 ->
     cell s (shot_x (shot_at s k) + 1) (shot_y (shot_at s k)) = 0 ->
     shot_at (MoveRightShot k s) k =
       set_shot_x (shot_x (shot_at s k) + 1) (shot_at s k) /\
     asteroids (MoveRightShot k s) = asteroids s /\
     game (MoveRightShot k s) = game s /\
     tasks (MoveRightShot k s) = tasks s) /\
  (shot_x (shot_at s k) < MAP_WIDTH - 2 ->
     cell s (shot_x (shot_at s k) + 1) (shot_y (shot_at s k)) <> 0 ->
     shot_at (MoveRightShot k s) k =
       mk_shot (shot_x (shot_at s k) + 1) (shot_y (shot_at s k)) 0 /\
     asteroids (MoveRightShot k s) =
       poke (asteroids s) (offset (shot_x (shot_at s k) + 1) (shot_y (shot_at s k))) 0 /\
     score (MoveRightShot k s) = int16 (score s + 1) /\
     tasks (MoveRightShot k s) =
       filter (fun t => negb (same_task T_MoveRightShot (Some k) t)) (tasks s)
       ++ [mk_task T_UpdateScore None 0 0]).
Proof.
  intros K L X0. destruct (shot_at s k) as [x y st] eqn:O. cbn [shot_x shot_y] in *.
  split; [|split; [|split]].
  - intros j J N. destruct (Z.ltb_spec x (MAP_WIDTH - 2)) as [X|X].
    + destruct (Z.eq_dec (cell s (x + 1) y) 0) as [C|C].
      * apply (MoveRightShot_move k s x y st); auto.
      * apply (MoveRightShot_hit k s x y st); auto.
    + apply (MoveRightShot_edge k s); auto. rewrite O. exact X.
  - intros X. destruct (MoveRightShot_edge k s L) as (A & _ & B & C & D);
      [rewrite O; exact X|]. rewrite O in A. auto.
  - intros X C. destruct (MoveRightShot_move k s x y st) as (A & _ & B & D & E); auto.
  - intros X C. destruct (MoveRightShot_hit k s x y st) as (A & _ & B & D & E); auto.
    repeat split; auto. unfold score. rewrite D. reflexivity.
Qed.

Lemma MoveRightShot_outcome_witness :
  (forall j, 0 <= j -> j <> 4 -> shot_at (MoveRightShot 4 demo_shot) j = shot_at demo_shot j) /\
  (MAP_WIDTH - 2 <= shot_x (shot_at demo_shot 4) ->
     shot_at (MoveRightShot 4 demo_shot) 4 = set_status 0 (shot_at demo_shot 4) /\
     asteroids (MoveRightShot 4 demo_shot) = asteroids demo_shot /\
     game (MoveRightShot 4 demo_shot) = game demo_shot /\
     tasks (MoveRightShot 4 demo_shot) =
       filter (fun t => negb (same_task T_MoveRightShot (Some 4) t)) (tasks demo_shot)) /\
  (shot_x (shot_at demo_shot 4) < MAP_WIDTH - 2 ->
     cell demo_shot (shot_x (shot_at demo_shot 4) + 1) (shot_y (shot_at demo_shot 4)) = 0 ->
     shot_at (MoveRightShot 4 demo_shot) 4 =
       set_shot_x (shot_x (shot_at demo_shot 4) + 1) (shot_at demo_shot 4) /\
     asteroids (MoveRightShot 4 demo_shot) = asteroids demo_shot /\
     game (MoveRightShot 4 demo_shot) = game demo_shot /\
     tasks (MoveRightShot 4 demo_shot) = tasks demo_shot) /\
  (shot_x (shot_at demo_shot 4) < MAP_WIDTH - 2 ->
     cell demo_shot (shot_x (shot_at demo_shot 4) + 1) (shot_y (shot_at demo_shot 4)) <> 0 ->
     shot_at (MoveRightShot 4 demo_shot) 4 =
       mk_shot (shot_x (shot_at demo_shot 4) + 1) (shot_y (shot_at demo_shot 4)) 0 /\
     asteroids (MoveRightShot 4 demo_shot) =
       poke (asteroids demo_shot) (offset (shot_x (shot_at demo_shot 4) + 1) (shot_y (shot_at demo_shot 4))) 0 /\
     score (MoveRightShot 4 demo_shot) = int16 (score demo_shot + 1) /\
     tasks (MoveRightShot 4 demo_shot) =
       filter (fun t => negb (same_task T_MoveRightShot (Some 4) t)) (tasks demo_shot)
       ++ [mk_task T_UpdateScore None 0 0]).
Proof.
  apply (MoveRightShot_outcome 4 demo_shot);
    [lia | vm_compute; lia | vm_compute; discriminate].
Defined.

(** ** Collisions caused by the shift *)

Lemma alike_refl s : alike s s.
Proof. repeat split. Qed.

Lemma alike_trans a b c : alike a b -> alike b c -> alike a c.
Proof. intros (A1 & G1 & T1 & S1) (A2 & G2 & T2 & S2). repeat split; congruence. Qed.

Lemma rd_alike c r s : alike s (snd (rd c r s)).
Proof.
  unfold rd. destruct (asteroids_get _ _ _); cbn [snd]; repeat split.
Qed.

Lemma alike_emit s s' c : alike s s' -> alike s (emit c s').
Proof. intros (A & G & T & S). repeat split; assumption. Qed.

Lemma wr_tasks c r v s : tasks (wr c r v s) = tasks s.
Proof. unfold wr. destruct (in_bounds c r); reflexivity. Qed.

Lemma wr_shots c r v s : shots (wr c r v s) = shots s.
Proof. unfold wr. destruct (in_bounds c r); reflexivity. Qed.

Lemma ship_hit_effects cx cy s :
  game (ship_hit cx cy s) = hurt (game s) /\
  tasks (ship_hit cx cy s) = tasks s ++ collision_tasks /\
  shots (ship_hit cx cy s) = shots s.
Proof.
  unfold ship_hit, hurt, Task_Queue, Task_Schedule, Game_Bell, Game_SetColor, Game_CharXY.
  cbv zeta. cbn [game emit set_io].
  rewrite wr_game. destruct (0 <? game_health (game s)); cbn;
    rewrite ?wr_game, ?wr_tasks, ?wr_shots, <- ?app_assoc; repeat split.
Qed.

Lemma shift_cell_ship column i s :
  0 <= offset column i -> (Z.to_nat (offset column i) < List.length (asteroids s))%nat ->
  game (shift_cell column i s) =
    (if ship_at s column i && ((cell s (column + 1) i =? 1) || (cell s (column + 1) i =? 2))
     then hurt (game s) else game s) /\
  tasks (shift_cell column i s) =
    tasks s ++
    (if ship_at s column i && ((cell s (column + 1) i =? 1) || (cell s (column + 1) i =? 2))
     then collision_tasks else []) /\
  shots (shift_cell column i s) = shots s.
Proof.
  intros O L. unfold shift_cell.
  pose proof (rd_value (column + 1) i s) as V1.
  pose proof (rd_alike (column + 1) i s) as (A1 & G1 & T1 & S1).
  destruct (rd (column + 1) i s) as [v s1]. cbn [fst snd] in *. subst v.
  cbv zeta.
  set (v := cell s (column + 1) i) in *.
  set (s2 := wr column i v s1).
  assert (asteroids s2 = poke (asteroids s) (offset column i) v) as A2
    by (subst s2; rewrite wr_asteroids, A1; reflexivity).
  assert (game s2 = game s) as G2 by (subst s2; rewrite wr_game; exact G1).
  assert (tasks s2 = tasks s) as T2 by (subst s2; rewrite wr_tasks; exact T1).
  assert (shots s2 = shots s) as S2 by (subst s2; rewrite wr_shots; exact S1).
  assert (forall s3, alike s2 s3 -> cell s3 column i = v) as CV.
  { intros s3 (A3 & _). unfold cell. rewrite A3, A2. apply peek_poke_same; auto. }
  assert (forall s3, alike s2 s3 -> ship_at s3 column i = ship_at s column i) as SA.
  { intros s3 (_ & G3 & _). unfold ship_at. rewrite G3, G2. reflexivity. }
  assert (forall s3, alike s2 s3 ->
            game s3 = game s /\ tasks s3 = tasks s ++ [] /\ shots s3 = shots s) as KEEP.
  { intros s3 (_ & G3 & T3 & S3). rewrite app_nil_r. repeat split; congruence. }
  assert (forall s3, alike s2 s3 ->
            game (ship_hit column i s3) = hurt (game s) /\
            tasks (ship_hit column i s3) = tasks s ++ collision_tasks /\
            shots (ship_hit column i s3) = shots s) as HIT.
  { intros s3 (_ & G3 & T3 & S3).
    destruct (ship_hit_effects column i s3) as (Hg & Ht & Hs).
    rewrite Hg, Ht, Hs, G3, T3, S3, G2, T2, S2. repeat split. }
  pose proof (rd_value column i s2) as Va.
  pose proof (rd_alike column i s2) as Ka.
  destruct (rd column i s2) as [a s3]. cbn [fst snd] in Va, Ka.
  rewrite (CV s2 (alike_refl s2)) in Va. subst a.
  rewrite (SA s3 Ka).
  pose proof (rd_value column i s3) as Vb.
  pose proof (rd_alike column i s3) as Kb.
  destruct (rd column i s3) as [b s4]. cbn [fst snd] in Vb, Kb.
  rewrite (CV s3 Ka) in Vb. subst b.
  apply (alike_trans _ _ _ Ka) in Kb.
  rewrite (SA s4 Kb).
  pose proof (rd_value column i s4) as Vc.
  pose proof (rd_alike column i s4) as Kc.
  destruct (rd column i s4) as [c s5]. cbn [fst snd] in Vc, Kc.
  rewrite (CV s4 Kb) in Vc. subst c.
  apply (alike_trans _ _ _ Kb) in Kc.
  rewrite (SA s5 Kc).
  destruct (Z.eqb_spec v 0) as [E0|N0].
  - rewrite E0. cbn [Z.eqb orb]. rewrite andb_false_r.
    destruct (ship_at s column i); cbn [negb andb].
    + apply KEEP; exact Kc.
    + destruct (foundShot s3 column i); apply KEEP; auto using alike_emit.
  - cbn [andb].
    destruct (Z.eqb_spec v 1) as [E1|N1]; cbn [orb].
    + destruct (ship_at s column i); cbn [andb].
      * apply HIT; exact Kb.
      * apply KEEP; auto using alike_emit.
    + destruct (Z.eqb_spec v 2) as [E2|N2].
      * destruct (ship_at s column i); cbn [andb].
        -- apply HIT; exact Kc.
        -- apply KEEP; auto using alike_emit.
      * rewrite andb_false_r. apply KEEP; exact Kc.
Qed.

Lemma hurt_position g : game_x (hurt g) = game_x g /\ game_y (hurt g) = game_y g.
Proof. unfold hurt. destruct (0 <? game_health g); split; reflexivity. Qed.

Lemma bumped_start s : bumped s s (offset 1 1).
Proof.
  unfold bumped. cbv zeta.
  assert ((offset (game_x (game s)) (game_y (game s)) <? offset 1 1) && struck s = false)
    as ->; [|rewrite app_nil_r; repeat split].
  unfold struck.
  destruct (Z.ltb_spec (offset (game_x (game s)) (game_y (game s))) (offset 1 1)) as [H|H];
    [|reflexivity].
  destruct (Z.leb_spec 1 (game_x (game s))); [|reflexivity].
  destruct (Z.leb_spec (game_x (game s)) MAX_COLUMNS); [|reflexivity].
  destruct (Z.leb_spec 1 (game_y (game s))); [|reflexivity].
  exfalso. unfold offset, MAX_COLUMNS, MAP_WIDTH, MAP_HEIGHT in *. lia.
Qed.

Lemma bumped_step s0 s column i :
  image_ok s0 -> 1 <= column <= MAX_COLUMNS -> 1 <= i < MAP_HEIGHT ->
  swept s0 s (offset column i) -> bumped s0 s (offset column i) ->
  bumped s0 (shift_cell column i s) (offset column i + 1).
Proof.
  intros Im C I (Sh & Len & Done & Rest) (G & T & S).
  unfold image_ok in Im. cbv zeta in G, T.
  assert (0 <= offset column i) as O0
    by (unfold offset, MAX_COLUMNS, MAP_WIDTH, MAP_HEIGHT in *; lia).
  assert (Z.to_nat (offset column i) < List.length (asteroids s))%nat as L
    by (rewrite Len; unfold offset, MAX_COLUMNS, MAP_WIDTH, MAP_HEIGHT in *; lia).
  destruct (shift_cell_ship column i s O0 L) as (G' & T' & S').
  unfold ship in Sh. inversion Sh as [[X Y]].
  assert (cell s (column + 1) i = cell s0 (column + 1) i) as E.
  { unfold cell. apply Rest; unfold offset, MAX_COLUMNS, MAP_WIDTH, MAP_HEIGHT in *; lia. }
  assert (ship_at s column i = ship_at s0 column i) as EA
    by (unfold ship_at; rewrite X, Y; reflexivity).
  rewrite E, EA in G', T'. clear E EA.
  unfold bumped. cbv zeta. rewrite G', T', S'. clear G' T' S'.
  set (x := game_x (game s0)) in *. set (y := game_y (game s0)) in *.
  unfold ship_at. fold x y.
  destruct (Z.eqb_spec x column) as [Ex|Nx]; [destruct (Z.eqb_spec y i) as [Ey|Ny]|];
    cbn [andb].
  - (* the sweep is on the ship's cell *)
    subst column i.
    assert ((offset x y <? offset x y) = false) as F by (apply Z.ltb_ge; lia).
    assert ((offset x y <? offset x y + 1) = true) as F' by (apply Z.ltb_lt; lia).
    rewrite F in G, T. cbn [andb] in G, T. rewrite F'. cbn [andb].
    assert (struck s0 = (cell s0 (x + 1) y =? 1) || (cell s0 (x + 1) y =? 2)) as ->.
    { unfold struck. fold x y.
      destruct (Z.leb_spec 1 x); [|lia]. destruct (Z.leb_spec x MAX_COLUMNS); [|lia].
      destruct (Z.leb_spec 1 y); [|lia]. destruct (Z.ltb_spec y MAP_HEIGHT); [|lia].
      reflexivity. }
    rewrite G, T, app_nil_r. repeat split; assumption.
  - (* same column, another row *)
    assert ((offset x y <? offset column i + 1) && struck s0
            = (offset x y <? offset column i) && struck s0) as ->.
    { destruct (Z.ltb_spec (offset x y) (offset column i + 1)),
               (Z.ltb_spec (offset x y) (offset column i)); try reflexivity; try lia.
      exfalso. unfold offset in *. subst column. lia. }
    rewrite app_nil_r. repeat split; assumption.
  - assert ((offset x y <? offset column i + 1) && struck s0
            = (offset x y <? offset column i) && struck s0) as ->.
    { destruct (Z.ltb_spec (offset x y) (offset column i + 1)),
               (Z.ltb_spec (offset x y) (offset column i)); try reflexivity; try lia.
      cbn [andb]. unfold struck. fold x y.
      destruct (Z.leb_spec 1 x); [|reflexivity].
      destruct (Z.leb_spec x MAX_COLUMNS); [|reflexivity].
      destruct (Z.leb_spec 1 y); [|reflexivity].
      destruct (Z.ltb_spec y MAP_HEIGHT); [|reflexivity].
      exfalso. unfold offset, MAX_COLUMNS, MAP_WIDTH, MAP_HEIGHT in *. lia. }
    rewrite app_nil_r. repeat split; assumption.
Qed.

Lemma bumped_rows s0 column n : forall i s,
  image_ok s0 -> 1 <= column <= MAX_COLUMNS -> 1 <= i -> i + Z.of_nat n <= MAP_HEIGHT ->
  swept s0 s (offset column i) -> bumped s0 s (offset column i) ->
  bumped s0 (for_ (range i (i + Z.of_nat n)) (fun r s => shift_cell column r s) s)
         (offset column (i + Z.of_nat n)).
Proof.
  induction n as [|n IH]; intros i s Im C I B Sw Bu.
  - rewrite range_nil by lia. cbn [for_]. replace (i + Z.of_nat 0) with i by lia. exact Bu.
  - rewrite range_cons by lia. cbn [for_].
    replace (i + Z.of_nat (S n)) with ((i + 1) + Z.of_nat n) by lia.
    assert (offset column (i + 1) = offset column i + 1) as Eo by (unfold offset; lia).
    apply IH; auto; try lia; rewrite Eo.
    + apply swept_step; auto. lia.
    + apply bumped_step; auto. lia.
Qed.

Lemma bumped_columns s0 n : forall column s,
  image_ok s0 -> 1 <= column -> column + Z.of_nat n <= MAP_WIDTH - 1 ->
  swept s0 s (offset column 1) -> bumped s0 s (offset column 1) ->
  bumped s0 (for_ (range column (column + Z.of_nat n)) (fun column s =>
               for_ (range 1 MAP_HEIGHT) (fun i s => shift_cell column i s) s) s)
         (offset (column + Z.of_nat n) 1).
Proof.
  induction n as [|n IH]; intros column s Im C B Sw Bu.
  - rewrite range_nil by lia. cbn [for_].
    replace (column + Z.of_nat 0) with column by lia. exact Bu.
  - rewrite range_cons by lia. cbn [for_].
    replace (column + Z.of_nat (S n)) with ((column + 1) + Z.of_nat n) by lia.
    assert (offset (column + 1) 1 = offset column (1 + Z.of_nat 17)) as Eo
      by (unfold offset, MAP_HEIGHT; lia).
    apply IH; auto; try lia; rewrite Eo; change MAP_HEIGHT with (1 + Z.of_nat 17).
    + apply swept_rows; auto; unfold MAX_COLUMNS, MAP_WIDTH, MAP_HEIGHT in *; lia.
    + apply bumped_rows; auto; unfold MAX_COLUMNS, MAP_WIDTH, MAP_HEIGHT in *; lia.
Qed.

Lemma ShiftAsteroidColumns_bumped s :
  image_ok s ->
  game (ShiftAsteroidColumns s) = (if struck s then hurt (game s) else game s) /\
  tasks (ShiftAsteroidColumns s) = tasks s ++ (if struck s then collision_tasks else []) /\
  shots (ShiftAsteroidColumns s) = shots s.
Proof.
  intros Im.
  assert (bumped s (ShiftAsteroidColumns s) (offset (1 + Z.of_nat 58) 1)) as (G & T & S).
  { unfold ShiftAsteroidColumns. change (MAP_WIDTH - 1) with (1 + Z.of_nat 58).
    apply bumped_columns; auto;
      [lia | unfold MAP_WIDTH; lia | apply swept_start | apply bumped_start]. }
  cbv zeta in G, T.
  assert ((offset (game_x (game s)) (game_y (game s)) <? offset (1 + Z.of_nat 58) 1)
            && struck s = struck s) as E.
  { destruct (struck s) eqn:St; [|apply andb_false_r].
    rewrite andb_true_r. apply Z.ltb_lt. unfold struck in St.
    apply andb_true_iff in St as [St _]. apply andb_true_iff in St as [St B4].
    apply andb_true_iff in St as [St B3]. apply andb_true_iff in St as [B1 B2]. b2p.
    unfold offset, MAX_COLUMNS, MAP_WIDTH, MAP_HEIGHT in *. lia. }
  rewrite E in G, T. auto.
Qed.

(** X9. A call of ShiftAsteroidColumns costs the ship at most one health
    point, and exactly when an obstacle moves into its cell: if the ship is
    in columns 1 to 58, rows 1 to 17, and its right neighbour holds 1 or 2,
    the health is decremented (not below 0), one UpdateHealth is queued and
    one ResetScreenColor is scheduled 250 ms later; otherwise the game record
    and the scheduler are unchanged.  The shot pool is never changed. *)
Theorem ShiftAsteroidColumns_collision s :
  image_ok s -> 0 <= health s < 256 ->
  game (ShiftAsteroidColumns s) = (if struck s then hurt (game s) else game s) /\
  tasks (ShiftAsteroidColumns s) = tasks s ++ (if struck s then collision_tasks else []) /\
  shots (ShiftAsteroidColumns s) = shots s /\
  health (ShiftAsteroidColumns s) =
    (if struck s && (0 <? health s) then health s - 1 else health s).
Proof.
  intros Im H. destruct (ShiftAsteroidColumns_bumped s Im) as (G & T & S).
  split; [exact G|]. split; [exact T|]. split; [exact S|].
  unfold health in *. rewrite G.
  destruct (struck s); [|reflexivity]. unfold hurt. cbn [andb].
  destruct (Z.ltb_spec 0 (game_health (game s))); [|reflexivity].
  cbn. apply u8_small. lia.
Qed.

Lemma ShiftAsteroidColumns_collision_witness :
  game (ShiftAsteroidColumns demo_play)
    = (if struck demo_play then hurt (game demo_play) else game demo_play) /\
  tasks (ShiftAsteroidColumns demo_play)
    = tasks demo_play ++ (if struck demo_play then collision_tasks else []) /\
  shots (ShiftAsteroidColumns demo_play) = shots demo_play /\
  health (ShiftAsteroidColumns demo_play) =
    (if struck demo_play && (0 <? health demo_play)
     then health demo_play - 1 else health demo_play).
Proof.
  apply (ShiftAsteroidColumns_collision demo_play);
    [exact demo_play_image | vm_compute; split; [discriminate | reflexivity]].
Defined.

Lemma struck_after_spawn rnd s :
  image_ok s -> struck (GenerateAsteroidColumn rnd s) = tick_hit rnd s.
Proof.
  intros Im.
  destruct (GenerateAsteroidColumn_grown rnd s Im) as (G & _ & _ & _ & Done & Rest).
  unfold struck, tick_hit. rewrite G.
  set (x := game_x (game s)). set (y := game_y (game s)).
  destruct (Z.leb_spec 1 x); [|reflexivity].
  destruct (Z.leb_spec x MAX_COLUMNS); [|reflexivity].
  destruct (Z.leb_spec 1 y); [|reflexivity].
  destruct (Z.ltb_spec y MAP_HEIGHT); [|reflexivity].
  cbn [andb].
  assert (cell (GenerateAsteroidColumn rnd s) (x + 1) y = arriving rnd s) as ->;
    [|reflexivity].
  unfold arriving. fold x y.
  destruct (Z.eqb_spec x (MAX_COLUMNS - 1)) as [E|N].
  - replace (x + 1) with MAX_COLUMNS by lia. apply Done. lia.
  - unfold cell. apply Rest; unfold offset, MAX_COLUMNS, MAP_WIDTH, MAP_HEIGHT in *; lia.
Qed.

(** X10. One GenerateAndShift tick costs the ship at most one health point,
    exactly when an obstacle moves into its cell.  What moves in is the value
    its right neighbour held before the tick, except in column 57, where it
    is the value spawned during this tick.  On a hit the health is
    decremented (not below 0), one UpdateHealth is queued and one
    ResetScreenColor is scheduled; otherwise the game record and the
    scheduler are unchanged.  The score and the shot pool never change. *)
Theorem GenerateAndShift_collision rnd s :
  image_ok s -> 0 <= health s < 256 ->
  game (GenerateAndShift rnd s) = (if tick_hit rnd s then hurt (game s) else game s) /\
  tasks (GenerateAndShift rnd s)
    = tasks s ++ (if tick_hit rnd s then collision_tasks else []) /\
  shots (GenerateAndShift rnd s) = shots s /\
  score (GenerateAndShift rnd s) = score s /\
  health (GenerateAndShift rnd s) =
    (if tick_hit rnd s && (0 <? health s) then health s - 1 else health s).
Proof.
  intros Im H. unfold GenerateAndShift.
  destruct (GenerateAsteroidColumn_grown rnd s Im) as (G & Sh & T & Len & _).
  assert (image_ok (GenerateAsteroidColumn rnd s)) as Im'
    by (unfold image_ok in *; rewrite Len; exact Im).
  destruct (ShiftAsteroidColumns_bumped _ Im') as (G' & T' & S').
  rewrite (struck_after_spawn rnd s Im), G in G'.
  rewrite (struck_after_spawn rnd s Im), T in T'. rewrite Sh in S'.
  assert (forall g, game_score (hurt g) = game_score g) as Sc
    by (intros g; unfold hurt; destruct (0 <? game_health g); reflexivity).
  split; [exact G'|]. split; [exact T'|]. split; [exact S'|].
  unfold score, health in *. rewrite G'. split.
  - destruct (tick_hit rnd s); [apply Sc | reflexivity].
  - destruct (tick_hit rnd s); [|reflexivity]. unfold hurt. cbn [andb].
    destruct (Z.ltb_spec 0 (game_health (game s))); [|reflexivity].
    cbn. apply u8_small. lia.
Qed.

Lemma GenerateAndShift_collision_witness :
  game (GenerateAndShift rnd_all demo_play)
    = (if tick_hit rnd_all demo_play then hurt (game demo_play) else game demo_play) /\
  tasks (GenerateAndShift rnd_all demo_play)
    = tasks demo_play ++ (if tick_hit rnd_all demo_play then collision_tasks else []) /\
  shots (GenerateAndShift rnd_all demo_play) = shots demo_play /\
  score (GenerateAndShift rnd_all demo_play) = score demo_play /\
  health (GenerateAndShift rnd_all demo_play) =
    (if tick_hit rnd_all demo_play && (0 <? health demo_play)
     then health demo_play - 1 else health demo_play).
Proof.
  apply (GenerateAndShift_collision rnd_all demo_play);
    [exact demo_play_image | vm_compute; split; [discriminate | reflexivity]].
Defined.

(** ** Moves of the ship *)

Lemma ship_arrive_effects s :
  let hit := negb (cell s (game_x (game s)) (game_y (game s)) =? 0) in
  game (ship_arrive s) = (if hit then hurt (game s) else game s) /\
  asteroids (ship_arrive s) =
    (if hit then poke (asteroids s) (offset (game_x (game s)) (game_y (game s))) 0
     else asteroids s) /\
  tasks (ship_arrive s) = tasks s ++ (if hit then collision_tasks else []) /\
  shots (ship_arrive s) = shots s.
Proof.
  cbv zeta. unfold ship_arrive.
  pose proof (rd_value (game_x (game s)) (game_y (game s)) s) as V.
  pose proof (rd_alike (game_x (game s)) (game_y (game s)) s) as (A & G & T & S).
  destruct (rd (game_x (game s)) (game_y (game s)) s) as [a s1]. cbn [fst snd] in *.
  subst a. rewrite G.
  destruct (negb (cell s (game_x (game s)) (game_y (game s)) =? 0)).
  - destruct (ship_hit_effects (game_x (game s)) (game_y (game s)) s1) as (Hg & Ht & Hs).
    rewrite Hg, Ht, Hs, ship_hit_asteroids, G, A, T, S. repeat split.
  - cbv zeta. unfold Game_SetColor, Game_CharXY. cbn. rewrite app_nil_r.
    repeat split; assumption.
Qed.

Lemma do_move_accepted m s :
  0 <= game_x (game s) < 256 -> 0 <= game_y (game s) < 256 ->
  accepted m s = true ->
  do_move m s =
  ship_arrive (upd_game (landed m)
                 (Game_CharXY " " (game_x (game s)) (game_y (game s)) s)).
Proof.
  intros X Y A.
  destruct m; cbn [do_move accepted landed] in *;
    unfold MoveLeft, MoveRight, MoveUp, MoveDown; rewrite A; cbv zeta;
    unfold upd_game, Game_CharXY; cbn [game emit set_io];
    b2p; unfold MAP_WIDTH, MAP_HEIGHT in *; rewrite u8_small by lia; reflexivity.
Qed.

(** X11. One move command.  When the guard of the move function fails the
    state is unchanged.  Otherwise the ship goes to the neighbouring cell; if
    that cell is empty nothing else changes in the game record, the grid or
    the scheduler; if it holds an obstacle, the cell is set to 0, the health
    is decremented (not below 0), one UpdateHealth is queued and one
    ResetScreenColor is scheduled 250 ms later.  A move never changes the
    score, the charge or the shot pool. *)
Theorem do_move_outcome m s :
  0 <= game_x (game s) < 256 -> 0 <= game_y (game s) < 256 ->
  (accepted m s = false -> do_move m s = s) /\
  (accepted m s = true ->
     ship (do_move m s) = target m s /\
     game (do_move m s) =
       (if negb (cell s (fst (target m s)) (snd (target m s)) =? 0)
        then hurt (landed m (game s)) else landed m (game s)) /\
     asteroids (do_move m s) =
       (if negb (cell s (fst (target m s)) (snd (target m s)) =? 0)
        then poke (asteroids s) (offset (fst (target m s)) (snd (target m s))) 0
        else asteroids s) /\
     tasks (do_move m s) =
       tasks s ++ (if negb (cell s (fst (target m s)) (snd (target m s)) =? 0)
                   then collision_tasks else []) /\
     shots (do_move m s) = shots s /\
     score (do_move m s) = score s /\
     cooldown (do_move m s) = cooldown s).
Proof.
  intros X Y. split.
  - intros A. destruct m; cbn [do_move accepted] in *;
      unfold MoveLeft, MoveRight, MoveUp, MoveDown; rewrite A; reflexivity.
  - intros A. rewrite (do_move_accepted m s X Y A).
    assert (target m s = (game_x (landed m (game s)), game_y (landed m (game s)))) as P
      by (destruct m; reflexivity).
    rewrite P. cbn [fst snd].
    destruct (ship_arrive_effects
                (upd_game (landed m)
                   (Game_CharXY " " (game_x (game s)) (game_y (game s)) s)))
      as (G & As & T & S).
    cbv zeta in G, As, T. unfold cell in *.
    change (game (upd_game (landed m)
                    (Game_CharXY " " (game_x (game s)) (game_y (game s)) s)))
      with (landed m (game s)) in *.
    change (asteroids (upd_game (landed m)
                         (Game_CharXY " " (game_x (game s)) (game_y (game s)) s)))
      with (asteroids s) in *.
    change (tasks (upd_game (landed m)
                     (Game_CharXY " " (game_x (game s)) (game_y (game s)) s)))
      with (tasks s) in *.
    change (shots (upd_game (landed m)
                     (Game_CharXY " " (game_x (game s)) (game_y (game s)) s)))
      with (shots s) in *.
    assert (forall g, game_x (hurt g) = game_x g /\ game_y (hurt g) = game_y g /\
                      game_score (hurt g) = game_score g /\
                      game_shotCooldown (hurt g) = game_shotCooldown g) as Hu
      by (intros g; unfold hurt; destruct (0 <? game_health g); repeat split).
    destruct (Hu (landed m (game s))) as (H1 & H2 & H3 & H4).
    assert (game_score (landed m (game s)) = game_score (game s) /\
            game_shotCooldown (landed m (game s)) = game_shotCooldown (game s)) as [L1 L2]
      by (destruct m; split; reflexivity).
    unfold ship, score, cooldown. rewrite G, As, T, S.
    destruct (negb (peek (asteroids s)
                      (offset (game_x (landed m (game s))) (game_y (landed m (game s)))) =? 0));
      repeat split; rewrite ?H1, ?H2, ?H3, ?H4; auto.
Qed.

Lemma do_move_outcome_witness :
  (accepted MRight demo_play = false -> do_move MRight demo_play = demo_play) /\
  (accepted MRight demo_play = true ->
     ship (do_move MRight demo_play) = target MRight demo_play /\
     game (do_move MRight demo_play) =
       (if negb (cell demo_play (fst (target MRight demo_play))
                      (snd (target MRight demo_play)) =? 0)
        then hurt (landed MRight (game demo_play)) else landed MRight (game demo_play)) /\
     asteroids (do_move MRight demo_play) =
       (if negb (cell demo_play (fst (target MRight demo_play))
                      (snd (target MRight demo_play)) =? 0)
        then poke (asteroids demo_play)
                  (offset (fst (target MRight demo_play)) (snd (target MRight demo_play))) 0
        else asteroids demo_play) /\
     tasks (do_move MRight demo_play) =
       tasks demo_play ++
       (if negb (cell demo_play (fst (target MRight demo_play))
                      (snd (target MRight demo_play)) =? 0)
        then collision_tasks else []) /\
     shots (do_move MRight demo_play) = shots demo_play /\
     score (do_move MRight demo_play) = score demo_play /\
     cooldown (do_move MRight demo_play) = cooldown demo_play).
Proof.
  apply (do_move_outcome MRight demo_play); vm_compute; split; (discriminate || reflexivity).
Defined.

(** ** The bottom row *)

Lemma ship_hit_faults cx cy s :
  faults (ship_hit cx cy s) = if in_bounds cx cy then faults s else (cx, cy) :: faults s.
Proof.
  unfold ship_hit. cbv zeta. destruct (0 <? _); cbn; apply wr_faults.
Qed.

Lemma ship_arrive_faults s :
  in_bounds (game_x (game s)) (game_y (game s)) = false ->
  faults (ship_arrive s) =
    (if negb (cell s (game_x (game s)) (game_y (game s)) =? 0)
     then [(game_x (game s), game_y (game s)); (game_x (game s), game_y (game s))]
     else [(game_x (game s), game_y (game s))]) ++ faults s.
Proof.
  intros B. unfold ship_arrive, rd, asteroids_get. rewrite B.
  change (game (fault (game_x (game s)) (game_y (game s)) s)) with (game s).
  fold (cell s (game_x (game s)) (game_y (game s))).
  destruct (negb (cell s (game_x (game s)) (game_y (game s)) =? 0)).
  - rewrite ship_hit_faults, B. reflexivity.
  - reflexivity.
Qed.

(** X12. The ship can be moved down to row MAP_HEIGHT - 1 = 17, but the
    array has rows 0 to 16 only: MoveDown from row 16 is accepted and tests
    asteroids[x][17], a subscript outside the declared bounds.  The byte it
    designates is the one of asteroids[x+1][0]. *)
Theorem MoveDown_bottom_row s :
  0 <= game_x (game s) < 256 -> game_y (game s) = MAP_HEIGHT - 2 ->
  accepted MDown s = true /\
  ship (MoveDown s) = (game_x (game s), MAP_HEIGHT - 1) /\
  asteroids_get (asteroids s) (game_x (game s)) (MAP_HEIGHT - 1) = None /\
  faulted (game_x (game s)) (MAP_HEIGHT - 1) (MoveDown s) = true /\
  offset (game_x (game s)) (MAP_HEIGHT - 1) = offset (game_x (game s) + 1) 0.
Proof.
  intros X Y.
  assert (accepted MDown s = true) as A by (cbn [accepted]; rewrite Y; reflexivity).
  assert (in_bounds (game_x (game s)) (MAP_HEIGHT - 1) = false) as B.
  { unfold in_bounds. rewrite Z.ltb_irrefl. apply andb_false_r. }
  split; [exact A|].
  pose proof (do_move_accepted MDown s X ltac:(rewrite Y; unfold MAP_HEIGHT; lia) A) as E.
  cbn [do_move] in E. rewrite E.
  split; [rewrite ship_arrive_ship; unfold ship; cbn; rewrite Y; reflexivity|].
  split; [unfold asteroids_get; rewrite B; reflexivity|].
  split; [|unfold offset; lia].
  unfold faulted. rewrite ship_arrive_faults.
  - cbn [game upd_game set_game landed Game_CharXY emit set_io game_x game_y set_y].
    rewrite Y. replace (MAP_HEIGHT - 2 + 1) with (MAP_HEIGHT - 1) by lia.
    destruct (negb _); cbn [app existsb fst snd]; rewrite !Z.eqb_refl; reflexivity.
  - cbn [game upd_game set_game landed Game_CharXY emit set_io game_x game_y set_y].
    rewrite Y. exact B.
Qed.

Lemma MoveDown_bottom_row_witness :
  accepted MDown (Nat.iter 7 MoveDown demo_play) = true /\
  ship (MoveDown (Nat.iter 7 MoveDown demo_play))
    = (game_x (game (Nat.iter 7 MoveDown demo_play)), MAP_HEIGHT - 1) /\
  asteroids_get (asteroids (Nat.iter 7 MoveDown demo_play))
    (game_x (game (Nat.iter 7 MoveDown demo_play))) (MAP_HEIGHT - 1) = None /\
  faulted (game_x (game (Nat.iter 7 MoveDown demo_play))) (MAP_HEIGHT - 1)
    (MoveDown (Nat.iter 7 MoveDown demo_play)) = true /\
  offset (game_x (game (Nat.iter 7 MoveDown demo_play))) (MAP_HEIGHT - 1)
    = offset (game_x (game (Nat.iter 7 MoveDown demo_play)) + 1) 0.
Proof.
  apply (MoveDown_bottom_row (Nat.iter 7 MoveDown demo_play)).
  - vm_compute. split; (discriminate || reflexivity).
  - vm_compute. reflexivity.
Defined.

(** ** The host sub-command, on words *)

Lemma tolower_zero c : tolower c = 0 <-> nat_of_ascii c = 0%nat.
Proof.
  unfold tolower.
  destruct ((65 <=? Z.of_nat (nat_of_ascii c)) && (Z.of_nat (nat_of_ascii c) <=? 90)) eqn:E.
  - apply andb_true_iff in E as [E1 E2]. b2p. lia.
  - lia.
Qed.

Lemma strcasecmp_zero a : forall b,
  nul_free a = true -> nul_free b = true ->
  (strcasecmp a b = 0 <-> lower a = lower b).
Proof.
  induction a as [|ca a IH]; intros [|cb b] Na Nb; cbn [strcasecmp lower].
  - split; reflexivity.
  - cbn [nul_free] in Nb. apply andb_true_iff in Nb as [Nb _].
    apply negb_true_iff, Nat.eqb_neq in Nb.
    split; [intros H0; exfalso; apply Nb, tolower_zero; lia | discriminate].
  - cbn [nul_free] in Na. apply andb_true_iff in Na as [Na _].
    apply negb_true_iff, Nat.eqb_neq in Na.
    split; [intros H0; exfalso; apply Na, tolower_zero; lia | discriminate].
  - cbn [nul_free] in Na, Nb.
    apply andb_true_iff in Na as [_ Na]. apply andb_true_iff in Nb as [_ Nb].
    destruct (Z.eqb_spec (tolower ca) (tolower cb)) as [E|N].
    + rewrite (IH b Na Nb). rewrite E. split; [intros ->; reflexivity | intros H; inversion H; auto].
    + split; [lia | intros H; inversion H; contradiction].
Qed.

(** X13. The sub-command handler compares its first argument with the word
    reset ignoring ASCII case: whatever argc says, the score is set to 0 and
    the message Scores reset is logged exactly when the argument, put in
    lower case, is the word reset; otherwise the score is kept and
    command not supported is logged.  Nothing else of the game state changes. *)
Theorem Callback_resets_on_reset argc a0 rest s :
  nul_free a0 = true ->
  exists s', Callback argc (a0 :: rest) s = Some s' /\
    (lower a0 = lower "reset" ->
       score s' = 0 /\ hd C_Bell (io s') = C_Log (game_id (game s)) "Scores reset") /\
    (lower a0 <> lower "reset" ->
       score s' = score s /\
       hd C_Bell (io s') = C_Log (game_id (game s)) "command not supported") /\
    health s' = health s /\ cooldown s' = cooldown s /\ ship s' = ship s /\
    tasks s' = tasks s /\ shots s' = shots s /\ asteroids s' = asteroids s /\
    receiver s' = receiver s /\ probability s' = probability s /\
    s' = set_io (io s') (upd_game (set_score (score s')) s).
Proof.
  intros N. pose proof (strcasecmp_zero a0 "reset" N eq_refl) as Z0.
  unfold Callback, Game_Log. cbv zeta.
  destruct (Z.eqb_spec (strcasecmp a0 "reset") 0) as [E|E];
    eexists; (split; [reflexivity|]); destruct (argc =? 0);
    repeat split; try reflexivity; try (exfalso; tauto);
    destruct s as [g m sh rw pr ts rc tr fl]; destruct g; reflexivity.
Qed.

Lemma Callback_resets_on_reset_witness :
  exists s', Callback 1 ["ReSeT"%string] demo_scored = Some s' /\
    (lower "ReSeT" = lower "reset" ->
       score s' = 0 /\
       hd C_Bell (io s') = C_Log (game_id (game demo_scored)) "Scores reset") /\
    (lower "ReSeT" <> lower "reset" ->
       score s' = score demo_scored /\
       hd C_Bell (io s') = C_Log (game_id (game demo_scored)) "command not supported") /\
    health s' = health demo_scored /\ cooldown s' = cooldown demo_scored /\
    ship s' = ship demo_scored /\
    tasks s' = tasks demo_scored /\ shots s' = shots demo_scored /\
    asteroids s' = asteroids demo_scored /\
    receiver s' = receiver demo_scored /\ probability s' = probability demo_scored /\
    s' = set_io (io s') (upd_game (set_score (score s')) demo_scored).
Proof. apply (Callback_resets_on_reset 1 "ReSeT" [] demo_scored). reflexivity. Defined.

(** ** What changes the score *)

Lemma GameOver_game s : game (GameOver s) = game s.
Proof.
  change (game (GameOver s))
    with (game (release_all (Task_Remove T_IncreaseScore None
                               (Task_Remove T_GenerateAndShift None s)))).
  destruct (release_all_rest (Task_Remove T_IncreaseScore None
                               (Task_Remove T_GenerateAndShift None s))) as (G & _).
  rewrite G. reflexivity.
Qed.

Lemma UpdateHealth_game s : game (UpdateHealth s) = game s.
Proof.
  unfold UpdateHealth, Game_CharXY, Game_SetColor, Game_Printf. cbv zeta.
  cbn [game emit set_io].
  repeat match goal with
         | |- context [if ?c then _ else _] => destruct c
         end; cbn [game emit set_io]; rewrite ?GameOver_game; reflexivity.
Qed.

Lemma UpdateShotCooldown_game s : game (UpdateShotCooldown s) = game s.
Proof.
  unfold UpdateShotCooldown, charge_bar, Game_CharXY, Game_SetColor, Game_Printf.
  cbv zeta. cbn [game emit set_io].
  repeat match goal with
         | |- context [if ?c then _ else _] => destruct c
         end; reflexivity.
Qed.

Lemma MoveRightShot_score k s :
  score (MoveRightShot k s) = score s \/ score (MoveRightShot k s) = int16 (score s + 1).
Proof.
  unfold MoveRightShot, score. destruct (_ <? _); cbv zeta; [|left; reflexivity].
  match goal with
  | |- context [rd ?c ?r ?t] =>
      pose proof (rd_game c r t) as G; destruct (rd c r t) as [a s1]
  end.
  cbn [snd] in G. destruct (negb (a =? 0)).
  - right. cbn. rewrite wr_game, G. reflexivity.
  - left. cbn. rewrite G. reflexivity.
Qed.

Lemma Shoot_score s : score (Shoot s) = score s.
Proof.
  unfold Shoot, score. destruct (3 <=? _); [|reflexivity].
  destruct (find_shot s); [|reflexivity]. cbv zeta.
  destruct (gRechargingWeapon _ =? 0); reflexivity.
Qed.

Lemma Receiver_score c s : score (Receiver c s) = score s.
Proof.
  destruct (Receiver_frame_or_shoot c s) as [F|F].
  - unfold score. apply (fr_score _ _ F).
  - rewrite F. apply Shoot_score.
Qed.

(** X14. What each event does to the score.  Play sets it to 0; the
    sub-command handler keeps it or sets it to 0; the survival tick
    IncreaseScore adds one; the advance of a shot keeps it or adds one (a
    hit); every other event (a key press, the spawn/shift tick, the display
    updates, the recharge tick, Help) leaves it unchanged.  The additions
    are on 16 bits. *)
Theorem score_changes e s s' :
  step e s = Some s' ->
  match e with
  | EPlay => score s' = 0
  | ECallback _ _ => score s' = score s \/ score s' = 0
  | ETask T_IncreaseScore _ _ => score s' = int16 (score s + 1)
  | ETask T_MoveRightShot _ _ => score s' = score s \/ score s' = int16 (score s + 1)
  | _ => score s' = score s
  end.
Proof.
  destruct e as [| |argc argv|c|fn arg rnd]; cbn [step]; intros E.
  - inversion E; subst. destruct (Play_effects s) as (G & _). unfold score. rewrite G.
    reflexivity.
  - inversion E; subst. reflexivity.
  - unfold Callback, Game_Log in E. cbv zeta in E.
    destruct argv as [|a0 rest]; [discriminate|].
    destruct (argc =? 0), (strcasecmp a0 "reset" =? 0); inversion E; subst;
      (left; reflexivity) || (right; reflexivity).
  - destruct (receiver s); inversion E; subst. apply Receiver_score.
  - destruct (take_task fn arg (tasks s)) as [ts|]; inversion E; subst; clear E.
    assert (score (set_tasks ts s) = score s) as E0 by reflexivity.
    destruct fn; cbn [run_task]; rewrite <- E0.
    + unfold score. apply (fr_score _ _ (GenerateAndShift_frame rnd (set_tasks ts s))).
    + apply IncreaseScore_score.
    + rewrite UpdateScore_chain. apply UpdateScore_with_score.
    + unfold score. rewrite UpdateHealth_game. reflexivity.
    + unfold score. rewrite UpdateShotCooldown_game. reflexivity.
    + reflexivity.
    + reflexivity.
    + destruct arg; [apply MoveRightShot_score | left; reflexivity].
    + unfold DecreaseCooldown, score. destruct (_ <? 6); reflexivity.
Qed.

Lemma score_changes_witness :
  score (IncreaseScore (set_tasks (tasks demo_play) demo_play)) = int16 (score demo_play + 1).
Proof.
  apply (score_changes (ETask T_IncreaseScore None rnd_none) demo_play
           (IncreaseScore (set_tasks (tasks demo_play) demo_play))).
  vm_compute. reflexivity.
Defined.

(** ** The flight of a shot *)

Lemma MoveRightShot_shots_length k s :
  List.length (shots (MoveRightShot k s)) = List.length (shots s).
Proof.
  unfold MoveRightShot. destruct (_ <? _); cbv zeta.
  - match goal with
    | |- context [rd ?c ?r ?t] =>
        pose proof (rd_alike c r t) as (_ & _ & _ & S); destruct (rd c r t) as [a s1]
    end.
    cbn [snd] in S. destruct (negb (a =? 0)); cbn;
      rewrite ?put_nat_length, ?wr_shots, S; cbn; apply put_nat_length.
  - cbn. apply put_nat_length.
Qed.

Lemma shot_flight_iter k x y st n : forall s,
  0 <= k -> (Z.to_nat k < List.length (shots s))%nat ->
  shot_at s k = mk_shot x y st -> 0 <= x ->
  x + Z.of_nat n <= MAP_WIDTH - 2 ->
  (forall c, x < c <= x + Z.of_nat n -> cell s c y = 0) ->
  shot_at (Nat.iter n (MoveRightShot k) s) k = mk_shot (x + Z.of_nat n) y st /\
  (forall j, 0 <= j -> j <> k ->
     shot_at (Nat.iter n (MoveRightShot k) s) j = shot_at s j) /\
  List.length (shots (Nat.iter n (MoveRightShot k) s)) = List.length (shots s) /\
  asteroids (Nat.iter n (MoveRightShot k) s) = asteroids s /\
  game (Nat.iter n (MoveRightShot k) s) = game s /\
  tasks (Nat.iter n (MoveRightShot k) s) = tasks s.
Proof.
  induction n as [|n IH]; intros s K L O X B Z0.
  - cbn [Nat.iter nat_rect]. replace (x + Z.of_nat 0) with x by lia. repeat split; auto.
  - change (Nat.iter (S n) (MoveRightShot k) s)
      with (MoveRightShot k (Nat.iter n (MoveRightShot k) s)).
    destruct (IH s K L O X) as (O' & J' & L' & A' & G' & T'); [lia | intros; apply Z0; lia|].
    destruct (MoveRightShot_move k (Nat.iter n (MoveRightShot k) s) (x + Z.of_nat n) y st)
      as (O2 & J2 & A2 & G2 & T2); auto; try lia.
    { unfold cell. rewrite A'. apply Z0. lia. }
    rewrite O2, A2, G2, T2, MoveRightShot_shots_length.
    replace (x + Z.of_nat (S n)) with (x + Z.of_nat n + 1) by lia.
    repeat split; auto. intros j J N. rewrite J2 by auto. apply J'; auto.
Qed.

(** X15. The flight of a shot over empty cells.  A shot of slot k at
    column x of row y, with the n cells to its right empty and
    x + n <= MAP_WIDTH - 2, is at column x + n after n runs of MoveRightShot,
    still with its status; the grid, the game record (so the score), the
    scheduler and the other slots are unchanged.  If x + n = MAP_WIDTH - 2,
    the next run releases the slot and removes its task. *)
Theorem shot_flight k n s :
  0 <= k -> (Z.to_nat k < List.length (shots s))%nat ->
  0 <= shot_x (shot_at s k) ->
  shot_x (shot_at s k) + Z.of_nat n <= MAP_WIDTH - 2 ->
  (forall c, shot_x (shot_at s k) < c <= shot_x (shot_at s k) + Z.of_nat n ->
     cell s c (shot_y (shot_at s k)) = 0) ->
  shot_at (Nat.iter n (MoveRightShot k) s) k =
    set_shot_x (shot_x (shot_at s k) + Z.of_nat n) (shot_at s k) /\
  (forall j, 0 <= j -> j <> k ->
     shot_at (Nat.iter n (MoveRightShot k) s) j = shot_at s j) /\
  asteroids (Nat.iter n (MoveRightShot k) s) = asteroids s /\
  game (Nat.iter n (MoveRightShot k) s) = game s /\
  tasks (Nat.iter n (MoveRightShot k) s) = tasks s /\
  (shot_x (shot_at s k) + Z.of_nat n = MAP_WIDTH - 2 ->
     shot_status (shot_at (Nat.iter (S n) (MoveRightShot k) s) k) = 0 /\
     count_task T_MoveRightShot (Some k)
       (tasks (Nat.iter (S n) (MoveRightShot k) s)) = 0 /\
     score (Nat.iter (S n) (MoveRightShot k) s) = score s).
Proof.
  intros K L X B Z0. destruct (shot_at s k) as [x y st] eqn:O. cbn [shot_x shot_y] in *.
  destruct (shot_flight_iter k x y st n s K L O X B Z0) as (O' & J' & L' & A' & G' & T').
  repeat split; auto.
  - change (Nat.iter (S n) (MoveRightShot k) s)
      with (MoveRightShot k (Nat.iter n (MoveRightShot k) s)).
    destruct (MoveRightShot_edge k (Nat.iter n (MoveRightShot k) s)) as (E1 & _);
      [rewrite L'; exact L | rewrite O'; cbn [shot_x]; lia |].
    rewrite E1, O'. reflexivity.
  - change (Nat.iter (S n) (MoveRightShot k) s)
      with (MoveRightShot k (Nat.iter n (MoveRightShot k) s)).
    destruct (MoveRightShot_edge k (Nat.iter n (MoveRightShot k) s)) as (_ & _ & _ & _ & E5);
      [rewrite L'; exact L | rewrite O'; cbn [shot_x]; lia |].
    rewrite E5, count_task_remove.
    replace (task_fn_eqb T_MoveRightShot T_MoveRightShot) with true by reflexivity.
    replace (arg_eqb (Some k) (Some k)) with true; [reflexivity|].
    symmetry. apply arg_eqb_eq. reflexivity.
  - change (Nat.iter (S n) (MoveRightShot k) s)
      with (MoveRightShot k (Nat.iter n (MoveRightShot k) s)).
    destruct (MoveRightShot_edge k (Nat.iter n (MoveRightShot k) s)) as (_ & _ & _ & E4 & _);
      [rewrite L'; exact L | rewrite O'; cbn [shot_x]; lia |].
    unfold score. rewrite E4, G'. reflexivity.
Qed.

Lemma shot_flight_witness :
  shot_at (Nat.iter 3 (MoveRightShot 4) demo_shot) 4 =
    set_shot_x (shot_x (shot_at demo_shot 4) + Z.of_nat 3) (shot_at demo_shot 4) /\
  (forall j, 0 <= j -> j <> 4 ->
     shot_at (Nat.iter 3 (MoveRightShot 4) demo_shot) j = shot_at demo_shot j) /\
  asteroids (Nat.iter 3 (MoveRightShot 4) demo_shot) = asteroids demo_shot /\
  game (Nat.iter 3 (MoveRightShot 4) demo_shot) = game demo_shot /\
  tasks (Nat.iter 3 (MoveRightShot 4) demo_shot) = tasks demo_shot /\
  (shot_x (shot_at demo_shot 4) + Z.of_nat 3 = MAP_WIDTH - 2 ->
     shot_status (shot_at (Nat.iter 4%nat (MoveRightShot 4) demo_shot) 4) = 0 /\
     count_task T_MoveRightShot (Some 4)
       (tasks (Nat.iter 4%nat (MoveRightShot 4) demo_shot)) = 0 /\
     score (Nat.iter 4%nat (MoveRightShot 4) demo_shot) = score demo_shot).
Proof.
  apply (shot_flight 4 3 demo_shot).
  - lia.
  - vm_compute. lia.
  - vm_compute. discriminate.
  - vm_compute. discriminate.
  - intros c C. change (shot_x (shot_at demo_shot 4)) with 2 in C.
    assert (c = 3 \/ c = 4 \/ c = 5) as [-> | [-> | ->]] by lia; vm_compute; reflexivity.
Defined.

(** ** What the terminal shows *)

Lemma string_append_assoc (a b c : string) :
  String.append (String.append a b) c = String.append a (String.append b c).
Proof. induction a as [|ch a IH]; cbn; [reflexivity | rewrite IH; reflexivity]. Qed.

(** X16. The charge gauge shows the charge.  For a charge between 0 and 6,
    UpdateShotCooldown prints Weapon Charge: [ followed by as many + as the
    charge, padded with spaces to width 6, and the closing bracket; it
    changes nothing but the terminal trace. *)
Theorem UpdateShotCooldown_gauge s :
  0 <= cooldown s <= 6 ->
  printed (io (UpdateShotCooldown s)) =
    String.append (printed (io s))
      (String.append "Weapon Charge: [" (String.append (gauge (cooldown s)) "]")) /\
  game (UpdateShotCooldown s) = game s /\
  tasks (UpdateShotCooldown s) = tasks s /\
  shots (UpdateShotCooldown s) = shots s /\
  asteroids (UpdateShotCooldown s) = asteroids s /\
  UpdateShotCooldown s = set_io (io (UpdateShotCooldown s)) s.
Proof.
  unfold cooldown. intros C.
  assert (game_shotCooldown (game s) = 0 \/ game_shotCooldown (game s) = 1 \/
          game_shotCooldown (game s) = 2 \/ game_shotCooldown (game s) = 3 \/
          game_shotCooldown (game s) = 4 \/ game_shotCooldown (game s) = 5 \/
          game_shotCooldown (game s) = 6) as H by lia.
  unfold UpdateShotCooldown, charge_bar, Game_CharXY, Game_SetColor, Game_Printf.
  cbv zeta. cbn [game emit set_io].
  destruct H as [H|[H|[H|[H|[H|[H|H]]]]]]; rewrite H; cbn [Z.eqb Pos.eqb];
    cbn [io emit set_io printed game tasks shots asteroids];
    rewrite ?string_append_assoc; repeat split.
Qed.

Lemma UpdateShotCooldown_gauge_witness :
  printed (io (UpdateShotCooldown demo_shot)) =
    String.append (printed (io demo_shot))
      (String.append "Weapon Charge: [" (String.append (gauge (cooldown demo_shot)) "]")) /\
  game (UpdateShotCooldown demo_shot) = game demo_shot /\
  tasks (UpdateShotCooldown demo_shot) = tasks demo_shot /\
  shots (UpdateShotCooldown demo_shot) = shots demo_shot /\
  asteroids (UpdateShotCooldown demo_shot) = asteroids demo_shot /\
  UpdateShotCooldown demo_shot = set_io (io (UpdateShotCooldown demo_shot)) demo_shot.
Proof.
  apply (UpdateShotCooldown_gauge demo_shot). vm_compute. split; discriminate.
Defined.

(** X17. The difficulty shown is the number of thresholds passed plus one:
    in every reachable state UpdateDifficulty prints
    STARTING_DIFFICULTY - asteroidSpawnProbability + 1, a number between 1
    and 11, below the play area, and changes nothing but the terminal
    trace. *)
Theorem UpdateDifficulty_level s :
  reachable s ->
  io (UpdateDifficulty s) =
    C_Printf "Difficulty: %d" [STARTING_DIFFICULTY - probability s + 1]
    :: C_CharXY CR 0 (MAP_HEIGHT + 4) :: io s /\
  1 <= STARTING_DIFFICULTY - probability s + 1 <= 11 /\
  game (UpdateDifficulty s) = game s /\
  tasks (UpdateDifficulty s) = tasks s /\
  probability (UpdateDifficulty s) = probability s /\
  UpdateDifficulty s = set_io (io (UpdateDifficulty s)) s.
Proof.
  intros R. destruct (reachable_Inv s R) as [_ _ P _].
  unfold UpdateDifficulty, probability, Game_CharXY, Game_Printf. cbv zeta.
  unfold STARTING_DIFFICULTY in *. rewrite u8_small by lia.
  repeat split; lia.
Qed.

Lemma UpdateDifficulty_level_witness :
  io (UpdateDifficulty demo_play) =
    C_Printf "Difficulty: %d" [STARTING_DIFFICULTY - probability demo_play + 1]
    :: C_CharXY CR 0 (MAP_HEIGHT + 4) :: io demo_play /\
  1 <= STARTING_DIFFICULTY - probability demo_play + 1 <= 11 /\
  game (UpdateDifficulty demo_play) = game demo_play /\
  tasks (UpdateDifficulty demo_play) = tasks demo_play /\
  probability (UpdateDifficulty demo_play) = probability demo_play /\
  UpdateDifficulty demo_play = set_io (io (UpdateDifficulty demo_play)) demo_play.
Proof. apply (UpdateDifficulty_level demo_play). exact demo_play_reachable. Defined.

(** * main.c: the LEDs *)

Lemma u8_bits z n : 0 <= n -> Z.testbit (u8 z) n = (n <? 8) && Z.testbit z n.
Proof.
  intros N. unfold u8. change 256 with (2 ^ 8).
  destruct (Z.ltb_spec n 8).
  - rewrite Z.mod_pow2_bits_low by lia. reflexivity.
  - rewrite Z.mod_pow2_bits_high by lia. reflexivity.
Qed.

Lemma byte_bits_high z n : byte z -> 8 <= n -> Z.testbit z n = false.
Proof.
  intros B N. rewrite <- (u8_small z B), u8_bits by lia.
  destruct (Z.ltb_spec n 8); [lia | reflexivity].
Qed.

Lemma u8_byte z : byte (u8 z).
Proof. unfold byte, u8. apply Z.mod_pos_bound. lia. Qed.

Lemma mask_bits k n : 0 <= k -> Z.testbit (2 ^ k) n = (n =? k).
Proof. intros K. rewrite Z.pow2_bits_eqb by exact K. apply Z.eqb_sym. Qed.

Lemma set_bit_bits z k n :
  byte z -> 0 <= k < 8 -> 0 <= n ->
  Z.testbit (u8 (Z.lor z (2 ^ k))) n = (n =? k) || Z.testbit z n.
Proof.
  intros B K N. rewrite u8_bits, Z.lor_spec, mask_bits by lia.
  destruct (Z.ltb_spec n 8); cbn [andb]; [apply orb_comm|].
  rewrite (byte_bits_high z n B) by lia.
  destruct (Z.eqb_spec n k); [lia | reflexivity].
Qed.

Lemma clear_bit_bits z k n :
  byte z -> 0 <= k < 8 -> 0 <= n ->
  Z.testbit (u8 (Z.land z (Z.lnot (2 ^ k)))) n = negb (n =? k) && Z.testbit z n.
Proof.
  intros B K N. rewrite u8_bits, Z.land_spec, Z.lnot_spec, mask_bits by lia.
  destruct (Z.ltb_spec n 8); cbn [andb]; [apply andb_comm|].
  rewrite (byte_bits_high z n B) by lia. symmetry. apply andb_false_r.
Qed.

Lemma flip_bit_bits z k n :
  byte z -> 0 <= k < 8 -> 0 <= n ->
  Z.testbit (u8 (Z.lxor z (2 ^ k))) n = xorb (Z.testbit z n) (n =? k).
Proof.
  intros B K N. rewrite u8_bits, Z.lxor_spec, mask_bits by lia.
  destruct (Z.ltb_spec n 8); cbn [andb]; [reflexivity|].
  rewrite (byte_bits_high z n B) by lia.
  destruct (Z.eqb_spec n k); [lia | reflexivity].
Qed.

Lemma flip_bit_twice z k :
  byte z -> 0 <= k < 8 -> u8 (Z.lxor (u8 (Z.lxor z (2 ^ k))) (2 ^ k)) = z.
Proof.
  intros B K. apply Z.bits_inj'. intros n N.
  rewrite !flip_bit_bits by (auto using u8_byte; lia).
  destruct (Z.testbit z n), (n =? k); reflexivity.
Qed.

Lemma set_bit_twice z k :
  byte z -> 0 <= k < 8 ->
  u8 (Z.lor (u8 (Z.lor z (2 ^ k))) (2 ^ k)) = u8 (Z.lor z (2 ^ k)).
Proof.
  intros B K. apply Z.bits_inj'. intros n N.
  rewrite !set_bit_bits by (auto using u8_byte; lia).
  destruct (Z.testbit z n), (n =? k); reflexivity.
Qed.

Lemma clear_bit_twice z k :
  byte z -> 0 <= k < 8 ->
  u8 (Z.land (u8 (Z.land z (Z.lnot (2 ^ k)))) (Z.lnot (2 ^ k)))
  = u8 (Z.land z (Z.lnot (2 ^ k))).
Proof.
  intros B K. apply Z.bits_inj'. intros n N.
  rewrite !clear_bit_bits by (auto using u8_byte; lia).
  destruct (Z.testbit z n), (n =? k); reflexivity.
Qed.

(** X18. InitGPIO touches the two LED pins only.  On 8-bit registers, it
    makes P1.0 and P4.7 outputs (their direction bits are set) and switches
    both LEDs off (their output bits are cleared); every other bit of P1DIR,
    P1OUT, P4DIR and P4OUT keeps its value, nothing is logged, and calling
    it a second time changes nothing. *)
Theorem InitGPIO_pins b :
  board_ok b ->
  (forall n, 0 <= n ->
     pin (P1DIR (InitGPIO b)) n = (n =? 0) || pin (P1DIR b) n /\
     pin (P1OUT (InitGPIO b)) n = negb (n =? 0) && pin (P1OUT b) n /\
     pin (P4DIR (InitGPIO b)) n = (n =? 7) || pin (P4DIR b) n /\
     pin (P4OUT (InitGPIO b)) n = negb (n =? 7) && pin (P4OUT b) n) /\
  board_ok (InitGPIO b) /\
  sys_log (InitGPIO b) = sys_log b /\
  InitGPIO (InitGPIO b) = InitGPIO b.
Proof.
  intros (B1 & B2 & B3 & B4). unfold InitGPIO, pin. cbv zeta.
  cbn [P1OUT P1DIR P4OUT P4DIR sys_log set_P1OUT set_P1DIR set_P4OUT set_P4DIR].
  change GPIO_LED1 with (2 ^ 0). change GPIO_LED2 with (2 ^ 7).
  split; [|split; [|split]].
  - intros n N.
    rewrite !set_bit_bits, !clear_bit_bits by (auto; lia). repeat split.
  - repeat split; apply u8_byte.
  - reflexivity.
  - rewrite !set_bit_twice, !clear_bit_twice by (auto; lia). reflexivity.
Qed.

Lemma InitGPIO_pins_witness :
  (forall n, 0 <= n ->
     pin (P1DIR (InitGPIO demo_board)) n = (n =? 0) || pin (P1DIR demo_board) n /\
     pin (P1OUT (InitGPIO demo_board)) n = negb (n =? 0) && pin (P1OUT demo_board) n /\
     pin (P4DIR (InitGPIO demo_board)) n = (n =? 7) || pin (P4DIR demo_board) n /\
     pin (P4OUT (InitGPIO demo_board)) n = negb (n =? 7) && pin (P4OUT demo_board) n) /\
  board_ok (InitGPIO demo_board) /\
  sys_log (InitGPIO demo_board) = sys_log demo_board /\
  InitGPIO (InitGPIO demo_board) = InitGPIO demo_board.
Proof.
  apply (InitGPIO_pins demo_board). unfold board_ok, byte. cbn. lia.
Defined.

(** X19. BlinkLED toggles one LED.  Its argument is taken on 8 bits.  On
    8-bit registers, an argument equal to GPIO_LED1 inverts bit 0 of P1OUT
    and one equal to GPIO_LED2 inverts bit 7 of P4OUT, each logging one
    message and leaving every other bit and register alone; any other
    argument does nothing at all.  Two calls with the same argument restore
    the registers.  An argument that exceeds 8 bits acts as its low byte. *)
Theorem BlinkLED_toggles type b :
  board_ok b ->
  (u8 type = GPIO_LED1 ->
     (forall n, 0 <= n ->
        pin (P1OUT (BlinkLED type b)) n = xorb (pin (P1OUT b) n) (n =? 0)) /\
     P4OUT (BlinkLED type b) = P4OUT b /\
     sys_log (BlinkLED type b) = "[BlinkLED] LED1 blinked"%string :: sys_log b) /\
  (u8 type = GPIO_LED2 ->
     (forall n, 0 <= n ->
        pin (P4OUT (BlinkLED type b)) n = xorb (pin (P4OUT b) n) (n =? 7)) /\
     P1OUT (BlinkLED type b) = P1OUT b /\
     sys_log (BlinkLED type b) = "[BlinkLED] LED2 blinked"%string :: sys_log b) /\
  (u8 type <> GPIO_LED1 -> u8 type <> GPIO_LED2 -> BlinkLED type b = b) /\
  P1DIR (BlinkLED type b) = P1DIR b /\ P4DIR (BlinkLED type b) = P4DIR b /\
  board_ok (BlinkLED type b) /\
  P1OUT (BlinkLED type (BlinkLED type b)) = P1OUT b /\
  P4OUT (BlinkLED type (BlinkLED type b)) = P4OUT b /\
  BlinkLED type b = BlinkLED (u8 type) b /\
  BlinkLED (type + 256) b = BlinkLED type b.
Proof.
  intros (B1 & B2 & B3 & B4).
  assert (u8 (u8 type) = u8 type) as Idem by (apply u8_small, u8_byte).
  assert (u8 (type + 256) = u8 type) as Wrap.
  { unfold u8. replace (type + 256) with (type + 1 * 256) by lia. apply Z.mod_add. lia. }
  pose proof (flip_bit_twice (P1OUT b) 0 B1 ltac:(lia)) as T1.
  pose proof (flip_bit_twice (P4OUT b) 7 B3 ltac:(lia)) as T4.
  pose proof (fun n N => flip_bit_bits (P1OUT b) 0 n B1 ltac:(lia) N) as F1.
  pose proof (fun n N => flip_bit_bits (P4OUT b) 7 n B3 ltac:(lia) N) as F4.
  pose proof (u8_byte (Z.lxor (P1OUT b) (2 ^ 0))) as U1.
  pose proof (u8_byte (Z.lxor (P4OUT b) (2 ^ 7))) as U4.
  change (2 ^ 0) with 1 in *. change (2 ^ 7) with 128 in *.
  unfold BlinkLED, pin, board_ok, GPIO_LED1, GPIO_LED2, BIT0, BIT7, byte in *.
  cbv zeta. rewrite Idem, Wrap.
  destruct (Z.eqb_spec (u8 type) 1) as [E1|N1];
    [|destruct (Z.eqb_spec (u8 type) 128) as [E2|N2]];
    cbn [P1OUT P1DIR P4OUT P4DIR sys_log set_P1OUT set_P1DIR set_P4OUT set_P4DIR LogMsg];
    rewrite ?T1, ?T4; repeat split; auto; try lia.
Qed.

Lemma BlinkLED_toggles_witness :
  (u8 384 = GPIO_LED1 ->
     (forall n, 0 <= n ->
        pin (P1OUT (BlinkLED 384 demo_board)) n
        = xorb (pin (P1OUT demo_board) n) (n =? 0)) /\
     P4OUT (BlinkLED 384 demo_board) = P4OUT demo_board /\
     sys_log (BlinkLED 384 demo_board)
       = "[BlinkLED] LED1 blinked"%string :: sys_log demo_board) /\
  (u8 384 = GPIO_LED2 ->
     (forall n, 0 <= n ->
        pin (P4OUT (BlinkLED 384 demo_board)) n
        = xorb (pin (P4OUT demo_board) n) (n =? 7)) /\
     P1OUT (BlinkLED 384 demo_board) = P1OUT demo_board /\
     sys_log (BlinkLED 384 demo_board)
       = "[BlinkLED] LED2 blinked"%string :: sys_log demo_board) /\
  (u8 384 <> GPIO_LED1 -> u8 384 <> GPIO_LED2 ->
     BlinkLED 384 demo_board = demo_board) /\
  P1DIR (BlinkLED 384 demo_board) = P1DIR demo_board /\
  P4DIR (BlinkLED 384 demo_board) = P4DIR demo_board /\
  board_ok (BlinkLED 384 demo_board) /\
  P1OUT (BlinkLED 384 (BlinkLED 384 demo_board)) = P1OUT demo_board /\
  P4OUT (BlinkLED 384 (BlinkLED 384 demo_board)) = P4OUT demo_board /\
  BlinkLED 384 demo_board = BlinkLED (u8 384) demo_board /\
  BlinkLED (384 + 256) demo_board = BlinkLED 384 demo_board.
Proof.
  apply (BlinkLED_toggles 384 demo_board). unfold board_ok, byte. cbn. lia.
Defined.

(** * The shot pool and its advance-tasks *)

Lemma MoveRightShot_unfold k s x y st :
  0 <= k -> (Z.to_nat k < List.length (shots s))%nat ->
  shot_at s k = mk_shot x y st ->
  MoveRightShot k s =
  if x <? MAP_WIDTH - 2 then
    let s1 := set_shot k (mk_shot (u8 (x + 1)) y st) (emit (C_CharXY " " x y) s) in
    let '(a, s2) := rd (u8 (x + 1)) y s1 in
    if negb (a =? 0) then
      Task_Queue T_UpdateScore None
        (Task_Remove T_MoveRightShot (Some k)
           (upd_game (fun g => set_score (int16 (game_score g + 1)) g)
              (set_shot k (mk_shot (u8 (x + 1)) y 0)
                 (emit C_Bell (emit (C_SetColor BackgroundBlack)
                    (emit (C_CharXY "*" (u8 (x + 1)) y)
                       (emit (C_SetColor BackgroundYellow) (wr (u8 (x + 1)) y 0 s2))))))))
    else
      emit (C_SetColor ForegroundWhite)
        (emit (C_CharXY "-" (u8 (x + 1)) y) (emit (C_SetColor ForegroundYellow) s2))
  else
    Task_Remove T_MoveRightShot (Some k)
      (set_shot k (mk_shot x y 0) (emit (C_CharXY " " x y) s)).
Proof.
  intros K L O. unfold MoveRightShot. rewrite O. cbn [shot_x shot_y].
  destruct (x <? MAP_WIDTH - 2).
  - cbv zeta. unfold Game_CharXY, Game_SetColor, Game_Bell.
    change (shot_at (emit (C_CharXY " " x y) s) k) with (shot_at s k).
    rewrite O. cbn [shot_x shot_y shot_status set_shot_x].
    rewrite (shot_at_set_shot_same k _ (emit (C_CharXY " " x y) s) K L).
    change (set_shot_x (u8 (x + 1)) (mk_shot x y st)) with (mk_shot (u8 (x + 1)) y st).
    cbn [shot_x shot_y].
    destruct (rd (u8 (x + 1)) y
                (set_shot k (mk_shot (u8 (x + 1)) y st) (emit (C_CharXY " " x y) s)))
      as [a s2] eqn:E.
    assert (shot_at s2 k = mk_shot (u8 (x + 1)) y st) as O2.
    { rewrite (shot_at_rd _ _ _ _ _ k E). apply shot_at_set_shot_same; auto. }
    repeat first
      [ rewrite O2
      | rewrite shot_at_wr
      | match goal with
        | |- context [shot_at (emit ?c ?t) k] =>
            change (shot_at (emit c t) k) with (shot_at t k)
        end
      | progress cbn [shot_x shot_y] ].
    destruct (negb (a =? 0)); reflexivity.
  - cbv zeta. unfold Game_CharXY.
    change (shot_at (emit (C_CharXY " " x y) s) k) with (shot_at s k).
    rewrite O. reflexivity.
Qed.

Lemma count_after_release a k ts :
  count_task T_MoveRightShot a
    (filter (fun t => negb (same_task T_MoveRightShot (Some k) t)) ts)
  = if arg_eqb a (Some k) then 0 else count_task T_MoveRightShot a ts.
Proof. rewrite count_task_remove. reflexivity. Qed.

(** One advance of slot [k]: what becomes of the slot, of the advance-tasks
    and of the other slots. *)
Lemma MoveRightShot_slot k s :
  0 <= k -> (Z.to_nat k < List.length (shots s))%nat ->
  (if (shot_x (shot_at s k) <? MAP_WIDTH - 2) && (cell_ahead s k =? 0)
   then shot_status (shot_at (MoveRightShot k s) k) = shot_status (shot_at s k) /\
        tasks (MoveRightShot k s) = tasks s
   else shot_status (shot_at (MoveRightShot k s) k) = 0 /\
        forall a, count_task T_MoveRightShot a (tasks (MoveRightShot k s))
                  = if arg_eqb a (Some k) then 0
                    else count_task T_MoveRightShot a (tasks s)) /\
  (forall j, 0 <= j -> j <> k -> shot_at (MoveRightShot k s) j = shot_at s j).
Proof.
  intros K L. unfold cell_ahead.
  destruct (shot_at s k) as [x y st] eqn:O. cbn [shot_x shot_y shot_status].
  rewrite (MoveRightShot_unfold k s x y st K L O).
  destruct (x <? MAP_WIDTH - 2); cbn [andb].
  - cbv zeta. unfold rd, asteroids_get.
    change (peek (asteroids (set_shot k (mk_shot (u8 (x + 1)) y st)
                               (emit (C_CharXY " " x y) s)))
                 (offset (u8 (x + 1)) y)) with (cell s (u8 (x + 1)) y).
    unfold wr.
    destruct (in_bounds (u8 (x + 1)) y); cbv iota beta;
      destruct (cell s (u8 (x + 1)) y =? 0); cbn [negb];
      (split; [split|]);
      try (unfold shot_at; cbn; rewrite ?put_nat_twice; rewrite put_nat_nth_same by exact L;
           reflexivity);
      try reflexivity;
      try (intros a; cbn; rewrite count_task_app, count_after_release;
           destruct (arg_eqb a (Some k));
           [reflexivity
           | rewrite count_task_cons, count_task_nil; unfold same_task; cbn; lia]);
      try (intros j J N; unfold shot_at; cbn; rewrite ?put_nat_twice;
           apply put_nat_nth_other; apply to_nat_neq; auto).
  - split; [split|].
    + unfold shot_at. cbn. rewrite put_nat_nth_same by exact L. reflexivity.
    + intros a. cbn. apply count_after_release.
    + intros j J N. unfold shot_at. cbn. apply put_nat_nth_other. apply to_nat_neq; auto.
Qed.

(** C6. In every reachable state at most MAX_SHOTS slots are Active; an
    Active slot has exactly one advance-task and an Idle slot has none.  An
    advance step of an Active slot keeps it Active with its one task exactly
    when the shot is short of the far boundary and the cell it moves onto is
    empty; otherwise (obstacle hit, far boundary) it leaves the slot Idle
    with that task cancelled.  In both cases the other slots and their
    advance-tasks are left as they were.  GameOver leaves every slot Idle
    with no advance-task; and the scheduler can only run an advance-task for
    a slot that is Active. *)
Theorem shot_pool_discipline s :
  reachable s ->
  active_count s <= MAX_SHOTS /\
  (forall k, 0 <= k < MAX_SHOTS ->
     (shot_status (shot_at s k) = 1 /\ advance_tasks s k = 1) \/
     (shot_status (shot_at s k) = 0 /\ advance_tasks s k = 0)) /\
  (forall k, 0 <= k < MAX_SHOTS -> shot_status (shot_at s k) = 1 ->
     (if (shot_x (shot_at s k) <? MAP_WIDTH - 2) && (cell_ahead s k =? 0)
      then shot_status (shot_at (MoveRightShot k s) k) = 1 /\
           advance_tasks (MoveRightShot k s) k = 1
      else shot_status (shot_at (MoveRightShot k s) k) = 0 /\
           advance_tasks (MoveRightShot k s) k = 0) /\
     (forall j, 0 <= j < MAX_SHOTS -> j <> k ->
        shot_at (MoveRightShot k s) j = shot_at s j /\
        advance_tasks (MoveRightShot k s) j = advance_tasks s j)) /\
  (forall k, 0 <= k < MAX_SHOTS ->
     shot_status (shot_at (GameOver s) k) = 0 /\ advance_tasks (GameOver s) k = 0) /\
  (forall k rnd s', step (ETask T_MoveRightShot (Some k) rnd) s = Some s' ->
     0 <= k < MAX_SHOTS /\ shot_status (shot_at s k) = 1).
Proof.
  intros R. pose proof (reachable_Inv s R) as H.
  assert (forall s1, Inv s1 -> forall k, 0 <= k < MAX_SHOTS ->
            (shot_status (shot_at s1 k) = 1 /\ advance_tasks s1 k = 1) \/
            (shot_status (shot_at s1 k) = 0 /\ advance_tasks s1 k = 0)) as both.
  { intros s1 [_ _ _ [_ St C _]] k K. unfold advance_tasks, shot_at.
    rewrite (C k K). destruct (St k K) as [E|E]; rewrite E; auto. }
  split; [|split; [|split; [|split]]].
  - unfold active_count. rewrite <- (Z2Nat.id MAX_SHOTS) by (unfold MAX_SHOTS; lia).
    rewrite <- (pool_len _ _ (inv_pool s H)).
    apply inj_le, filter_length_le.
  - apply both; auto.
  - intros k K A.
    assert (Z.to_nat k < List.length (shots s))%nat as L
      by (rewrite (pool_len _ _ (inv_pool s H)); unfold MAX_SHOTS in *; lia).
    assert (advance_tasks s k = 1) as T1
      by (destruct (both s H k K) as [[_ T]|[S _]]; [exact T | congruence]).
    destruct (MoveRightShot_slot k s ltac:(lia) L) as [Slot Others].
    unfold advance_tasks in *.
    destruct ((shot_x (shot_at s k) <? MAP_WIDTH - 2) && (cell_ahead s k =? 0)).
    + destruct Slot as [St Tk]. rewrite St, Tk. split; [split; assumption|].
      intros j J N. split; [apply Others; lia | reflexivity].
    + destruct Slot as [St Ct]. split.
      * split; [exact St|]. rewrite Ct.
        replace (arg_eqb (Some k) (Some k)) with true; [reflexivity|].
        symmetry. apply arg_eqb_eq. reflexivity.
      * intros j J N. split; [apply Others; lia|]. rewrite Ct.
        destruct (arg_eqb (Some j) (Some k)) eqn:E; [|reflexivity].
        apply arg_eqb_eq in E. congruence.
  - intros k K. destruct (GameOver_releases_all s k H K). split; auto.
  - intros k rnd s' E. simpl in E.
    destruct (take_task T_MoveRightShot (Some k) (tasks s)) as [ts|] eqn:T; [|discriminate].
    destruct (take_advance_task s _ _ H T) as (_ & j & J & K).
    inversion J; subst j. split; [exact K|].
    pose proof (take_task_count _ _ _ _ T) as C.
    destruct (both s H k K) as [[S _]|[_ A]]; [exact S|].
    unfold advance_tasks in A. lia.
Qed.

Lemma shot_pool_discipline_witness :
  reachable demo_shot /\
  active_count demo_shot <= MAX_SHOTS /\
  (forall k, 0 <= k < MAX_SHOTS ->
     (shot_status (shot_at demo_shot k) = 1 /\ advance_tasks demo_shot k = 1) \/
     (shot_status (shot_at demo_shot k) = 0 /\ advance_tasks demo_shot k = 0)) /\
  (forall k, 0 <= k < MAX_SHOTS -> shot_status (shot_at demo_shot k) = 1 ->
     (if (shot_x (shot_at demo_shot k) <? MAP_WIDTH - 2) && (cell_ahead demo_shot k =? 0)
      then shot_status (shot_at (MoveRightShot k demo_shot) k) = 1 /\
           advance_tasks (MoveRightShot k demo_shot) k = 1
      else shot_status (shot_at (MoveRightShot k demo_shot) k) = 0 /\
           advance_tasks (MoveRightShot k demo_shot) k = 0) /\
     (forall j, 0 <= j < MAX_SHOTS -> j <> k ->
        shot_at (MoveRightShot k demo_shot) j = shot_at demo_shot j /\
        advance_tasks (MoveRightShot k demo_shot) j = advance_tasks demo_shot j)) /\
  (forall k, 0 <= k < MAX_SHOTS ->
     shot_status (shot_at (GameOver demo_shot) k) = 0 /\
     advance_tasks (GameOver demo_shot) k = 0) /\
  (forall k rnd s', step (ETask T_MoveRightShot (Some k) rnd) demo_shot = Some s' ->
     0 <= k < MAX_SHOTS /\ shot_status (shot_at demo_shot k) = 1).
Proof.
  split; [exact demo_shot_reachable|].
  apply (shot_pool_discipline demo_shot). exact demo_shot_reachable.
Defined.

(** * Health and the end of a round *)

Lemma owed_refl s : owed s s.
Proof. constructor; [reflexivity | lia | intros; lia]. Qed.

Lemma owed_trans s0 s1 s2 : owed s0 s1 -> owed s1 s2 -> owed s0 s2.
Proof.
  intros [R1 P1 H1] [R2 P2 H2]. constructor; [congruence | lia |].
  intros B. destruct (H1 B) as [B1 L1]. destruct (H2 B1) as [B2 L2]. lia.
Qed.

Lemma owed_same s0 s s' :
  receiver s' = receiver s -> tasks s' = tasks s ->
  game_health (game s') = game_health (game s) ->
  owed s0 s -> owed s0 s'.
Proof.
  intros R T G [R0 P0 H0]. unfold pending_health, health in *.
  constructor; unfold pending_health, health; rewrite ?R, ?T, ?G; auto.
Qed.

Lemma owed_emit s0 c s : owed s0 s -> owed s0 (emit c s).
Proof. apply owed_same; reflexivity. Qed.

Lemma owed_set_gRechargingWeapon s0 v s : owed s0 s -> owed s0 (set_gRechargingWeapon v s).
Proof. apply owed_same; reflexivity. Qed.

Lemma owed_set_asteroidSpawnProbability s0 v s :
  owed s0 s -> owed s0 (set_asteroidSpawnProbability v s).
Proof. apply owed_same; reflexivity. Qed.

Lemma owed_set_shot s0 k o s : owed s0 s -> owed s0 (set_shot k o s).
Proof. apply owed_same; reflexivity. Qed.

Lemma owed_fault s0 c r s : owed s0 s -> owed s0 (fault c r s).
Proof. apply owed_same; reflexivity. Qed.

Lemma owed_wr s0 c r v s : owed s0 s -> owed s0 (wr c r v s).
Proof.
  apply owed_same; [unfold wr; destruct (in_bounds c r); reflexivity
                   | apply wr_tasks | rewrite wr_game; reflexivity].
Qed.

Lemma rd_owed s0 c r s v s' : rd c r s = (v, s') -> owed s0 s -> owed s0 s'.
Proof.
  unfold rd. destruct (asteroids_get _ _ _); intros E; inversion E; subst;
    auto using owed_fault.
Qed.

Lemma owed_upd_game s0 f s :
  (forall g, game_health (f g) = game_health g) -> owed s0 s -> owed s0 (upd_game f s).
Proof. intros F. apply owed_same; [reflexivity | reflexivity | cbn; apply F]. Qed.

Lemma owed_task s0 fn arg d p s : owed s0 s -> owed s0 (Task_Schedule fn arg d p s).
Proof.
  intros [R P H].
  assert (pending_health s <= pending_health (Task_Schedule fn arg d p s)) as Q.
  { unfold pending_health. cbn. rewrite count_task_app.
    pose proof (count_task_nonneg T_UpdateHealth None [mk_task fn arg d p]). lia. }
  constructor; [exact R | lia |].
  intros B. destruct (H B) as [B1 L1].
  change (health (Task_Schedule fn arg d p s)) with (health s). lia.
Qed.

Lemma owed_remove s0 fn arg s :
  fn <> T_UpdateHealth -> owed s0 s -> owed s0 (Task_Remove fn arg s).
Proof.
  intros N [R P H].
  assert (pending_health (Task_Remove fn arg s) = pending_health s) as Q.
  { unfold pending_health. cbn. rewrite count_task_remove.
    destruct (task_fn_eqb T_UpdateHealth fn) eqn:E; [|reflexivity].
    apply task_fn_eqb_eq in E. congruence. }
  constructor; [exact R | lia |].
  intros B. destruct (H B) as [B1 L1].
  change (health (Task_Remove fn arg s)) with (health s). lia.
Qed.

Lemma ship_hit_pending cx cy s :
  pending_health (ship_hit cx cy s) = pending_health s + 1.
Proof.
  unfold pending_health. destruct (ship_hit_effects cx cy s) as (_ & T & _).
  rewrite T, count_task_app. reflexivity.
Qed.

Lemma ship_hit_health cx cy s :
  0 <= health s <= 256 ->
  health (ship_hit cx cy s) = if 0 <? health s then health s - 1 else health s.
Proof.
  intros B. unfold health in *. destruct (ship_hit_effects cx cy s) as (G & _).
  rewrite G. unfold hurt. destruct (Z.ltb_spec 0 (game_health (game s))); [|reflexivity].
  cbn. apply u8_small. lia.
Qed.

Lemma ship_hit_receiver cx cy s : receiver (ship_hit cx cy s) = receiver s.
Proof.
  unfold ship_hit, Task_Queue, Task_Schedule, Game_Bell, Game_SetColor, Game_CharXY.
  cbv zeta. destruct (0 <? _); cbn; unfold wr; destruct (in_bounds cx cy); reflexivity.
Qed.

Lemma owed_ship_hit s0 cx cy s : owed s0 s -> owed s0 (ship_hit cx cy s).
Proof.
  intros O. apply owed_trans with s; [exact O|].
  constructor.
  - apply ship_hit_receiver.
  - rewrite ship_hit_pending. lia.
  - intros B. rewrite ship_hit_pending. unfold health in *.
    destruct (ship_hit_effects cx cy s) as (G & _). rewrite G. unfold hurt.
    destruct (Z.ltb_spec 0 (game_health (game s))); [|lia].
    cbn. rewrite u8_small by lia. lia.
Qed.

Lemma for_owed body :
  (forall i s0 s, owed s0 s -> owed s0 (body i s)) ->
  forall idx s0 s, owed s0 s -> owed s0 (for_ idx body s).
Proof.
  intros B idx; induction idx as [|i idx IH]; intros s0 s F; simpl; auto.
Qed.

Ltac owed_hook := fail.

Ltac owed_tac :=
  repeat first
    [ assumption
    | apply owed_refl
    | apply owed_ship_hit
    | owed_hook
    | apply owed_emit
    | apply owed_set_gRechargingWeapon
    | apply owed_set_asteroidSpawnProbability
    | apply owed_set_shot
    | apply owed_wr
    | apply owed_task
    | apply owed_remove; [discriminate|]
    | apply owed_upd_game; [intros; reflexivity|]
    | match goal with
      | |- owed _ (if ?c then _ else _) => destruct c eqn:?
      | |- owed _ (match ?o with Some _ => _ | None => _ end) => destruct o eqn:?
      | |- owed ?s0 (let '(_, _) := rd ?c ?r ?s in _) =>
          let v := fresh "v" in
          let s1 := fresh "s" in
          let E := fresh "E" in
          destruct (rd c r s) as [v s1] eqn:E;
          assert (owed s0 s1) by (apply (rd_owed s0 c r s v s1 E); owed_tac)
      end ].

Arguments ship_hit : simpl never.

Lemma shift_cell_owed s0 column i s : owed s0 s -> owed s0 (shift_cell column i s).
Proof.
  intros O. unfold shift_cell, Game_CharXY. cbv zeta. owed_tac.
Qed.

Lemma ShiftAsteroidColumns_owed s0 s : owed s0 s -> owed s0 (ShiftAsteroidColumns s).
Proof.
  intros O. unfold ShiftAsteroidColumns.
  apply for_owed; auto. intros column s1 s2 O2.
  apply for_owed; auto. intros i s3 s4 O4. apply shift_cell_owed; exact O4.
Qed.

Lemma GenerateAsteroidColumn_owed rnd s0 s :
  owed s0 s -> owed s0 (GenerateAsteroidColumn rnd s).
Proof.
  intros O. unfold GenerateAsteroidColumn. apply for_owed; auto.
  intros i s1 s2 O2. unfold generate_row, Game_CharXY. cbv zeta. owed_tac.
Qed.

Lemma GenerateAndShift_owed rnd s : owed s (GenerateAndShift rnd s).
Proof.
  unfold GenerateAndShift.
  apply ShiftAsteroidColumns_owed, GenerateAsteroidColumn_owed, owed_refl.
Qed.

Lemma ship_arrive_owed s0 s : owed s0 s -> owed s0 (ship_arrive s).
Proof.
  intros O. unfold ship_arrive, Game_SetColor, Game_CharXY. cbv zeta. owed_tac.
Qed.

Ltac owed_hook ::=
  match goal with
  | |- owed _ (ship_arrive _) => apply ship_arrive_owed
  end.

Lemma do_move_owed m s : owed s (do_move m s).
Proof.
  destruct m; cbn [do_move]; unfold MoveLeft, MoveRight, MoveUp, MoveDown, Game_CharXY;
    cbv zeta; owed_tac.
Qed.

Lemma Shoot_owed s : owed s (Shoot s).
Proof.
  unfold Shoot, Task_Queue, Game_SetColor, Game_CharXY. cbv zeta. owed_tac.
Qed.

Lemma Receiver_owed c s : owed s (Receiver c s).
Proof.
  destruct (Receiver_cases c s) as [E|[E|[E|[E|[E|E]]]]]; rewrite E.
  - apply (do_move_owed MLeft).
  - apply (do_move_owed MRight).
  - apply (do_move_owed MUp).
  - apply (do_move_owed MDown).
  - apply Shoot_owed.
  - apply owed_refl.
Qed.

Lemma Help_owed s : owed s (Help s).
Proof. unfold Help, Game_Printf. cbv zeta. owed_tac. Qed.

Lemma IncreaseScore_owed s : owed s (IncreaseScore s).
Proof. unfold IncreaseScore, Task_Queue. cbv zeta. owed_tac. Qed.

Lemma UpdateScore_owed s : owed s (UpdateScore s).
Proof.
  unfold UpdateScore, set_difficulty, Task_Queue, Game_CharXY, Game_Printf.
  cbv zeta. owed_tac.
Qed.

Lemma UpdateDifficulty_owed s : owed s (UpdateDifficulty s).
Proof. unfold UpdateDifficulty, Game_CharXY, Game_Printf. cbv zeta. owed_tac. Qed.

Lemma ResetScreenColor_owed s : owed s (ResetScreenColor s).
Proof. unfold ResetScreenColor, Game_CharXY, Game_SetColor. cbv zeta. owed_tac. Qed.

Lemma UpdateShotCooldown_owed s : owed s (UpdateShotCooldown s).
Proof.
  unfold UpdateShotCooldown, charge_bar, Game_CharXY, Game_SetColor, Game_Printf.
  cbv zeta. owed_tac.
Qed.

Lemma DecreaseCooldown_owed s : owed s (DecreaseCooldown s).
Proof. unfold DecreaseCooldown, Task_Queue. cbv zeta. owed_tac. Qed.

Lemma MoveRightShot_owed k s : owed s (MoveRightShot k s).
Proof.
  unfold MoveRightShot, Task_Queue, Game_Bell, Game_CharXY, Game_SetColor.
  cbv zeta. owed_tac.
Qed.

Lemma Callback_owed argc argv s s' : Callback argc argv s = Some s' -> owed s s'.
Proof.
  unfold Callback, Game_Log. cbv zeta. intros C.
  destruct argv as [|a0 rest]; [discriminate|].
  destruct (argc =? 0), (strcasecmp a0 "reset" =? 0); inversion C; subst; owed_tac.
Qed.

Lemma receiver_emit c s : receiver (emit c s) = receiver s.
Proof. reflexivity. Qed.

Lemma UpdateHealth_receiver s : health s = 0 -> receiver (UpdateHealth s) = false.
Proof.
  unfold UpdateHealth, health, Game_SetColor, Game_Printf, Game_CharXY. cbv zeta.
  intros H.
  change (game_health (game (emit (C_SetColor ForegroundRed) (emit (C_Printf "Health: " [])
            (emit (C_CharXY CR 0 (MAP_HEIGHT + 2)) s))))) with (game_health (game s)).
  destruct (Z.leb_spec 3 (game_health (game s))); [lia|].
  destruct (Z.eqb_spec (game_health (game s)) 2); [lia|].
  destruct (Z.eqb_spec (game_health (game s)) 1); [lia|].
  destruct (Z.eqb_spec (game_health (game s)) 0); [|lia].
  rewrite receiver_emit. apply GameOver_receiver.
Qed.

Lemma task_step fn arg rnd s s' :
  step (ETask fn arg rnd) s = Some s' ->
  exists ts, take_task fn arg (tasks s) = Some ts /\
             s' = run_task fn arg rnd (set_tasks ts s).
Proof.
  cbn [step]. intros E.
  destruct (take_task fn arg (tasks s)) as [ts|]; [|discriminate E].
  exists ts. split; [reflexivity|]. injection E as E. symmetry. exact E.
Qed.

Lemma take_task_owed fn arg s ts :
  fn <> T_UpdateHealth -> take_task fn arg (tasks s) = Some ts ->
  owed s (set_tasks ts s).
Proof.
  intros N T.
  assert (pending_health (set_tasks ts s) = pending_health s) as Q.
  { unfold pending_health. cbn [tasks set_tasks]. apply (take_task_other _ _ _ _ _ _ T).
    destruct (task_fn_eqb T_UpdateHealth fn) eqn:F; [|reflexivity].
    apply task_fn_eqb_eq in F. congruence. }
  constructor; [reflexivity | lia |].
  intros B. change (health (set_tasks ts s)) with (health s). lia.
Qed.

(** The events at which the ship can collide. *)
Lemma collision_step_owed e s s' :
  step e s = Some s' ->
  (exists c, e = EKey c) \/ (exists a rnd, e = ETask T_GenerateAndShift a rnd) ->
  owed s s'.
Proof.
  intros E [(c & ->)|(a & rnd & ->)].
  - cbn [step] in E. destruct (receiver s); [|discriminate E].
    injection E as <-. apply Receiver_owed.
  - destruct (task_step _ _ _ _ _ E) as (ts & T & ->). cbn [run_task].
    apply owed_trans with (set_tasks ts s); [|apply GenerateAndShift_owed].
    apply (take_task_owed T_GenerateAndShift a); [discriminate | exact T].
Qed.

(** Every other event but Play and a run of UpdateHealth. *)
Lemma quiet_step_owed e s s' :
  step e s = Some s' -> e <> EPlay ->
  (forall a rnd, e <> ETask T_UpdateHealth a rnd) ->
  owed s s'.
Proof.
  intros E NP NU.
  destruct e as [| |argc argv|c|fn arg rnd].
  - congruence.
  - cbn [step] in E. inversion E; subst. apply Help_owed.
  - cbn [step] in E. eapply Callback_owed; eauto.
  - apply (collision_step_owed _ _ _ E). left. eauto.
  - destruct (task_fn_eqb fn T_GenerateAndShift) eqn:G.
    { apply task_fn_eqb_eq in G. subst fn.
      apply (collision_step_owed _ _ _ E). right. eauto. }
    destruct (task_step _ _ _ _ _ E) as (ts & T & ->).
    assert (fn <> T_UpdateHealth) as N by (intros ->; apply (NU arg rnd); reflexivity).
    apply owed_trans with (set_tasks ts s).
    + apply (take_task_owed fn arg); assumption.
    + destruct fn; cbn [run_task].
      * discriminate G.
      * apply IncreaseScore_owed.
      * apply UpdateScore_owed.
      * congruence.
      * apply UpdateShotCooldown_owed.
      * apply UpdateDifficulty_owed.
      * apply ResetScreenColor_owed.
      * destruct arg; [apply MoveRightShot_owed | apply owed_refl].
      * apply DecreaseCooldown_owed.
Qed.

(** While keys are received, a health of 0 has its UpdateHealth pending. *)
Lemma health_zero_pending s :
  reachable s -> receiver s = true -> health s = 0 -> 1 <= pending_health s.
Proof.
  induction 1 as [id adj | e s s' R IH E]; [discriminate|].
  intros Rc Hz. pose proof (reachable_Inv s R) as [Hh _ _ _]. fold (health s) in Hh.
  assert (owed s s' -> 1 <= pending_health s') as Use.
  { intros [Or Op Oh]. destruct (Oh ltac:(lia)) as [_ L].
    pose proof (count_task_nonneg T_UpdateHealth None (tasks s)) as P0.
    fold (pending_health s) in P0.
    destruct (Z.eq_dec (health s) 0) as [Z0|NZ]; [|lia].
    rewrite Or in Rc. specialize (IH Rc Z0). lia. }
  destruct e as [| |argc argv|c|fn arg rnd].
  - cbn [step] in E. injection E as <-.
    destruct (Play_effects s) as (G & _). unfold health in Hz. rewrite G in Hz.
    discriminate Hz.
  - apply Use. eapply quiet_step_owed; eauto; discriminate.
  - apply Use. eapply quiet_step_owed; eauto; discriminate.
  - apply Use. eapply quiet_step_owed; eauto; discriminate.
  - destruct (task_fn_eqb fn T_UpdateHealth) eqn:U.
    + apply task_fn_eqb_eq in U. subst fn.
      destruct (task_step _ _ _ _ _ E) as (ts & T & ->).
      cbn [run_task] in *.
      assert (health (set_tasks ts s) = 0) as Z1
        by (unfold health in *; rewrite UpdateHealth_game in Hz; exact Hz).
      rewrite (UpdateHealth_receiver _ Z1) in Rc. discriminate Rc.
    + apply Use. eapply quiet_step_owed; eauto; [discriminate|].
      intros a r Eq. inversion Eq; subst. discriminate U.
Qed.

(** Health is lost at collision events only. *)
Lemma health_lost_at_collisions e s s' :
  reachable s -> step e s = Some s' -> health s' < health s ->
  (exists c, e = EKey c) \/ (exists a rnd, e = ETask T_GenerateAndShift a rnd).
Proof.
  intros R E L. pose proof (reachable_Inv s R) as [Hh _ _ _]. fold (health s) in Hh.
  destruct (step_kinds e s s' E) as [P|[(c & -> & _)|[(a & rnd & ts & -> & _)|C]]].
  - subst e. cbn [step] in E. injection E as <-.
    destruct (Play_effects s) as (G & _). unfold health in L, Hh. rewrite G in L.
    cbn [game_health] in L. lia.
  - left. eauto.
  - right. eauto.
  - unfold health in L. rewrite (calm_health _ _ C) in L. lia.
Qed.

(** C4 (as amended). In every reachable state health lies in [0,3]; no
    step other than Play raises health, so within a round it reaches 0 at
    most once.  Health is lost only at a key press or a spawn/shift tick,
    through the collision block, which takes one health point (none at 0)
    and queues exactly one UpdateHealth: every health point lost in a step
    is matched by an UpdateHealth queued in that step, and while keys are
    received a health of 0 always has an UpdateHealth pending.  Every run
    of UpdateHealth that finds health 0 calls GameOver (and no other run
    does), so GameOver runs once per UpdateHealth still pending at health
    0.  GameOver unregisters the receiver and leaves no spawn/shift or
    advance task, and from such a state, until the next Play, no key is
    received, no collision-testing task runs and health does not change. *)
Theorem health_and_round_over s :
  reachable s ->
  0 <= health s <= 3 /\
  (forall e s', step e s = Some s' -> e <> EPlay -> health s' <= health s) /\
  (forall cx cy,
     health (ship_hit cx cy s) = (if 0 <? health s then health s - 1 else health s) /\
     pending_health (ship_hit cx cy s) = pending_health s + 1) /\
  (forall e s', step e s = Some s' -> health s' < health s ->
     ((exists c, e = EKey c) \/ (exists a rnd, e = ETask T_GenerateAndShift a rnd)) /\
     health s - health s' <= pending_health s' - pending_health s) /\
  (receiver s = true -> health s = 0 -> 1 <= pending_health s) /\
  gameovers (UpdateHealth s) = gameovers s + (if health s =? 0 then 1 else 0) /\
  round_over (GameOver s) /\
  (forall s1 e s2, round_over s1 -> step e s1 = Some s2 -> e <> EPlay ->
     round_over s2 /\ health s2 = health s1 /\
     (forall c, e <> EKey c) /\
     (forall fn a rnd, e = ETask fn a rnd -> ~ collider fn)).
Proof.
  intros R. pose proof (inv_health s (reachable_Inv s R)) as Hh. fold (health s) in Hh.
  split; [exact Hh|].
  split; [intros e s'; apply step_health|].
  split; [intros cx cy; split; [apply ship_hit_health; lia | apply ship_hit_pending]|].
  split.
  { intros e s' E L.
    pose proof (health_lost_at_collisions e s s' R E L) as K. split; [exact K|].
    destruct (collision_step_owed e s s' E K) as [_ _ Oh].
    destruct (Oh ltac:(lia)) as [_ Le]. exact Le. }
  split; [apply health_zero_pending; exact R|].
  split; [apply UpdateHealth_gameovers|].
  split; [apply GameOver_round_over; exact R|].
  intros s1 e s2. apply round_over_step.
Qed.

Lemma health_and_round_over_witness :
  reachable demo_shot /\
  0 <= health demo_shot <= 3 /\
  (forall e s', step e demo_shot = Some s' -> e <> EPlay -> health s' <= health demo_shot) /\
  (forall cx cy,
     health (ship_hit cx cy demo_shot)
       = (if 0 <? health demo_shot then health demo_shot - 1 else health demo_shot) /\
     pending_health (ship_hit cx cy demo_shot) = pending_health demo_shot + 1) /\
  (forall e s', step e demo_shot = Some s' -> health s' < health demo_shot ->
     ((exists c, e = EKey c) \/ (exists a rnd, e = ETask T_GenerateAndShift a rnd)) /\
     health demo_shot - health s' <= pending_health s' - pending_health demo_shot) /\
  (receiver demo_shot = true -> health demo_shot = 0 -> 1 <= pending_health demo_shot) /\
  gameovers (UpdateHealth demo_shot) =
    gameovers demo_shot + (if health demo_shot =? 0 then 1 else 0) /\
  round_over (GameOver demo_shot) /\
  (forall s1 e s2, round_over s1 -> step e s1 = Some s2 -> e <> EPlay ->
     round_over s2 /\ health s2 = health s1 /\
     (forall c, e <> EKey c) /\
     (forall fn a rnd, e = ETask fn a rnd -> ~ collider fn)).
Proof.
  split; [exact demo_shot_reachable|].
  apply (health_and_round_over demo_shot). exact demo_shot_reachable.
Defined.
